(** * BFS / TeaSafe: file blocks, file entries and the ciphered image stream

    A shallow embedding of the block-level machinery of the container:

    - [Bytes]: octets and the little-endian integer codec of the block header;
    - [Host]: the backing image as a byte store, and streams opened on it;
    - [Geometry], [HDR], [getOffsetOfFileBlock]: the layout of an image;
    - [Bitmap]: the volume bitmap of the image header;
    - [FileBlock]: [FileBlock.hpp], one block of a chain (header and payload);
    - [FileEntry]: the seekable byte stream over a chain of blocks;
    - [Cipher]: the byte transformer interface and [NullByteTransformer.cpp];
    - [ContainerImageStream]: [ContainerImageStream.cpp];
    - [Chain]: what a file chain is on disk.

    Integers of the program are carried as [Z] with their wrap-around written
    out ([wrap32], [wrap64]); the image is a store from byte offsets to octets.
    The definitions come first; their properties follow, component by
    component. *)

From Stdlib Require Import ZArith List Bool Lia.
From Stdlib.Strings Require Import Byte.
Import ListNotations.
Local Open Scope Z_scope.

(* ------------------------------------------------------------------------- *)
(** ** Octets and fixed-width integers *)

Module Bytes.

Definition wrap32 (z : Z) : Z := z mod 2 ^ 32.
Definition wrap64 (z : Z) : Z := z mod 2 ^ 64.

(** [static_cast<uint8_t>] of an integer. *)
Definition byte_of_Z (z : Z) : byte :=
  match Byte.of_N (Z.to_N (Z.land z 255)) with
  | Some b => b
  | None => x00
  end.

Definition Z_of_byte (b : byte) : Z := Z.of_N (Byte.to_N b).

(** Modelled from the spec: the integer/array conversions of
    [DetailBFS.hpp] ([convertInt32ToInt4Array], [convertInt4ArrayToInt32],
    [convertUInt64ToInt8Array], [convertInt8ArrayToInt64]) are not among the
    sources.  The header fields are "unsigned 32-bit little-endian" and
    "unsigned 64-bit little-endian": octet [i] of the array carries bits
    [8i .. 8i+7] of the number. *)
Fixpoint le_encode (width : nat) (num : Z) : list byte :=
  match width with
  | O => []
  | S w => byte_of_Z (Z.land num 255) :: le_encode w (Z.shiftr num 8)
  end.

Fixpoint le_decode (array : list byte) : Z :=
  match array with
  | [] => 0
  | b :: rest => Z.lor (Z_of_byte b) (Z.shiftl (le_decode rest) 8)
  end.

Definition convertInt32ToInt4Array (num : Z) : list byte := le_encode 4 num.
Definition convertInt4ArrayToInt32 (array : list byte) : Z :=
  le_decode (firstn 4 array).
Definition convertUInt64ToInt8Array (bigNum : Z) : list byte :=
  le_encode 8 bigNum.
Definition convertInt8ArrayToInt64 (array : list byte) : Z :=
  le_decode (firstn 8 array).

End Bytes.

(* ------------------------------------------------------------------------- *)
(** ** The host file behind an image *)

Module Host.

(** The contents of the backing file, by byte offset.  Images are created
    at their full size ([N] blocks behind the header) before any entry is
    opened, so every offset the block layer touches lies inside the file. *)
Definition image := Z -> byte.

Definition blank : image := fun _ => x00.

(** Store [bs] at offsets [pos, pos + |bs|). *)
Definition pwrite (img : image) (pos : Z) (bs : list byte) : image :=
  fun a =>
    if (pos <=? a) && (a <? pos + Z.of_nat (length bs))
    then nth (Z.to_nat (a - pos)) bs x00
    else img a.

(** Load [n] octets starting at [pos]. *)
Definition pread (img : image) (pos : Z) (n : nat) : list byte :=
  map (fun i => img (pos + Z.of_nat i)) (seq 0 n).

(** A [std::fstream] opened on the image.  The underlying [basic_filebuf]
    keeps a single file position, shared by the get and the put side.
    [faults] is the schedule of the host: each transfer or seek consumes one
    entry, [true] meaning that the host fails that operation (the stream
    turns [bad]); the empty schedule is a host that never fails. *)
Record fstream := mkStream {
  file : image;
  cursor : Z;
  badbit : bool;
  faults : list bool
}.

Definition open (img : image) (sched : list bool) : fstream :=
  mkStream img 0 false sched.

Definition bad (s : fstream) : bool := badbit s.

Definition clear (s : fstream) : fstream :=
  mkStream (file s) (cursor s) false (faults s).

Definition next_fault (s : fstream) : bool :=
  match faults s with
  | [] => false
  | f :: _ => f
  end.

(** One host operation: nothing happens on a stream that is already bad;
    otherwise the schedule decides, and [ok] is the stream after success.
    A failed operation is kept whole here: the file and the position stay as
    they were.  A real host may have stored the leading part of a write when
    it fails, so what the file holds inside the window of a failed write is
    outside this model. *)
Definition step (s : fstream) (ok : image -> Z -> image * Z) : fstream :=
  if badbit s then s
  else if next_fault s
       then mkStream (file s) (cursor s) true (tl (faults s))
       else let '(img, pos) := ok (file s) (cursor s) in
            mkStream img pos false (tl (faults s)).

Definition seekp (s : fstream) (pos : Z) : fstream :=
  step s (fun img _ => (img, pos)).

Definition seekg (s : fstream) (pos : Z) : fstream :=
  step s (fun img _ => (img, pos)).

Definition tellp (s : fstream) : Z := cursor s.
Definition tellg (s : fstream) : Z := cursor s.

(** [stream.write(buf, n)]: the first [n] octets of [buf] go to the file at
    the cursor, which moves past them.  The octets are stored at once: the
    image is the file as a reader of the stream finds it, with no account of
    what a [filebuf] still holds back until [flush].  Counts are those of the
    callers, [n >= 0]. *)
Definition write (s : fstream) (buf : list byte) (n : Z) : fstream :=
  step s (fun img pos =>
            let bs := firstn (Z.to_nat n) buf in
            (pwrite img pos bs, pos + Z.of_nat (length bs))).

(** [stream.read(buf, n)]: on success the first [n] octets of [buf] are
    replaced by the file's; a failed read leaves [buf] as it was.  The image
    has no end (see [image]), so no read comes back short, and [bad] is the
    only failure state. *)
Definition read (s : fstream) (buf : list byte) (n : Z) : fstream * list byte :=
  let s' := step s (fun img pos => (img, pos + Z.max 0 n)) in
  if badbit s' then (s', buf)
  else (s', pread (file s) (cursor s) (Z.to_nat n) ++ skipn (Z.to_nat n) buf).

Definition flush (s : fstream) : fstream := s.

(** Closing hands the file back. *)
Definition close (s : fstream) : image := file s.

End Host.

(* ------------------------------------------------------------------------- *)
(** ** Image geometry *)

(** Modelled from the spec: [detail::FILE_BLOCK_SIZE] is declared in
  [DetailBFS.hpp], which is not among the sources.  The spec fixes "blocks of
  fixed size [B] (e.g. 512 bytes)"; the size is kept as a parameter of the
  development.  It exceeds the header, and a payload length fits the 32-bit
  [bytesWritten] field. *)
Class Geometry := {
FILE_BLOCK_SIZE : Z;
FILE_BLOCK_SIZE_range : 12 < FILE_BLOCK_SIZE < 2 ^ 32
}.

(** Modelled from the spec: [detail::FILE_BLOCK_META], the header of a file
  block: 4 octets of [bytesWritten] and 8 octets of [next]. *)
Definition FILE_BLOCK_META : Z := 12.

(** The geometry of the spec's scenarios and of the tests: [B = 512]. *)
Definition Geometry512 : Geometry :=
  {| FILE_BLOCK_SIZE := 512; FILE_BLOCK_SIZE_range := conj eq_refl eq_refl |}.

Section Layout.
Context {G : Geometry}.

(** Payload capacity [P = B - 12]. *)
Definition payloadCapacity : Z := FILE_BLOCK_SIZE - FILE_BLOCK_META.

(** Modelled from the spec: the image header ([DetailBFS.hpp] is not among
    the sources).  The bitmap starts at offset 48 and takes [ceil(N/8)]
    octets; [HDR] is "[48 + ceil(N/8)] rounded up to the block size". *)
Definition bitmapOffset : Z := 48.
Definition bitmapBytes (totalBlocks : Z) : Z := (totalBlocks + 7) / 8.
Definition HDR (totalBlocks : Z) : Z :=
  (bitmapOffset + bitmapBytes totalBlocks + FILE_BLOCK_SIZE - 1)
    / FILE_BLOCK_SIZE * FILE_BLOCK_SIZE.

(** Modelled from the spec: [detail::getOffsetOfFileBlock]; block [i] is the
    range "[HDR + i*B, HDR + (i+1)*B)".  The result is a [uint64_t]. *)
Definition getOffsetOfFileBlock (block totalBlocks : Z) : Z :=
  Bytes.wrap64 (HDR totalBlocks + block * FILE_BLOCK_SIZE).

(** The whole image is addressable by a (signed, 64-bit) stream position. *)
Definition image_fits (totalBlocks : Z) : Prop :=
  0 <= totalBlocks /\
  HDR totalBlocks + totalBlocks * FILE_BLOCK_SIZE < 2 ^ 63.

End Layout.

(* ------------------------------------------------------------------------- *)
(** ** The volume bitmap *)

Module Bitmap.
Section WithGeometry.
Context {G : Geometry}.

(** Modelled from the spec: the bitmap helpers of [DetailBFS.hpp]
    ([isBlockInUse], [updateVolumeBitmapWithOne], the search for the first
    free block) are not among the sources.  "A contiguous bit array of [N]
    bits in the image header, one bit per block, 1 = in use"; every update is
    "a read-modify-write of the one byte containing the target bit".  The
    spec leaves the order of the bits inside an octet open: bit [i mod 8],
    counted from the least significant one, is taken here. *)
Definition isBlockInUse (block totalBlocks : Z) (img : Host.image) : bool :=
  Z.testbit (Bytes.Z_of_byte (img (bitmapOffset + block / 8))) (block mod 8).

Definition updateVolumeBitmapWithOne
           (stream : Host.fstream) (blockUsed totalBlocks : Z) : Host.fstream :=
  let pos := bitmapOffset + blockUsed / 8 in
  let stream := Host.seekg stream pos in
  let '(stream, dat) := Host.read stream [x00] 1 in
  let dat := Bytes.byte_of_Z
               (Z.lor (Bytes.Z_of_byte (hd x00 dat))
                      (Z.shiftl 1 (blockUsed mod 8))) in
  let stream := Host.seekp stream pos in
  Host.write stream [dat] 1.

(** [markUsed(i)] on an image. *)
Definition markUsed (img : Host.image) (block totalBlocks : Z) : Host.image :=
  Host.close (updateVolumeBitmapWithOne (Host.open img []) block totalBlocks).

Definition blockIndices (totalBlocks : Z) : list Z :=
  map Z.of_nat (seq 0 (Z.to_nat totalBlocks)).

(** [firstFree]: "the smallest index with a 0 bit"; [None] is [NoSpace]. *)
Definition firstFree (img : Host.image) (totalBlocks : Z) : option Z :=
  find (fun i => negb (isBlockInUse i totalBlocks img)) (blockIndices totalBlocks).

(** [count(free)] and [count(used)]. *)
Definition countFree (img : Host.image) (totalBlocks : Z) : nat :=
  length (filter (fun i => negb (isBlockInUse i totalBlocks img))
                 (blockIndices totalBlocks)).

Definition countUsed (img : Host.image) (totalBlocks : Z) : nat :=
  length (filter (fun i => isBlockInUse i totalBlocks img)
                 (blockIndices totalBlocks)).

End WithGeometry.
End Bitmap.

(* ------------------------------------------------------------------------- *)
(** ** File blocks ([FileBlock.hpp]) *)

Module FileBlock.
Section WithGeometry.
Context {G : Geometry}.

(** The members of [class FileBlock]; the image path is represented by the
    image that the operations receive and return. *)
Record t := mk {
  m_totalBlocks : Z;
  m_index : Z;
  m_bytesWritten : Z;
  m_initialBytesWritten : Z;
  m_next : Z;
  m_offset : Z;
  m_extraOffset : Z
}.

(** The assertion of the writing constructor,
    [assert(m_next == detail::convertInt8ArrayToInt64(nextDat))]. *)
Definition new_assertion (next : Z) : bool :=
  next =? Bytes.convertInt8ArrayToInt64 (Bytes.convertUInt64ToInt8Array next).

(** The writing constructor [FileBlock(imagePath, totalBlocks, index, next)]. *)
Definition new (img : Host.image) (totalBlocks index next : Z) : t * Host.image :=
  let stream := Host.open img [] in
  let offset := getOffsetOfFileBlock index totalBlocks in
  let stream := Host.seekp stream offset in
  let sizeDat := Bytes.convertInt32ToInt4Array 0 in
  let stream := Host.write stream sizeDat 4 in
  let nextDat := Bytes.convertUInt64ToInt8Array next in
  let stream := Host.write stream nextDat 8 in
  let stream := Host.flush stream in
  (mk totalBlocks index 0 0 next offset 0, Host.close stream).

(** The reading constructor [FileBlock(imagePath, totalBlocks, index)]. *)
Definition open (img : Host.image) (totalBlocks index : Z) : t :=
  let stream := Host.open img [] in
  let offset := getOffsetOfFileBlock index totalBlocks in
  let stream := Host.seekg stream offset in
  let '(stream, sizeDat) := Host.read stream (repeat x00 4) 4 in
  let bytesWritten := Bytes.convertInt4ArrayToInt32 sizeDat in
  let '(stream, nextDat) := Host.read stream (repeat x00 8) 8 in
  let next := Bytes.convertInt8ArrayToInt64 nextDat in
  mk totalBlocks index bytesWritten bytesWritten next offset 0.

Definition setExtraOffset (b : t) (extraOffset : Z) : t :=
  mk (m_totalBlocks b) (m_index b) (m_bytesWritten b)
     (m_initialBytesWritten b) (m_next b) (m_offset b) extraOffset.

(** [read(buf, n)]: the block and the image come back as they are left by
    the call, followed by the filled buffer and the returned count. *)
Definition read (b : t) (img : Host.image) (buf : list byte) (n : Z)
  : t * Host.image * list byte * Z :=
  let stream := Host.open img [] in
  let stream :=
    Host.seekg stream (Bytes.wrap64 (m_offset b + FILE_BLOCK_META + m_extraOffset b)) in
  let '(stream, buf) := Host.read stream buf n in
  (b, Host.close stream, buf, n).

(** [write(buf, n)]. *)
Definition write (b : t) (img : Host.image) (buf : list byte) (n : Z)
  : t * Host.image * Z :=
  let stream := Host.open img [] in
  let stream :=
    Host.seekp stream (Bytes.wrap64 (m_offset b + FILE_BLOCK_META + m_extraOffset b)) in
  let stream := Host.write stream buf n in
  let bytesWritten := Bytes.wrap32 (m_bytesWritten b + Bytes.wrap32 n) in
  let stream := Host.seekp stream (m_offset b) in
  let sizeDat := Bytes.convertInt32ToInt4Array bytesWritten in
  let stream := Host.write stream sizeDat 4 in
  if (n <? FILE_BLOCK_SIZE - FILE_BLOCK_META) || (0 <? m_extraOffset b) then
    let next := m_index b in
    let nextDat := Bytes.convertUInt64ToInt8Array next in
    let stream := Host.write stream nextDat 8 in
    let stream := Host.flush stream in
    (mk (m_totalBlocks b) (m_index b) bytesWritten (m_initialBytesWritten b)
        next (m_offset b) (m_extraOffset b),
     Host.close stream, n)
  else
    let stream := Host.flush stream in
    (mk (m_totalBlocks b) (m_index b) bytesWritten (m_initialBytesWritten b)
        (m_next b) (m_offset b) (m_extraOffset b),
     Host.close stream, n).

Definition getDataBytesWritten (b : t) : Z := m_bytesWritten b.
Definition getInitialDataBytesWritten (b : t) : Z := m_initialBytesWritten b.
Definition getNextIndex (b : t) : Z := m_next b.
Definition getBlockOffset (b : t) : Z := m_offset b.
Definition getIndex (b : t) : Z := m_index b.

Definition setNext (b : t) (img : Host.image) (next : Z) : t * Host.image :=
  let stream := Host.open img [] in
  let stream := Host.seekp stream (Bytes.wrap64 (m_offset b + 4)) in
  let nextDat := Bytes.convertUInt64ToInt8Array next in
  let stream := Host.write stream nextDat 8 in
  let stream := Host.flush stream in
  (mk (m_totalBlocks b) (m_index b) (m_bytesWritten b)
      (m_initialBytesWritten b) next (m_offset b) (m_extraOffset b),
   Host.close stream).

Definition registerBlockWithVolumeBitmap (b : t) (img : Host.image) : Host.image :=
  let stream := Host.open img [] in
  let stream :=
    Bitmap.updateVolumeBitmapWithOne stream (m_index b) (m_totalBlocks b) in
  Host.close stream.

(** A block that lies inside an addressable image, with an index and an
    intra-block offset of their type ([uint64_t]); both constructors produce
    such blocks for an index below the block count of an image that
    [image_fits]. *)
Definition placed (b : t) : Prop :=
  0 <= m_index b < 2 ^ 64 /\
  0 <= m_extraOffset b < 2 ^ 64 /\
  0 <= m_offset b /\ m_offset b + FILE_BLOCK_SIZE <= 2 ^ 63.

(** The header a block has on disk, as the reading constructor sees it. *)
Definition diskBytesWritten (img : Host.image) (offset : Z) : Z :=
  Bytes.convertInt4ArrayToInt32 (Host.pread img offset 4).
Definition diskNext (img : Host.image) (offset : Z) : Z :=
  Bytes.convertInt8ArrayToInt64 (Host.pread img (offset + 4) 8).

End WithGeometry.
End FileBlock.

(* ------------------------------------------------------------------------- *)
(** ** File entries *)

Module FileEntry.

(** Error kinds returned by core operations (spec, section 7).  [NotModelled]
    is not one of them: it marks the sub-mode of [write] that this development
    leaves out (see [write]). *)
Inductive error :=
| NoSpace | Io | BadChain | OutOfBounds | ReadOnly | CipherInit | NotModelled.

Definition result (A : Type) : Type := (error + A)%type.

Definition ret {A : Type} (a : A) : result A := inr a.

Definition bind {A B : Type} (m : result A) (k : A -> result B) : result B :=
  match m with
  | inl e => inl e
  | inr a => k a
  end.

Notation "x <- m ;; k" := (bind m (fun x => k))
  (at level 61, m at next level, right associativity).
Notation "' pat <- m ;; k" := (bind m (fun x => match x with pat => k end))
  (at level 61, pat pattern, m at next level, right associativity).

Inductive OpenDisposition := Read | AppendOverwrite | Append | CreateNew.

Definition replaceAt {A : Type} (l : list A) (i : nat) (x : A) : list A :=
  firstn i l ++ match skipn i l with
                | [] => []
                | _ :: rest => x :: rest
                end.

Section WithGeometry.
Context {G : Geometry}.

(** Modelled from the spec: the file entry ([FileEntry.cpp] /
    [TeaSafeFile.cpp]) is not among the sources; only its declaration
    ([TeaSafeFile.hpp]) and its tests are.  The members kept are those the
    spec's "file entry state" lists: the block count of the image, the file
    size, the in-memory cache of blocks, the start block, the current-block
    cursor, the disposition and the byte position.  The intra-block offset
    lives in the current block ([FileBlock::setExtraOffset]). *)
Record t := mk {
  m_totalBlocks : Z;
  m_fileSize : Z;
  m_fileBlocks : list FileBlock.t;
  m_startVolumeBlock : Z;
  m_blockIndex : nat;
  m_openDisposition : OpenDisposition;
  m_pos : Z
}.

Definition fileSize (e : t) : Z := m_fileSize e.
Definition getStartVolumeBlockIndex (e : t) : Z := m_startVolumeBlock e.
Definition tell (e : t) : Z := m_pos e.

(** Modelled from the spec: allocation of a block.  "A block is created on
    first allocation (bitmap set, header written with [bytesWritten=0],
    [next=self])", at the index given by the bitmap's [firstFree]. *)
Definition newWritableFileBlock (img : Host.image) (totalBlocks : Z)
  : result (FileBlock.t * Host.image) :=
  match Bitmap.firstFree img totalBlocks with
  | None => inl NoSpace
  | Some k =>
      let '(blk, img) := FileBlock.new img totalBlocks k k in
      let img := FileBlock.registerBlockWithVolumeBitmap blk img in
      ret (blk, img)
  end.

(** Modelled from the spec: opening with [CreateNew]: "allocate [b0] via
    bitmap [firstFree]; file size = 0; chain = [[b0]]; position = 0". *)
Definition create (img : Host.image) (totalBlocks : Z) : result (t * Host.image) :=
  ' (blk, img) <- newWritableFileBlock img totalBlocks ;;
  ret (mk totalBlocks 0 [blk] (FileBlock.getIndex blk) 0 CreateNew 0, img).

(** Modelled from the spec: the chain walk of the other dispositions: "given
    [b0], walk the chain reading each block's header, appending to the
    in-memory block list, until [next == self]"; [BadChain] when "the chain
    walk exceeded [N] hops or revisited a block". *)
Fixpoint setBlocks (hops : nat) (img : Host.image) (totalBlocks index : Z)
         (blocks : list FileBlock.t) : result (list FileBlock.t) :=
  match hops with
  | O => inl BadChain
  | S hops' =>
      let blk := FileBlock.open img totalBlocks index in
      let blocks := blocks ++ [blk] in
      let next := FileBlock.getNextIndex blk in
      if next =? index then ret blocks
      else if existsb (fun b => FileBlock.getIndex b =? next) blocks
           then inl BadChain
           else setBlocks hops' img totalBlocks next blocks
  end.

Definition sumBytesWritten (blocks : list FileBlock.t) : Z :=
  fold_right (fun b acc => FileBlock.getDataBytesWritten b + acc) 0 blocks.

(** Modelled from the spec: opening an existing chain: "sum [bytesWritten] to
    recover file size.  Set position per disposition (0 for Read, [fileSize]
    for Append)"; at the end of the file the cursor is "at end-of-last-block". *)
Definition open (img : Host.image) (totalBlocks startBlock : Z)
           (disposition : OpenDisposition) : result t :=
  blocks <- setBlocks (Z.to_nat totalBlocks) img totalBlocks startBlock [] ;;
  let size := sumBytesWritten blocks in
  match disposition with
  | Read => ret (mk totalBlocks size blocks startBlock 0 Read 0)
  | _ =>
      let lastIndex := (length blocks - 1)%nat in
      let blocks :=
        match nth_error blocks lastIndex with
        | Some blk =>
            replaceAt blocks lastIndex
                      (FileBlock.setExtraOffset blk (FileBlock.getDataBytesWritten blk))
        | None => blocks
        end in
      ret (mk totalBlocks size blocks startBlock lastIndex disposition size)
  end.

(** Modelled from the spec: one round of a pure append: "fill the current
    last block up to [P] (incrementing its [bytesWritten]); when it fills,
    allocate a new block via bitmap [firstFree], set the old block's [next] to
    the new index, append the new block to the chain, and continue".  [chunk]
    is what goes into the current block. *)
Definition appendToCurrentBlock (e : t) (img : Host.image) (chunk : list byte)
  : result (t * Host.image) :=
  match nth_error (m_fileBlocks e) (m_blockIndex e) with
  | None => inl BadChain
  | Some blk =>
      let n := Z.of_nat (length chunk) in
      let blk := FileBlock.setExtraOffset blk (FileBlock.getDataBytesWritten blk) in
      let '(blk, img, _) := FileBlock.write blk img chunk n in
      let blocks := replaceAt (m_fileBlocks e) (m_blockIndex e) blk in
      if FileBlock.getDataBytesWritten blk =? payloadCapacity then
        ' (fresh, img) <- newWritableFileBlock img (m_totalBlocks e) ;;
        let '(blk, img) := FileBlock.setNext blk img (FileBlock.getIndex fresh) in
        let blocks := replaceAt blocks (m_blockIndex e) blk ++ [fresh] in
        ret (mk (m_totalBlocks e) (m_fileSize e + n) blocks (m_startVolumeBlock e)
                (length blocks - 1) (m_openDisposition e) (m_pos e + n), img)
      else
        ret (mk (m_totalBlocks e) (m_fileSize e + n) blocks (m_startVolumeBlock e)
                (m_blockIndex e) (m_openDisposition e) (m_pos e + n), img)
  end.

(** The room left in the current block. *)
Definition currentBlockRoom (e : t) : Z :=
  match nth_error (m_fileBlocks e) (m_blockIndex e) with
  | None => 0
  | Some blk => payloadCapacity - FileBlock.getDataBytesWritten blk
  end.

(** The append loop; every round but possibly the first stores at least one
    octet, so [rounds] above the length of the data is never exhausted. *)
Fixpoint appendLoop (rounds : nat) (e : t) (img : Host.image) (s : list byte)
  : result (t * Host.image) :=
  match s with
  | [] => ret (e, img)
  | _ :: _ =>
      match rounds with
      | O => inl OutOfBounds
      | S rounds' =>
          let room := Z.to_nat (currentBlockRoom e) in
          ' (e, img) <- appendToCurrentBlock e img (firstn room s) ;;
          appendLoop rounds' e img (skipn room s)
      end
  end.

(** Modelled from the spec: [write].  "Writes are rejected in [Read]"; with
    [pos == fileSize] the write is a pure append.  The in-place overwrite of
    the spec ([pos < fileSize]) is left out: [FileBlock::write] has no
    operation that stores payload without growing [bytesWritten]. *)
Definition write (e : t) (img : Host.image) (s : list byte)
  : result (t * Host.image) :=
  match m_openDisposition e with
  | Read => inl ReadOnly
  | _ =>
      if m_pos e =? m_fileSize e
      then appendLoop (S (S (length s))) e img s
      else inl NotModelled
  end.

(** Modelled from the spec: [flush], "force the ciphered stream to flush to
    the host.  Idempotent."  Every block operation flushes its own stream, so
    nothing is pending. *)
Definition flush (e : t) (img : Host.image) : t * Host.image := (e, img).

(** Modelled from the spec: [read]: "for each block in turn, read
    [min(remaining, P - extraOffset)] bytes from it, zero [extraOffset] after
    the first block, advance [pos]". *)
Fixpoint readLoop (rounds : nat) (e : t) (img : Host.image) (remaining : Z)
         (acc : list byte) : t * list byte :=
  match rounds with
  | O => (e, acc)
  | S rounds' =>
      if remaining <=? 0 then (e, acc)
      else
        match nth_error (m_fileBlocks e) (m_blockIndex e) with
        | None => (e, acc)
        | Some blk =>
            let o := FileBlock.m_extraOffset blk in
            let c := Z.min remaining (payloadCapacity - o) in
            let '(_, _, bytes, _) :=
              FileBlock.read blk img (repeat x00 (Z.to_nat c)) c in
            let j := if c <? remaining then S (m_blockIndex e) else m_blockIndex e in
            let blocks :=
              if c <? remaining then
                match nth_error (m_fileBlocks e) j with
                | Some nxt =>
                    replaceAt (m_fileBlocks e) j (FileBlock.setExtraOffset nxt 0)
                | None => m_fileBlocks e
                end
              else
                replaceAt (m_fileBlocks e) j (FileBlock.setExtraOffset blk (o + c)) in
            let e := mk (m_totalBlocks e) (m_fileSize e) blocks (m_startVolumeBlock e)
                        j (m_openDisposition e) (m_pos e + c) in
            readLoop rounds' e img (remaining - c) (acc ++ bytes)
        end
  end.

(** "[read(buf, n)] returns [min(n, fileSize - pos)] bytes". *)
Definition read (e : t) (img : Host.image) (n : Z) : t * list byte :=
  let count := Z.min n (m_fileSize e - m_pos e) in
  readLoop (length (m_fileBlocks e)) e img count [].

(** Scenario 1 of the spec and [testBigWriteFollowedByRead]: write to a new
    entry, flush, reopen by the start block and read [fileSize] bytes. *)
Definition writeThenReadBack (img : Host.image) (totalBlocks : Z) (s : list byte)
  : result (list byte) :=
  ' (e, img) <- create img totalBlocks ;;
  ' (e, img) <- write e img s ;;
  let '(e, img) := flush e img in
  e' <- open img totalBlocks (getStartVolumeBlockIndex e) Read ;;
  let '(_, bytes) := read e' img (fileSize e') in
  ret bytes.

(** A run of appends on a new entry, closed by a flush. *)
Fixpoint writeAll (e : t) (img : Host.image) (ws : list (list byte))
  : result (t * Host.image) :=
  match ws with
  | [] => ret (e, img)
  | s :: ws' => ' (e, img) <- write e img s ;; writeAll e img ws'
  end.

Definition createWriteAllFlush (img : Host.image) (totalBlocks : Z)
           (ws : list (list byte)) : result (t * Host.image) :=
  ' (e, img) <- create img totalBlocks ;;
  ' (e, img) <- writeAll e img ws ;;
  ret (flush e img).

(** Further runs of appends, each on the entry re-opened for appending on the
    start block and closed by a flush (scenarios 4 and 5 of the spec). *)
Fixpoint reopenAndAppend (e : t) (img : Host.image) (runs : list (list (list byte)))
  : result (t * Host.image) :=
  match runs with
  | [] => ret (e, img)
  | ws :: runs' =>
      e <- open img (m_totalBlocks e) (getStartVolumeBlockIndex e) Append ;;
      ' (e, img) <- writeAll e img ws ;;
      let '(e, img) := flush e img in
      reopenAndAppend e img runs'
  end.

Definition appendRuns (img : Host.image) (totalBlocks : Z)
           (ws : list (list byte)) (runs : list (list (list byte)))
  : result (t * Host.image) :=
  ' (e, img) <- createWriteAllFlush img totalBlocks ws ;;
  reopenAndAppend e img runs.

End WithGeometry.
End FileEntry.

(* ------------------------------------------------------------------------- *)
(** ** Byte transformers ([NullByteTransformer.cpp]) *)

Module Cipher.

(** [out[i] = v] on a buffer; an index outside the buffer stores nothing. *)
Fixpoint store (out : list byte) (i : nat) (v : byte) : list byte :=
  match out, i with
  | [], _ => []
  | _ :: rest, O => v :: rest
  | b :: rest, S j => b :: store rest j v
  end.

(** [vector<char>::resize(n)] on an empty vector. *)
Definition zeros (n : Z) : list byte := repeat x00 (Z.to_nat n).

(** The variant hooks of [IByteTransformer]: [doEncrypt(in, out,
    startPosition, length)] and [doDecrypt], which fill the first [length]
    octets of [out] and return it. *)
Class IByteTransformer := {
  doEncrypt : list byte -> list byte -> Z -> Z -> list byte;
  doDecrypt : list byte -> list byte -> Z -> Z -> list byte
}.

(** Modelled from the spec: [IByteTransformer::encrypt] and [::decrypt]
    ([IByteTransformer.cpp] is not among the sources) are the capabilities
    "[encrypt(in, out, offset, n)]" and "[decrypt(in, out, offset, n)]"; they
    hand over to the hooks of the variant. *)
Definition encrypt {T : IByteTransformer} (inb out : list byte)
           (startPosition len : Z) : list byte :=
  doEncrypt inb out startPosition len.

Definition decrypt {T : IByteTransformer} (inb out : list byte)
           (startPosition len : Z) : list byte :=
  doDecrypt inb out startPosition len.

(** [for(long i(0); i < length; ++i) { out[i] = in[i]; }] with [count] rounds
    left and the loop variable at [i]. *)
Fixpoint copyLoop (count i : nat) (inb out : list byte) : list byte :=
  match count with
  | O => out
  | S count' => copyLoop count' (S i) inb (store out i (nth i inb x00))
  end.

Definition NullByteTransformer_doEncrypt
           (inb out : list byte) (startPosition len : Z) : list byte :=
  copyLoop (Z.to_nat len) 0 inb out.

Definition NullByteTransformer_doDecrypt
           (inb out : list byte) (startPosition len : Z) : list byte :=
  copyLoop (Z.to_nat len) 0 inb out.

#[export] Instance NullByteTransformer : IByteTransformer := {|
  doEncrypt := NullByteTransformer_doEncrypt;
  doDecrypt := NullByteTransformer_doDecrypt
|}.


Definition contract (T : IByteTransformer) : Prop :=
  forall (x : list byte) (o n : Z),
    n = Z.of_nat (length x) ->
    decrypt (encrypt x (zeros n) o n) (zeros n) o n = x.

End Cipher.

(* ------------------------------------------------------------------------- *)
(** ** The ciphered image stream ([ContainerImageStream.cpp]) *)

Module ContainerImageStream.
Section WithTransformer.
Context {T : Cipher.IByteTransformer}.

Record t := mk {
  m_stream : Host.fstream;
  m_gpos : Z;
  m_ppos : Z
}.

(** The constructor, over the image at [io->path] and a host that will fail
    as [sched] says. *)
Definition new (img : Host.image) (sched : list bool) : t :=
  mk (Host.open img sched) 0 0.

(** [read(buf, n)]: the stream after the call and the caller's buffer. *)
Definition read (s : t) (buf : list byte) (n : Z) : t * list byte :=
  let start := m_gpos s in
  let inb := Cipher.zeros n in
  let '(stream, inb) := Host.read (m_stream s) inb n in
  if Host.bad stream then
    (mk stream (-1) (m_ppos s), buf)
  else
    let gpos := m_gpos s + n in
    (mk stream gpos (m_ppos s), Cipher.decrypt inb buf start n).

(** [write(buf, n)]; [buf] points at [n] readable octets. *)
Definition write (s : t) (buf : list byte) (n : Z) : t :=
  let out := Cipher.zeros n in
  let start := m_ppos s in
  let out := Cipher.encrypt (firstn (Z.to_nat n) buf) out start n in
  let stream := Host.write (m_stream s) out n in
  if Host.bad stream then
    mk stream (m_gpos s) (-1)
  else
    mk stream (m_gpos s) (m_ppos s + n).

(** [seekg(pos)] and [seekp(pos)], the absolute seeks. *)
Definition seekg (s : t) (pos : Z) : t :=
  let stream := Host.seekg (m_stream s) pos in
  if Host.bad stream then mk stream (-1) (m_ppos s)
  else mk stream pos (m_ppos s).

Definition seekp (s : t) (pos : Z) : t :=
  let stream := Host.seekp (m_stream s) pos in
  if Host.bad stream then mk stream (m_gpos s) (-1)
  else mk stream (m_gpos s) pos.

Definition tellg (s : t) : Z := m_gpos s.
Definition tellp (s : t) : Z := m_ppos s.

Definition flush (s : t) : t :=
  mk (Host.flush (m_stream s)) (m_gpos s) (m_ppos s).

Definition bad (s : t) : bool := Host.bad (m_stream s).

Definition clear (s : t) : t :=
  mk (Host.clear (m_stream s)) (m_gpos s) (m_ppos s).

(** What [write] hands to the host: the first [n] octets of the buffer that
    [encrypt] filled for the put position. *)
Definition ciphertextOf (s : t) (buf : list byte) (n : Z) : list byte :=
  firstn (Z.to_nat n)
         (Cipher.encrypt (firstn (Z.to_nat n) buf) (Cipher.zeros n) (m_ppos s) n).

(** What the host file holds behind the stream. *)
Definition onDisk (s : t) : Host.image := Host.file (m_stream s).

End WithTransformer.
End ContainerImageStream.

(* ------------------------------------------------------------------------- *)
(** ** Chains on disk *)

Module Chain.
Section WithGeometry.
Context {G : Geometry}.

(** Two images that differ at most inside [lo, hi). *)
Definition sameOutside (lo hi : Z) (img img' : Host.image) : Prop :=
  forall a, a < lo \/ hi <= a -> img' a = img a.

(** Block [i] of the image holds the payload [d] and points to [next]. *)
Definition blockOnDisk (img : Host.image) (N i : Z) (d : list byte) (next : Z) : Prop :=
  FileBlock.diskBytesWritten img (getOffsetOfFileBlock i N) = Z.of_nat (length d) /\
  FileBlock.diskNext img (getOffsetOfFileBlock i N) = next /\
  Host.pread img (getOffsetOfFileBlock i N + FILE_BLOCK_META) (length d) = d.

(** [segment img N blocks to d]: the blocks are full, each points to the one
    after it and the last one to [to]; their payloads make up [d].  (spec 3,
    "file chain", all blocks but the last.) *)
Inductive segment (img : Host.image) (N : Z) : list Z -> Z -> list byte -> Prop :=
| segment_nil (to : Z) : segment img N [] to []
| segment_cons (i : Z) (rest : list Z) (to : Z) (d1 d2 : list byte) :
    blockOnDisk img N i d1 (hd to rest) ->
    Z.of_nat (length d1) = payloadCapacity ->
    segment img N rest to d2 ->
    segment img N (i :: rest) to (d1 ++ d2).

(** The file chain of the spec: full blocks [front] leading to the last block
    [l], which points to itself; every block lies in the image, is marked in
    the bitmap, and occurs once. *)
Record chain (img : Host.image) (N : Z) (front : list Z) (l : Z)
       (d1 d2 : list byte) : Prop := {
  chain_range : Forall (fun i => 0 <= i < N) (front ++ [l]);
  chain_used : Forall (fun i => Bitmap.isBlockInUse i N img = true) (front ++ [l]);
  chain_nodup : NoDup (front ++ [l]);
  chain_front : segment img N front l d1;
  chain_last : blockOnDisk img N l d2 l;
  chain_fill : Z.of_nat (length d2) <= payloadCapacity
}.

(** An entry positioned for a pure append on the chain it caches: the cursor
    is on the last block, which has room, and the in-memory copy of that block
    agrees with the disk. *)
Record appending (img : Host.image) (N : Z) (e : FileEntry.t)
       (front : list Z) (l : Z) (d1 d2 : list byte) : Prop := {
  app_chain : chain img N front l d1 d2;
  app_total : FileEntry.m_totalBlocks e = N;
  app_indices : map FileBlock.m_index (FileEntry.m_fileBlocks e) = front ++ [l];
  app_cursor : FileEntry.m_blockIndex e = length front;
  app_current : exists lb,
      nth_error (FileEntry.m_fileBlocks e) (length front) = Some lb /\
      FileBlock.m_offset lb = getOffsetOfFileBlock l N /\
      FileBlock.m_totalBlocks lb = N /\
      FileBlock.m_bytesWritten lb = Z.of_nat (length d2);
  app_room : Z.of_nat (length d2) < payloadCapacity;
  app_size : FileEntry.m_fileSize e = Z.of_nat (length (d1 ++ d2));
  app_pos : FileEntry.m_pos e = FileEntry.m_fileSize e;
  app_start : FileEntry.m_startVolumeBlock e = hd l front;
  app_disposition : FileEntry.m_openDisposition e <> FileEntry.Read
}.

(** Exactly one block of the chain points to itself, and it is the last. *)
Definition lastAloneSelfLoops (img : Host.image) (N : Z) (blocks : list Z) : Prop :=
  exists front l,
    blocks = front ++ [l] /\
    FileBlock.diskNext img (getOffsetOfFileBlock l N) = l /\
    Forall (fun i => FileBlock.diskNext img (getOffsetOfFileBlock i N) <> i) front.

End WithGeometry.
End Chain.

(* ------------------------------------------------------------------------- *)
(** ** The chain walks of the entry tests ([FileEntryTest.hpp]) *)

Module FileEntryTest.
Section WithGeometry.
Context {G : Geometry}.

(** The walk of [testBlocksAllocated]: the [while(nextBlock != startBlock)]
    loop, entered with the start block already checked.  [passed] tells
    whether every [ASSERT_EQUAL(true, isBlockInUse(...))] so far compared
    equal; [rounds] bounds the iterations, and [None] is a loop that is still
    running when they are used up. *)
Fixpoint blocksAllocatedLoop (rounds : nat) (img : Host.image) (blocks : Z)
         (startBlock nextBlock : Z) (passed : bool) : option bool :=
  if nextBlock =? startBlock then Some passed
  else
    match rounds with
    | O => None
    | S rounds' =>
        let startBlock := nextBlock in
        let passed := passed && Bitmap.isBlockInUse startBlock blocks img in
        let block := FileBlock.open img blocks startBlock in
        let nextBlock := FileBlock.getNextIndex block in
        blocksAllocatedLoop rounds' img blocks startBlock nextBlock passed
    end.

Definition blocksAllocatedWalk (rounds : nat) (img : Host.image) (blocks : Z)
           (startBlock : Z) : option bool :=
  let passed := Bitmap.isBlockInUse startBlock blocks img in
  let block := FileBlock.open img blocks startBlock in
  let nextBlock := FileBlock.getNextIndex block in
  blocksAllocatedLoop rounds img blocks startBlock nextBlock passed.

(** The walk of [testFileUnlink], which collects the indices of the blocks of
    the file in [blockIndices]. *)
Fixpoint blockIndicesLoop (rounds : nat) (img : Host.image) (blocks : Z)
         (startBlock nextBlock : Z) (blockIndices : list Z) : option (list Z) :=
  if nextBlock =? startBlock then Some blockIndices
  else
    match rounds with
    | O => None
    | S rounds' =>
        let startBlock := nextBlock in
        let block := FileBlock.open img blocks startBlock in
        let blockIndices := blockIndices ++ [startBlock] in
        let nextBlock := FileBlock.getNextIndex block in
        blockIndicesLoop rounds' img blocks startBlock nextBlock blockIndices
    end.

Definition blockIndicesWalk (rounds : nat) (img : Host.image) (blocks : Z)
           (startBlock : Z) : option (list Z) :=
  let blockIndices := [startBlock] in
  let block := FileBlock.open img blocks startBlock in
  let nextBlock := FileBlock.getNextIndex block in
  blockIndicesLoop rounds img blocks startBlock nextBlock blockIndices.

(** The [next] field that block [i] has on disk. *)
Definition nextOnDisk (img : Host.image) (blocks i : Z) : Z :=
  FileBlock.diskNext img (getOffsetOfFileBlock i blocks).

(** The scenario of [testBigWriteFollowedBySmallAppend] and of
    [testSmallWriteFollowedByBigAppend], on the file entry as modelled: write
    [s1] to a new entry and flush; re-open for appending on the start block,
    write [s2] and flush; re-open for reading and read [fileSize] bytes. *)
Definition writeAppendReadBack (img : Host.image) (blocks : Z) (s1 s2 : list byte)
  : FileEntry.result (Z * list byte) :=
  FileEntry.bind (FileEntry.create img blocks) (fun '(e, img) =>
  FileEntry.bind (FileEntry.write e img s1) (fun '(e, img) =>
  let '(e, img) := FileEntry.flush e img in
  let startBlock := FileEntry.getStartVolumeBlockIndex e in
  FileEntry.bind (FileEntry.open img blocks startBlock FileEntry.Append) (fun e =>
  FileEntry.bind (FileEntry.write e img s2) (fun '(e, img) =>
  let '(e, img) := FileEntry.flush e img in
  FileEntry.bind (FileEntry.open img blocks startBlock FileEntry.Read) (fun e =>
  let '(_, bytes) := FileEntry.read e img (FileEntry.fileSize e) in
  FileEntry.ret (FileEntry.fileSize e, bytes)))))).

(** The scenario of [testFileSizeReportedCorrectly] and of
    [testBlocksAllocated], on the file entry as modelled: write [s] to a new
    entry and flush; the size the entry reports, the size an entry re-opened
    on the start block reports, and the outcome of the walk over the blocks. *)
Definition writeAndInspect (img : Host.image) (blocks : Z) (s : list byte)
  : FileEntry.result (Z * Z * option bool * option (list Z)) :=
  FileEntry.bind (FileEntry.create img blocks) (fun '(e, img) =>
  FileEntry.bind (FileEntry.write e img s) (fun '(e, img) =>
  let '(e, img) := FileEntry.flush e img in
  let startBlock := FileEntry.getStartVolumeBlockIndex e in
  FileEntry.bind (FileEntry.open img blocks startBlock FileEntry.Read) (fun e' =>
  FileEntry.ret (FileEntry.fileSize e, FileEntry.fileSize e',
                 blocksAllocatedWalk (Z.to_nat blocks) img blocks startBlock,
                 blockIndicesWalk (Z.to_nat blocks) img blocks startBlock)))).

End WithGeometry.
End FileEntryTest.

(* ------------------------------------------------------------------------- *)
(** ** Sequences of requests to the ciphered stream *)

Module StreamRequests.
Section WithTransformer.
Context {T : Cipher.IByteTransformer}.

(** The calls a user of [ContainerImageStream] makes, to speak of every
    sequence of them. *)
Inductive request :=
| Read (buf : list byte) (n : Z)
| Write (buf : list byte) (n : Z)
| Seekg (pos : Z)
| Seekp (pos : Z)
| Flush.

Definition serve (s : ContainerImageStream.t) (r : request) : ContainerImageStream.t :=
  match r with
  | Read buf n => fst (ContainerImageStream.read s buf n)
  | Write buf n => ContainerImageStream.write s buf n
  | Seekg pos => ContainerImageStream.seekg s pos
  | Seekp pos => ContainerImageStream.seekp s pos
  | Flush => ContainerImageStream.flush s
  end.

Definition serveAll (s : ContainerImageStream.t) (rs : list request)
  : ContainerImageStream.t :=
  fold_left serve rs s.

End WithTransformer.
End StreamRequests.

(* ------------------------------------------------------------------------- *)
(** ** A positional transformer *)

Module PositionalCipher.





End PositionalCipher.

(* ------------------------------------------------------------------------- *)
(** * Properties *)

(** Split a conjunction into its parts, and nothing else. *)
Ltac split_ands := repeat match goal with |- _ /\ _ => split end.

(** Run the operations of a stream opened on a host that never fails. *)
Ltac run_stream :=
  cbv [Host.close Host.open Host.flush Host.seekg Host.seekp Host.read Host.write
       Host.step Host.badbit Host.faults Host.next_fault Host.file Host.cursor
       Host.bad tl].

(** ** Octets and the integer codec *)

Module BytesFacts.
Import Bytes.

Lemma Z_of_byte_of_Z (z : Z) : Z_of_byte (byte_of_Z z) = z mod 256.
Proof.
  unfold byte_of_Z, Z_of_byte.
  change 255 with (Z.ones 8). rewrite Z.land_ones by lia.
  change (2 ^ 8) with 256.
  pose proof (Z.mod_pos_bound z 256 ltac:(lia)) as Hb.
  destruct (Byte.of_N (Z.to_N (z mod 256))) as [b|] eqn:E.
  - apply Byte.to_of_N in E. rewrite E. lia.
  - apply Byte.of_N_None_iff in E. lia.
Qed.

(** Gluing an octet below a shifted number is addition: no bit overlaps. *)
Lemma lor_shiftl_8 (lo hi : Z) :
  0 <= lo < 256 -> Z.lor lo (Z.shiftl hi 8) = lo + 256 * hi.
Proof.
  intros Hlo.
  pose proof (Z.add_lor_land lo (Z.shiftl hi 8)) as Hsum.
  assert (Hz : Z.land lo (Z.shiftl hi 8) = 0).
  { apply Z.bits_inj'. intros n Hn.
    rewrite Z.land_spec, Z.bits_0.
    destruct (Z.ltb_spec n 8).
    - rewrite (Z.shiftl_spec_low hi 8 n) by lia. apply andb_false_r.
    - assert (Z.testbit lo n = false) as ->; [|reflexivity].
      destruct (Z.eq_dec lo 0) as [->|Hne]; [apply Z.bits_0|].
      apply Z.bits_above_log2; [lia|].
      apply Z.log2_lt_pow2; [lia|].
      apply Z.lt_le_trans with (2 ^ 8); [change (2 ^ 8) with 256; lia|].
      apply Z.pow_le_mono_r; lia. }
  rewrite Hz, Z.shiftl_mul_pow2 in Hsum by lia.
  rewrite Z.shiftl_mul_pow2 by lia. change (2 ^ 8) with 256 in *. lia.
Qed.

Lemma length_le_encode (w : nat) (v : Z) : length (le_encode w v) = w.
Proof. revert v. induction w; intros; simpl; auto. Qed.

Lemma le_decode_encode (w : nat) (v : Z) :
  le_decode (le_encode w v) = v mod 2 ^ (8 * Z.of_nat w).
Proof.
  revert v. induction w as [|w IH]; intros v.
  - simpl. rewrite Z.mod_1_r. reflexivity.
  - cbn [le_encode le_decode].
    rewrite IH, Z_of_byte_of_Z.
    change 255 with (Z.ones 8). rewrite Z.land_ones by lia.
    change (2 ^ 8) with 256. rewrite Z.mod_mod by lia.
    rewrite lor_shiftl_8 by (apply Z.mod_pos_bound; lia).
    rewrite Z.shiftr_div_pow2 by lia. change (2 ^ 8) with 256.
    replace (8 * Z.of_nat (S w)) with (8 + 8 * Z.of_nat w) by lia.
    rewrite Z.pow_add_r by lia. change (2 ^ 8) with 256.
    rewrite (Z.rem_mul_r v 256 (2 ^ (8 * Z.of_nat w))) by lia.
    reflexivity.
Qed.

Lemma int32_roundtrip (v : Z) :
  convertInt4ArrayToInt32 (convertInt32ToInt4Array v) = wrap32 v.
Proof.
  unfold convertInt4ArrayToInt32, convertInt32ToInt4Array, wrap32.
  rewrite firstn_all2 by (rewrite length_le_encode; lia).
  apply (le_decode_encode 4).
Qed.

Lemma int64_roundtrip (v : Z) :
  convertInt8ArrayToInt64 (convertUInt64ToInt8Array v) = wrap64 v.
Proof.
  unfold convertInt8ArrayToInt64, convertUInt64ToInt8Array, wrap64.
  rewrite firstn_all2 by (rewrite length_le_encode; lia).
  apply (le_decode_encode 8).
Qed.

End BytesFacts.

(** ** The image store *)

Module HostFacts.
Import Host.

Lemma pwrite_inside (img : image) (pos : Z) (bs : list byte) (a : Z) :
  pos <= a < pos + Z.of_nat (length bs) ->
  pwrite img pos bs a = nth (Z.to_nat (a - pos)) bs x00.
Proof.
  intros H. unfold pwrite.
  destruct (Z.leb_spec pos a); destruct (Z.ltb_spec a (pos + Z.of_nat (length bs)));
    simpl; try lia; reflexivity.
Qed.

Lemma pwrite_outside (img : image) (pos : Z) (bs : list byte) (a : Z) :
  a < pos \/ pos + Z.of_nat (length bs) <= a ->
  pwrite img pos bs a = img a.
Proof.
  intros H. unfold pwrite.
  destruct (Z.leb_spec pos a); destruct (Z.ltb_spec a (pos + Z.of_nat (length bs)));
    simpl; try lia; reflexivity.
Qed.

Lemma length_pread (img : image) (pos : Z) (n : nat) :
  length (pread img pos n) = n.
Proof. unfold pread. rewrite length_map, length_seq. reflexivity. Qed.

Lemma pread_ext (img img' : image) (pos : Z) (n : nat) :
  (forall a, pos <= a < pos + Z.of_nat n -> img' a = img a) ->
  pread img' pos n = pread img pos n.
Proof.
  intros H. unfold pread. apply map_ext_in.
  intros i Hi. apply in_seq in Hi. apply H. lia.
Qed.

Lemma pread_S (img : image) (pos : Z) (n : nat) :
  pread img pos (S n) = img pos :: pread img (pos + 1) n.
Proof.
  unfold pread. cbn [seq map]. rewrite Z.add_0_r. f_equal.
  rewrite <- seq_shift, map_map. apply map_ext.
  intros i. f_equal. lia.
Qed.

Lemma pread_app (img : image) (pos : Z) (n m : nat) :
  pread img pos (n + m) = pread img pos n ++ pread img (pos + Z.of_nat n) m.
Proof.
  revert pos. induction n as [|n IH]; intros pos.
  - simpl. rewrite Z.add_0_r. reflexivity.
  - cbn [Nat.add]. rewrite !pread_S, IH. cbn [app].
    replace (pos + Z.of_nat (S n)) with (pos + 1 + Z.of_nat n) by lia.
    reflexivity.
Qed.

Lemma nth_pread (img : image) (pos : Z) (n i : nat) (d : byte) :
  (i < n)%nat -> nth i (pread img pos n) d = img (pos + Z.of_nat i).
Proof.
  revert pos i. induction n as [|n IH]; intros pos i Hi; [lia|].
  rewrite pread_S. destruct i as [|i].
  - simpl. rewrite Z.add_0_r. reflexivity.
  - cbn [nth]. rewrite IH by lia. f_equal. lia.
Qed.

Lemma pread_pwrite_same (img : image) (pos : Z) (bs : list byte) :
  pread (pwrite img pos bs) pos (length bs) = bs.
Proof.
  apply nth_ext with (d := x00) (d' := x00).
  - apply length_pread.
  - intros i Hi. rewrite length_pread in Hi.
    rewrite nth_pread by exact Hi.
    rewrite pwrite_inside by lia.
    f_equal. lia.
Qed.

Lemma pread_pwrite_disjoint (img : image) (pos : Z) (bs : list byte)
      (pos' : Z) (n : nat) :
  pos' + Z.of_nat n <= pos \/ pos + Z.of_nat (length bs) <= pos' ->
  pread (pwrite img pos bs) pos' n = pread img pos' n.
Proof.
  intros H. apply pread_ext. intros a Ha. apply pwrite_outside. lia.
Qed.

End HostFacts.

(** ** Geometry *)

Section LayoutFacts.
Context {G : Geometry}.

Lemma payloadCapacity_range : 0 < payloadCapacity < 2 ^ 32.
Proof.
  unfold payloadCapacity, FILE_BLOCK_META.
  pose proof FILE_BLOCK_SIZE_range. lia.
Qed.

Lemma HDR_covers_bitmap (N : Z) :
  0 <= N -> bitmapOffset + bitmapBytes N <= HDR N.
Proof.
  intros HN. unfold HDR.
  pose proof FILE_BLOCK_SIZE_range as HB.
  set (x := bitmapOffset + bitmapBytes N).
  assert (Hnz : FILE_BLOCK_SIZE <> 0) by lia.
  assert (Hpos : 0 < FILE_BLOCK_SIZE) by lia.
  pose proof (Z.div_mod (x + FILE_BLOCK_SIZE - 1) FILE_BLOCK_SIZE Hnz) as Hdm.
  pose proof (Z.mod_pos_bound (x + FILE_BLOCK_SIZE - 1) FILE_BLOCK_SIZE Hpos).
  lia.
Qed.

Lemma bitmapBytes_covers (N i : Z) :
  0 <= i < N -> 0 <= i / 8 < bitmapBytes N.
Proof.
  intros Hi. unfold bitmapBytes. split.
  - apply Z.div_pos; lia.
  - apply Z.div_lt_upper_bound; [lia|].
    pose proof (Z.div_mod (N + 7) 8 ltac:(lia)).
    pose proof (Z.mod_pos_bound (N + 7) 8 ltac:(lia)). lia.
Qed.

Lemma getOffsetOfFileBlock_exact (N i : Z) :
  image_fits N -> 0 <= i < N ->
  getOffsetOfFileBlock i N = HDR N + i * FILE_BLOCK_SIZE.
Proof.
  intros [HN Hfit] Hi. unfold getOffsetOfFileBlock, Bytes.wrap64.
  pose proof FILE_BLOCK_SIZE_range as HB.
  pose proof (HDR_covers_bitmap N HN) as Hh. unfold bitmapOffset in Hh.
  assert (0 <= bitmapBytes N) by (unfold bitmapBytes; apply Z.div_pos; lia).
  apply Z.mod_small. nia.
Qed.

End LayoutFacts.

(** ** Streams on a host that never fails, and sticky failure *)

Module StreamFacts.
Import Host.

(** A stream that is good after an operation was good before it, and the
    operation took place. *)
Lemma step_good_inv (s : fstream) (ok : image -> Z -> image * Z) :
  badbit (step s ok) = false ->
  badbit s = false /\
  step s ok = mkStream (fst (ok (file s) (cursor s)))
                       (snd (ok (file s) (cursor s))) false (tl (faults s)).
Proof.
  unfold step. destruct (badbit s) eqn:Hb.
  - intros H. congruence.
  - destruct (next_fault s); [discriminate|].
    destruct (ok (file s) (cursor s)); intros _; split; reflexivity.
Qed.

End StreamFacts.

(** ** The null transformer *)

Module CipherFacts.
Import Cipher.


Lemma store_split (pre post : list byte) (old v : byte) :
  store (pre ++ old :: post) (length pre) v = pre ++ v :: post.
Proof.
  induction pre as [|p pre IH]; simpl; [reflexivity|].
  rewrite IH. reflexivity.
Qed.

(** The loop copies a window: with [done] octets already in place it puts the
    next [count] octets of [in] over those of [out]. *)
Lemma copyLoop_window (count : nat) :
  forall (done mid rest inb : list byte),
    length mid = count ->
    (length done + count <= length inb)%nat ->
    copyLoop count (length done) inb (done ++ mid ++ rest) =
    done ++ firstn count (skipn (length done) inb) ++ rest.
Proof.
  induction count as [|count IH]; intros done mid rest inb Hmid Hin.
  - destruct mid; [|discriminate]. reflexivity.
  - destruct mid as [|m mid]; [discriminate|].
    cbn [copyLoop app].
    rewrite store_split.
    assert (Hsk : skipn (length done) inb =
                  nth (length done) inb x00 :: skipn (S (length done)) inb).
    { clear -Hin. revert inb Hin. induction done as [|d done IHd]; intros inb Hin.
      - destruct inb; simpl in *; [lia|reflexivity].
      - destruct inb as [|i0 inb]; simpl in *; [lia|]. apply IHd. lia. }
    rewrite Hsk. cbn [firstn].
    specialize (IH (done ++ [nth (length done) inb x00]) mid rest inb).
    rewrite length_app in IH. cbn [length] in IH.
    replace (length done + 1)%nat with (S (length done)) in IH by lia.
    rewrite <- !app_assoc in IH. cbn [app] in IH.
    apply IH; simpl in *; lia.
Qed.

Lemma copyLoop_whole (x out : list byte) :
  length out = length x ->
  copyLoop (length x) 0 x out = x.
Proof.
  intros Hlen.
  pose proof (copyLoop_window (length x) [] out [] x Hlen) as H.
  cbn [length app Nat.add skipn] in H.
  rewrite firstn_all, !app_nil_r in H. apply H. lia.
Qed.


Lemma length_zeros (n : Z) : length (zeros n) = Z.to_nat n.
Proof. unfold zeros. apply repeat_length. Qed.


Lemma Null_encrypt_whole (x : list byte) (o n : Z) :
  n = Z.of_nat (length x) ->
  encrypt x (zeros n) o n = x.
Proof.
  intros ->. unfold encrypt. cbn [doEncrypt NullByteTransformer].
  unfold NullByteTransformer_doEncrypt. rewrite Nat2Z.id.
  apply copyLoop_whole. rewrite length_zeros. lia.
Qed.

Lemma Null_decrypt_whole (x : list byte) (o n : Z) :
  n = Z.of_nat (length x) ->
  decrypt x (zeros n) o n = x.
Proof.
  intros ->. unfold decrypt. cbn [doDecrypt NullByteTransformer].
  unfold NullByteTransformer_doDecrypt. rewrite Nat2Z.id.
  apply copyLoop_whole. rewrite length_zeros. lia.
Qed.

Lemma Null_contract : contract NullByteTransformer.
Proof.
  intros x o n Hn.
  rewrite (Null_encrypt_whole x o n Hn). apply Null_decrypt_whole. exact Hn.
Qed.

Lemma copyLoop_prefix (count : nat) (x out : list byte) :
  length out = count -> (count <= length x)%nat ->
  copyLoop count 0 x out = firstn count x.
Proof.
  intros Hout Hx.
  pose proof (copyLoop_window count [] out [] x Hout) as H.
  cbn [length app Nat.add skipn] in H. rewrite !app_nil_r in H.
  apply H. exact Hx.
Qed.

(** C6.  The null byte transformer honours the contract of the byte
    transformers, [decrypt(encrypt(x, o, n), o, n) == x]: for every buffer
    [x], every offset [o] and every length [n] within the buffer, decrypting
    at [o] what [doEncrypt] produced at [o] gives the [n] octets of [x] back,
    which is [x] itself when [n] is its length. *)
Theorem null_transformer_roundtrip (x : list byte) (o n : Z) :
  n <= Z.of_nat (length x) ->
  decrypt (T := NullByteTransformer)
          (encrypt (T := NullByteTransformer) x (zeros n) o n) (zeros n) o n
  = firstn (Z.to_nat n) x /\
  (n = Z.of_nat (length x) ->
   decrypt (T := NullByteTransformer)
           (encrypt (T := NullByteTransformer) x (zeros n) o n) (zeros n) o n = x).
Proof.
  intros Hn.
  assert (Hround : decrypt (T := NullByteTransformer)
                     (encrypt (T := NullByteTransformer) x (zeros n) o n) (zeros n) o n
                   = firstn (Z.to_nat n) x).
  { unfold decrypt, encrypt. cbn [doEncrypt doDecrypt NullByteTransformer].
    unfold NullByteTransformer_doEncrypt, NullByteTransformer_doDecrypt.
    rewrite (copyLoop_prefix (Z.to_nat n) x (zeros n)) by (rewrite ?length_zeros; lia).
    rewrite copyLoop_prefix.
    - rewrite firstn_firstn, Nat.min_id. reflexivity.
    - apply length_zeros.
    - rewrite length_firstn. lia. }
  split; [exact Hround|].
  intros ->. rewrite Hround, Nat2Z.id. apply firstn_all.
Qed.

Lemma null_transformer_roundtrip_witness :
  decrypt (T := NullByteTransformer)
          (encrypt (T := NullByteTransformer)
                   ["T"; "e"; "a"]%byte (zeros 3) 1024 3) (zeros 3) 1024 3
  = ["T"; "e"; "a"]%byte.
Proof.
  apply (null_transformer_roundtrip ["T"; "e"; "a"]%byte 1024 3); [cbn; lia|reflexivity].
Defined.

End CipherFacts.

(** ** The positional transformer honours the contract *)

Module PositionalCipherFacts.
Import Cipher PositionalCipher.









End PositionalCipherFacts.

(** ** The ciphered image stream *)

Module ContainerImageStreamFacts.
Import ContainerImageStream.
Section WithTransformer.
Context {T : Cipher.IByteTransformer}.

Lemma m_stream_write (s : t) (buf : list byte) (n : Z) :
  m_stream (write s buf n) =
  Host.write (m_stream s)
             (Cipher.encrypt (firstn (Z.to_nat n) buf) (Cipher.zeros n) (m_ppos s) n) n.
Proof.
  unfold write.
  destruct (Host.bad (Host.write _ _ _)); reflexivity.
Qed.


Lemma write_good (s : t) (buf : list byte) (n : Z) :
  bad (write s buf n) = false ->
  bad s = false /\
  onDisk (write s buf n) =
    Host.pwrite (onDisk s) (Host.cursor (m_stream s)) (ciphertextOf s buf n) /\
  Host.cursor (m_stream (write s buf n)) =
    Host.cursor (m_stream s) + Z.of_nat (length (ciphertextOf s buf n)) /\
  m_ppos (write s buf n) = m_ppos s + n /\
  m_gpos (write s buf n) = m_gpos s.
Proof.
  unfold bad, onDisk, Host.bad. rewrite m_stream_write.
  intros Hgood. unfold Host.write in *.
  apply StreamFacts.step_good_inv in Hgood as [Hb Hstep].
  split; [exact Hb|].
  unfold write, Host.write. rewrite Hstep. cbn.
  repeat split; reflexivity.
Qed.




(** C7.  For every read or write of [n] bytes through the stream: when the
    host fails (the host stream is bad after the transfer) the position of
    that side, [gpos] for a read and [ppos] for a write, is [-1] and has not
    been advanced; when it succeeds the position is the old one plus [n].
    The position of the other side is not touched. *)
Theorem position_after_transfer (s : t) (buf : list byte) (n : Z) :
  (bad (fst (read s buf n)) = true -> m_gpos (fst (read s buf n)) = -1) /\
  (bad (fst (read s buf n)) = false -> m_gpos (fst (read s buf n)) = m_gpos s + n) /\
  m_ppos (fst (read s buf n)) = m_ppos s /\
  (bad (write s buf n) = true -> m_ppos (write s buf n) = -1) /\
  (bad (write s buf n) = false -> m_ppos (write s buf n) = m_ppos s + n) /\
  m_gpos (write s buf n) = m_gpos s.
Proof.
  unfold bad, read, write.
  destruct (Host.read (m_stream s) (Cipher.zeros n) n) as [rs inb].
  destruct (Host.bad rs) eqn:Er; cbn [fst m_stream m_gpos m_ppos];
    destruct (Host.bad (Host.write _ _ _)) eqn:Ew; cbn [m_stream m_gpos m_ppos];
    rewrite ?Er, ?Ew; repeat split; intros; congruence.
Qed.

End WithTransformer.


Lemma position_after_transfer_witness :
  m_gpos (fst (read (T := Cipher.NullByteTransformer)
                    (new Host.blank [true]) [] 4)) = -1 /\
  m_ppos (write (T := Cipher.NullByteTransformer)
                (new Host.blank []) ["b"; "f"; "s"]%byte 3) = 0 + 3.
Proof.
  split.
  - apply (position_after_transfer (T := Cipher.NullByteTransformer)
             (new Host.blank [true]) [] 4). reflexivity.
  - apply (position_after_transfer (T := Cipher.NullByteTransformer)
             (new Host.blank []) ["b"; "f"; "s"]%byte 3). reflexivity.
Defined.



End ContainerImageStreamFacts.

(** ** The volume bitmap *)

Module BitmapFacts.
Import Bitmap.

Lemma isBlockInUse_ext (img img' : Host.image) (N j : Z) :
  img' (bitmapOffset + j / 8) = img (bitmapOffset + j / 8) ->
  isBlockInUse j N img' = isBlockInUse j N img.
Proof. intros H. unfold isBlockInUse. rewrite H. reflexivity. Qed.

Lemma markUsed_eq (img : Host.image) (i N : Z) :
  markUsed img i N =
  Host.pwrite img (bitmapOffset + i / 8)
    [Bytes.byte_of_Z (Z.lor (Bytes.Z_of_byte (img (bitmapOffset + i / 8)))
                            (Z.shiftl 1 (i mod 8)))].
Proof.
  unfold markUsed, updateVolumeBitmapWithOne. run_stream.
  change (Z.to_nat 1) with 1%nat.
  cbn [Host.pread seq map app skipn hd firstn Z.of_nat].
  rewrite Z.add_0_r. reflexivity.
Qed.

Lemma testbit_byte_of_Z (z k : Z) :
  0 <= k < 8 ->
  Z.testbit (Bytes.Z_of_byte (Bytes.byte_of_Z z)) k = Z.testbit z k.
Proof.
  intros Hk. rewrite BytesFacts.Z_of_byte_of_Z.
  change 256 with (2 ^ 8). apply Z.mod_pow2_bits_low. lia.
Qed.

Lemma markUsed_same (img : Host.image) (i N : Z) :
  isBlockInUse i N (markUsed img i N) = true.
Proof.
  rewrite markUsed_eq. unfold isBlockInUse.
  rewrite HostFacts.pwrite_inside by (cbn [length]; lia).
  replace (Z.to_nat (bitmapOffset + i / 8 - (bitmapOffset + i / 8))) with O by lia.
  cbn [nth].
  assert (Hm : 0 <= i mod 8 < 8) by (apply Z.mod_pos_bound; lia).
  rewrite testbit_byte_of_Z by exact Hm.
  rewrite Z.lor_spec, Z.shiftl_spec by lia.
  rewrite Z.sub_diag. apply orb_true_r.
Qed.

Lemma markUsed_other (img : Host.image) (i j N : Z) :
  i <> j ->
  isBlockInUse j N (markUsed img i N) = isBlockInUse j N img.
Proof.
  intros Hij. rewrite markUsed_eq. unfold isBlockInUse.
  destruct (Z.eq_dec (i / 8) (j / 8)) as [Hq|Hq].
  - rewrite <- Hq.
    rewrite HostFacts.pwrite_inside by (cbn [length]; lia).
    replace (Z.to_nat (bitmapOffset + i / 8 - (bitmapOffset + i / 8))) with O by lia.
    cbn [nth].
    assert (Hmi : 0 <= i mod 8 < 8) by (apply Z.mod_pos_bound; lia).
    assert (Hmj : 0 <= j mod 8 < 8) by (apply Z.mod_pos_bound; lia).
    rewrite testbit_byte_of_Z by exact Hmj.
    rewrite Z.lor_spec, Z.shiftl_spec by lia.
    assert (Hne : i mod 8 <> j mod 8).
    { intros Hm. apply Hij.
      rewrite (Z.div_mod i 8), (Z.div_mod j 8) by lia. rewrite Hq, Hm. reflexivity. }
    assert (Z.testbit 1 (j mod 8 - i mod 8) = false) as ->.
    { destruct (Z.ltb_spec (j mod 8 - i mod 8) 0).
      - apply Z.testbit_neg_r. assumption.
      - apply Z.bits_above_log2; simpl; lia. }
    apply orb_false_r.
  - rewrite HostFacts.pwrite_outside by (cbn [length]; lia). reflexivity.
Qed.

(** Outside the octet of the bit nothing changes. *)
Lemma markUsed_elsewhere (img : Host.image) (i N a : Z) :
  a <> bitmapOffset + i / 8 -> markUsed img i N a = img a.
Proof.
  intros Ha. rewrite markUsed_eq.
  apply HostFacts.pwrite_outside. cbn [length]. lia.
Qed.

Lemma blockIndices_spec (N i : Z) : In i (blockIndices N) <-> 0 <= i < N.
Proof.
  unfold blockIndices. rewrite in_map_iff. split.
  - intros (k & <- & Hk). apply in_seq in Hk. lia.
  - intros Hi. exists (Z.to_nat i). split; [lia|]. apply in_seq. lia.
Qed.

Lemma NoDup_blockIndices (N : Z) : NoDup (blockIndices N).
Proof.
  unfold blockIndices.
  induction (seq_NoDup (Z.to_nat N) 0) as [|k l Hnotin Hnd IH]; [constructor|].
  cbn [map]. constructor; [|exact IH].
  rewrite in_map_iff. intros (k' & Heq & Hin).
  apply Nat2Z.inj in Heq. subst k'. contradiction.
Qed.

Lemma firstFree_Some (img : Host.image) (N k : Z) :
  firstFree img N = Some k -> 0 <= k < N /\ isBlockInUse k N img = false.
Proof.
  unfold firstFree. intros H. apply find_some in H as [Hin Hfree].
  apply blockIndices_spec in Hin. split; [exact Hin|].
  destruct (isBlockInUse k N img); [discriminate|reflexivity].
Qed.

Lemma firstFree_None (img : Host.image) (N : Z) :
  firstFree img N = None -> countFree img N = O.
Proof.
  unfold firstFree, countFree. intros H.
  induction (blockIndices N) as [|i l IH]; [reflexivity|].
  cbn [find filter] in *.
  destruct (negb (isBlockInUse i N img)); [discriminate|]. apply IH, H.
Qed.

(** Marking a free block of the image takes exactly one block from the free
    ones. *)
Lemma countFree_markUsed (img : Host.image) (N k : Z) :
  0 <= k < N -> isBlockInUse k N img = false ->
  S (countFree (markUsed img k N) N) = countFree img N.
Proof.
  intros Hk Hfree. unfold countFree.
  pose proof (NoDup_blockIndices N) as Hnd.
  assert (Hin : In k (blockIndices N)) by (apply blockIndices_spec; exact Hk).
  induction (blockIndices N) as [|i l IH]; [contradiction|].
  inversion Hnd as [|? ? Hnotin Hnd']; subst.
  cbn [filter].
  destruct (Z.eq_dec i k) as [->|Hne].
  - rewrite markUsed_same, Hfree. cbn [negb length]. f_equal.
    f_equal. apply filter_ext_in. intros j Hj.
    rewrite markUsed_other; [reflexivity|]. intros ->. contradiction.
  - rewrite markUsed_other by congruence.
    destruct Hin as [Heq|Hin]; [congruence|].
    destruct (negb (isBlockInUse i N img)); cbn [length]; rewrite <- (IH Hnd' Hin);
      reflexivity.
Qed.

Lemma countFree_ext (img img' : Host.image) (N : Z) :
  (forall j, 0 <= j < N -> isBlockInUse j N img' = isBlockInUse j N img) ->
  countFree img' N = countFree img N.
Proof.
  intros H. unfold countFree. f_equal. apply filter_ext_in.
  intros j Hj. apply blockIndices_spec in Hj. rewrite H by exact Hj. reflexivity.
Qed.

Lemma count_total (img : Host.image) (N : Z) :
  0 <= N -> (countUsed img N + countFree img N)%nat = Z.to_nat N.
Proof.
  intros HN. unfold countUsed, countFree.
  replace (Z.to_nat N) with (length (blockIndices N))
    by (unfold blockIndices; rewrite length_map, length_seq; reflexivity).
  induction (blockIndices N) as [|i l IH]; [reflexivity|].
  cbn [filter]. destruct (isBlockInUse i N img); cbn [negb length]; lia.
Qed.

End BitmapFacts.

(** ** File blocks *)

Module FileBlockFacts.
Import FileBlock.
Section WithGeometry.
Context {G : Geometry}.

(** *** The operations as transformations of the image *)

Lemma new_eq (img : Host.image) (N index next : Z) :
  new img N index next =
  (mk N index 0 0 next (getOffsetOfFileBlock index N) 0,
   Host.pwrite
     (Host.pwrite img (getOffsetOfFileBlock index N) (Bytes.convertInt32ToInt4Array 0))
     (getOffsetOfFileBlock index N + 4) (Bytes.convertUInt64ToInt8Array next)).
Proof. reflexivity. Qed.

Lemma open_eq (img : Host.image) (N index : Z) :
  open img N index =
  mk N index
     (diskBytesWritten img (getOffsetOfFileBlock index N))
     (diskBytesWritten img (getOffsetOfFileBlock index N))
     (diskNext img (getOffsetOfFileBlock index N))
     (getOffsetOfFileBlock index N) 0.
Proof. reflexivity. Qed.

Lemma write_eq (b : t) (img : Host.image) (buf : list byte) (n : Z) :
  write b img buf n =
  let bytesWritten := Bytes.wrap32 (m_bytesWritten b + Bytes.wrap32 n) in
  let img1 :=
    Host.pwrite img (Bytes.wrap64 (m_offset b + FILE_BLOCK_META + m_extraOffset b))
                (firstn (Z.to_nat n) buf) in
  let img2 := Host.pwrite img1 (m_offset b) (Bytes.convertInt32ToInt4Array bytesWritten) in
  if (n <? FILE_BLOCK_SIZE - FILE_BLOCK_META) || (0 <? m_extraOffset b) then
    (mk (m_totalBlocks b) (m_index b) bytesWritten (m_initialBytesWritten b)
        (m_index b) (m_offset b) (m_extraOffset b),
     Host.pwrite img2 (m_offset b + 4) (Bytes.convertUInt64ToInt8Array (m_index b)), n)
  else
    (mk (m_totalBlocks b) (m_index b) bytesWritten (m_initialBytesWritten b)
        (m_next b) (m_offset b) (m_extraOffset b), img2, n).
Proof.
  unfold write.
  destruct ((n <? FILE_BLOCK_SIZE - FILE_BLOCK_META) || (0 <? m_extraOffset b));
    reflexivity.
Qed.

Lemma setNext_eq (b : t) (img : Host.image) (next : Z) :
  setNext b img next =
  (mk (m_totalBlocks b) (m_index b) (m_bytesWritten b) (m_initialBytesWritten b)
      next (m_offset b) (m_extraOffset b),
   Host.pwrite img (Bytes.wrap64 (m_offset b + 4)) (Bytes.convertUInt64ToInt8Array next)).
Proof. reflexivity. Qed.

Lemma read_eq (b : t) (img : Host.image) (buf : list byte) (n : Z) :
  read b img buf n =
  (b, img,
   Host.pread img (Bytes.wrap64 (m_offset b + FILE_BLOCK_META + m_extraOffset b))
              (Z.to_nat n) ++ skipn (Z.to_nat n) buf,
   n).
Proof. reflexivity. Qed.

Lemma registerBlockWithVolumeBitmap_eq (b : t) (img : Host.image) :
  registerBlockWithVolumeBitmap b img = Bitmap.markUsed img (m_index b) (m_totalBlocks b).
Proof. reflexivity. Qed.

(** *** Headers on disk *)

Lemma length_convertInt32 (v : Z) : length (Bytes.convertInt32ToInt4Array v) = 4%nat.
Proof. apply BytesFacts.length_le_encode. Qed.

Lemma length_convertUInt64 (v : Z) : length (Bytes.convertUInt64ToInt8Array v) = 8%nat.
Proof. apply BytesFacts.length_le_encode. Qed.

Lemma diskBytesWritten_written (img : Host.image) (off v : Z) :
  diskBytesWritten (Host.pwrite img off (Bytes.convertInt32ToInt4Array v)) off
  = Bytes.wrap32 v.
Proof.
  unfold diskBytesWritten.
  pose proof (HostFacts.pread_pwrite_same img off (Bytes.convertInt32ToInt4Array v)) as H.
  rewrite length_convertInt32 in H. rewrite H. apply BytesFacts.int32_roundtrip.
Qed.

Lemma diskNext_written (img : Host.image) (off v : Z) :
  diskNext (Host.pwrite img (off + 4) (Bytes.convertUInt64ToInt8Array v)) off
  = Bytes.wrap64 v.
Proof.
  unfold diskNext.
  pose proof (HostFacts.pread_pwrite_same img (off + 4) (Bytes.convertUInt64ToInt8Array v)) as H.
  rewrite length_convertUInt64 in H. rewrite H. apply BytesFacts.int64_roundtrip.
Qed.

Lemma diskBytesWritten_ext (img img' : Host.image) (off : Z) :
  (forall a, off <= a < off + 4 -> img' a = img a) ->
  diskBytesWritten img' off = diskBytesWritten img off.
Proof.
  intros H. unfold diskBytesWritten. f_equal.
  apply HostFacts.pread_ext. intros a Ha. apply H. lia.
Qed.

Lemma diskNext_ext (img img' : Host.image) (off : Z) :
  (forall a, off + 4 <= a < off + 12 -> img' a = img a) ->
  diskNext img' off = diskNext img off.
Proof.
  intros H. unfold diskNext. f_equal.
  apply HostFacts.pread_ext. intros a Ha. apply H. lia.
Qed.

Lemma wrap64_small (z : Z) : 0 <= z < 2 ^ 64 -> Bytes.wrap64 z = z.
Proof. intros H. unfold Bytes.wrap64. apply Z.mod_small. exact H. Qed.

Lemma wrap32_small (z : Z) : 0 <= z < 2 ^ 32 -> Bytes.wrap32 z = z.
Proof. intros H. unfold Bytes.wrap32. apply Z.mod_small. exact H. Qed.

Lemma placed_new (img : Host.image) (N index next : Z) :
  image_fits N -> 0 <= index < N ->
  placed (fst (new img N index next)) /\
  m_offset (fst (new img N index next)) = HDR N + index * FILE_BLOCK_SIZE.
Proof.
  intros Hfit Hi. rewrite new_eq. cbn [fst m_offset]. unfold placed.
  cbn [m_index m_offset m_extraOffset].
  rewrite (getOffsetOfFileBlock_exact N index Hfit Hi).
  destruct Hfit as [HN Hfit].
  pose proof FILE_BLOCK_SIZE_range as HB.
  pose proof (HDR_covers_bitmap N HN) as Hh. unfold bitmapOffset in Hh.
  assert (0 <= bitmapBytes N) by (unfold bitmapBytes; apply Z.div_pos; lia).
  repeat split; nia.
Qed.

(** C9.  For every 64-bit unsigned integer [v], [convertUInt64ToInt8Array]
    followed by [convertInt8ArrayToInt64] yields [v] again, so the assertion
    of the writing constructor of [FileBlock] holds for every [next]. *)
Theorem next_serialisation_roundtrip (v : Z) :
  0 <= v < 2 ^ 64 ->
  Bytes.convertInt8ArrayToInt64 (Bytes.convertUInt64ToInt8Array v) = v /\
  new_assertion v = true.
Proof.
  intros Hv.
  assert (H : Bytes.convertInt8ArrayToInt64 (Bytes.convertUInt64ToInt8Array v) = v)
    by (rewrite BytesFacts.int64_roundtrip; apply wrap64_small; exact Hv).
  split; [exact H|].
  unfold new_assertion. rewrite H. apply Z.eqb_refl.
Qed.

(** C10.  [read(buf, n)] leaves the header state of the block as it is:
    [bytesWritten], [initialBytesWritten] and [next] in memory, the header on
    disk and the block's bit in the volume bitmap are the same before and
    after the call, and the call returns [n]. *)
Theorem read_changes_nothing (b : t) (img : Host.image) (buf : list byte) (n : Z) :
  let '(b', img', _, r) := read b img buf n in
  m_bytesWritten b' = m_bytesWritten b /\
  m_initialBytesWritten b' = m_initialBytesWritten b /\
  m_next b' = m_next b /\
  diskBytesWritten img' (m_offset b) = diskBytesWritten img (m_offset b) /\
  diskNext img' (m_offset b) = diskNext img (m_offset b) /\
  Bitmap.isBlockInUse (m_index b) (m_totalBlocks b) img'
    = Bitmap.isBlockInUse (m_index b) (m_totalBlocks b) img /\
  b' = b /\ (forall a, img' a = img a) /\ r = n.
Proof.
  rewrite read_eq. repeat split; reflexivity.
Qed.

(** C3.  After [write(buf, n)]: if [n] is below the payload capacity
    [P = B - 12] or the intra-block [extraOffset] is above 0, the [next] field
    equals the block's own index, in memory and in the header on disk;
    otherwise [next] is left as it was, in memory and on disk. *)
Theorem write_next_field (b : t) (img : Host.image) (buf : list byte) (n : Z) :
  placed b -> 0 <= n ->
  let '(b', img', _) := write b img buf n in
  if (n <? payloadCapacity) || (0 <? m_extraOffset b)
  then m_next b' = m_index b /\ diskNext img' (m_offset b) = m_index b
  else m_next b' = m_next b /\ diskNext img' (m_offset b) = diskNext img (m_offset b).
Proof.
  intros (Hidx & Heo & Hoff0 & Hoff) Hn. rewrite write_eq. cbv zeta.
  unfold payloadCapacity.
  pose proof FILE_BLOCK_SIZE_range as HB.
  destruct ((n <? FILE_BLOCK_SIZE - FILE_BLOCK_META) || (0 <? m_extraOffset b)) eqn:Hc.
  - cbn [m_next]. split; [reflexivity|].
    rewrite diskNext_written. apply wrap64_small. exact Hidx.
  - cbn [m_next]. split; [reflexivity|].
    apply orb_false_iff in Hc as [Hc1 Hc2].
    apply Z.ltb_ge in Hc1, Hc2.
    apply diskNext_ext. intros a Ha.
    rewrite HostFacts.pwrite_outside by (rewrite length_convertInt32; lia).
    apply HostFacts.pwrite_outside. left.
    rewrite wrap64_small; unfold FILE_BLOCK_META in *; lia.
Qed.


(** C8, as the code has it.  The writing constructor writes a new header at
    image offset [HDR + index*B], with [bytesWritten = 0] and the given
    [next], and leaves the volume bitmap as it is; the bit of the block is set
    by [registerBlockWithVolumeBitmap], a call of its own, which leaves the
    header as it is. *)
Theorem new_writes_header (img : Host.image) (N index next : Z) :
  image_fits N -> 0 <= index < N -> 0 <= next < 2 ^ 64 ->
  let '(b, img') := new img N index next in
  m_offset b = HDR N + index * FILE_BLOCK_SIZE /\
  m_bytesWritten b = 0 /\ m_next b = next /\
  diskBytesWritten img' (HDR N + index * FILE_BLOCK_SIZE) = 0 /\
  diskNext img' (HDR N + index * FILE_BLOCK_SIZE) = next /\
  (forall j, 0 <= j < N ->
     Bitmap.isBlockInUse j N img' = Bitmap.isBlockInUse j N img) /\
  let img'' := registerBlockWithVolumeBitmap b img' in
  Bitmap.isBlockInUse index N img'' = true /\
  diskBytesWritten img'' (HDR N + index * FILE_BLOCK_SIZE) = 0 /\
  diskNext img'' (HDR N + index * FILE_BLOCK_SIZE) = next.
Proof.
  intros Hfit Hi Hnext. rewrite new_eq.
  rewrite (getOffsetOfFileBlock_exact N index Hfit Hi).
  set (off := HDR N + index * FILE_BLOCK_SIZE).
  cbn [m_offset m_bytesWritten m_next].
  destruct Hfit as [HN Hfit].
  pose proof FILE_BLOCK_SIZE_range as HB.
  pose proof (HDR_covers_bitmap N HN) as Hh.
  assert (Hoff : bitmapOffset + bitmapBytes N <= off) by (unfold off; nia).
  assert (Hbw : forall img1,
             diskBytesWritten
               (Host.pwrite (Host.pwrite img1 off (Bytes.convertInt32ToInt4Array 0))
                            (off + 4) (Bytes.convertUInt64ToInt8Array next)) off = 0).
  { intros img1.
    rewrite <- (diskBytesWritten_written img1 off 0) at 2.
    apply diskBytesWritten_ext. intros a Ha.
    apply HostFacts.pwrite_outside. left. lia. }
  assert (Hnx : forall img1,
             diskNext (Host.pwrite img1 (off + 4) (Bytes.convertUInt64ToInt8Array next)) off
             = next).
  { intros img1. rewrite diskNext_written. apply wrap64_small. exact Hnext. }
  repeat split; try reflexivity.
  - apply Hbw.
  - apply Hnx.
  - intros j Hj. apply BitmapFacts.isBlockInUse_ext.
    pose proof (bitmapBytes_covers N j Hj).
    rewrite !HostFacts.pwrite_outside;
      rewrite ?length_convertInt32, ?length_convertUInt64; try reflexivity; lia.
  - rewrite registerBlockWithVolumeBitmap_eq. cbn [m_index m_totalBlocks].
    apply BitmapFacts.markUsed_same.
  - rewrite registerBlockWithVolumeBitmap_eq. cbn [m_index m_totalBlocks].
    rewrite <- (Hbw img) at 2.
    pose proof (bitmapBytes_covers N index Hi).
    apply diskBytesWritten_ext. intros a Ha.
    apply BitmapFacts.markUsed_elsewhere. lia.
  - rewrite registerBlockWithVolumeBitmap_eq. cbn [m_index m_totalBlocks].
    rewrite <- (Hnx (Host.pwrite img off (Bytes.convertInt32ToInt4Array 0))) at 2.
    pose proof (bitmapBytes_covers N index Hi).
    apply diskNext_ext. intros a Ha.
    apply BitmapFacts.markUsed_elsewhere. lia.
Qed.

End WithGeometry.
End FileBlockFacts.

(** *** Instances on the geometry of the tests ([B = 512]) *)

Module FileBlockExamples.
Import FileBlock.
#[local] Existing Instance Geometry512.

Lemma image_fits_16 : image_fits 16.
Proof. split; [lia|vm_compute; reflexivity]. Qed.

Lemma next_serialisation_roundtrip_witness :
  Bytes.convertInt8ArrayToInt64 (Bytes.convertUInt64ToInt8Array 258) = 258 /\
  new_assertion 258 = true.
Proof. apply (FileBlockFacts.next_serialisation_roundtrip 258). lia. Defined.

(** Block 1 of a 16-block image, holding 10 octets, positioned 4 octets into
    its payload. *)
Lemma write_next_field_witness :
  let b := mk 16 1 10 10 2 1024 4 in
  let '(b', img', _) := write b Host.blank ["x"; "y"; "z"]%byte 3 in
  if (3 <? payloadCapacity) || (0 <? m_extraOffset b)
  then m_next b' = m_index b /\ diskNext img' (m_offset b) = m_index b
  else m_next b' = m_next b /\
       diskNext img' (m_offset b) = diskNext Host.blank (m_offset b).
Proof.
  apply (FileBlockFacts.write_next_field
           (mk 16 1 10 10 2 1024 4) Host.blank
           ["x"; "y"; "z"]%byte 3).
  - unfold placed. cbn. lia.
  - lia.
Defined.



Lemma new_writes_header_witness :
  let '(b, img') := new Host.blank 16 1 1 in
  m_offset b = HDR 16 + 1 * FILE_BLOCK_SIZE /\
  m_bytesWritten b = 0 /\ m_next b = 1 /\
  diskBytesWritten img' (HDR 16 + 1 * FILE_BLOCK_SIZE) = 0 /\
  diskNext img' (HDR 16 + 1 * FILE_BLOCK_SIZE) = 1 /\
  (forall j, 0 <= j < 16 ->
     Bitmap.isBlockInUse j 16 img' = Bitmap.isBlockInUse j 16 Host.blank) /\
  let img'' := registerBlockWithVolumeBitmap b img' in
  Bitmap.isBlockInUse 1 16 img'' = true /\
  diskBytesWritten img'' (HDR 16 + 1 * FILE_BLOCK_SIZE) = 0 /\
  diskNext img'' (HDR 16 + 1 * FILE_BLOCK_SIZE) = 1.
Proof.
  apply (FileBlockFacts.new_writes_header Host.blank 16 1 1).
  - exact image_fits_16.
  - lia.
  - lia.
Defined.

(** C8 as stated fails: constructing block 1 of a blank 16-block image for
    writing leaves its bit in the volume bitmap at 0. *)
Lemma new_leaves_bitmap_bit_clear :
  ~ (forall (img : Host.image) (N index next : Z),
        image_fits N -> 0 <= index < N -> 0 <= next < 2 ^ 64 ->
        Bitmap.isBlockInUse index N (snd (new img N index next))
        = true).
Proof.
  intros H.
  specialize (H Host.blank 16 1 1 image_fits_16 ltac:(lia) ltac:(lia)).
  vm_compute in H. discriminate H.
Qed.

End FileBlockExamples.

(** ** Lists updated in place *)

Module ListFacts.
Import FileEntry.

Lemma replaceAt_last {A : Type} (l : list A) (n : nat) (x : A) :
  length l = S n -> replaceAt l n x = firstn n l ++ [x].
Proof.
  intros Hlen. unfold replaceAt. f_equal.
  destruct (skipn n l) as [|y rest] eqn:Hsk.
  - assert (H : length (skipn n l) = 1%nat) by (rewrite length_skipn; lia).
    rewrite Hsk in H. discriminate H.
  - assert (H : length (skipn n l) = 1%nat) by (rewrite length_skipn; lia).
    rewrite Hsk in H. destruct rest; [reflexivity|discriminate H].
Qed.

Lemma replaceAt_snoc {A : Type} (l : list A) (y x : A) :
  replaceAt (l ++ [y]) (length l) x = l ++ [x].
Proof.
  rewrite replaceAt_last by (rewrite length_app; cbn [length]; lia).
  rewrite firstn_app, firstn_all, Nat.sub_diag. cbn [firstn].
  rewrite app_nil_r. reflexivity.
Qed.

Lemma nth_error_snoc {A : Type} (l : list A) (x : A) :
  nth_error (l ++ [x]) (length l) = Some x.
Proof.
  rewrite nth_error_app2 by lia. rewrite Nat.sub_diag. reflexivity.
Qed.

Lemma length_replaceAt {A : Type} (l : list A) (n : nat) (x : A) :
  length (replaceAt l n x) = length l.
Proof.
  unfold replaceAt. rewrite length_app.
  rewrite <- (firstn_skipn n l) at 3. rewrite length_app. f_equal.
  destruct (skipn n l); reflexivity.
Qed.

Lemma map_replaceAt {A B : Type} (f : A -> B) (l : list A) (n : nat) (x y : A) :
  nth_error l n = Some y -> f x = f y -> map f (replaceAt l n x) = map f l.
Proof.
  intros Hnth Hf. apply nth_error_split in Hnth as (l1 & l2 & -> & Hl1).
  subst n. unfold replaceAt.
  rewrite firstn_app, firstn_all, Nat.sub_diag, skipn_app, skipn_all, Nat.sub_diag.
  cbn [firstn skipn app]. rewrite app_nil_r, !map_app. cbn [map]. rewrite Hf.
  reflexivity.
Qed.

Lemma nth_error_replaceAt_same {A : Type} (l : list A) (n : nat) (x y : A) :
  nth_error l n = Some y -> nth_error (replaceAt l n x) n = Some x.
Proof.
  intros Hnth. apply nth_error_split in Hnth as (l1 & l2 & -> & Hl1).
  subst n. unfold replaceAt.
  rewrite firstn_app, firstn_all, Nat.sub_diag, skipn_app, skipn_all, Nat.sub_diag.
  cbn [firstn skipn app]. rewrite app_nil_r.
  rewrite nth_error_app2 by lia. rewrite Nat.sub_diag. reflexivity.
Qed.

Lemma replaceAt_middle {A : Type} (l1 l2 : list A) (y x : A) :
  replaceAt (l1 ++ y :: l2) (length l1) x = l1 ++ x :: l2.
Proof.
  unfold replaceAt.
  rewrite firstn_app, firstn_all, Nat.sub_diag, skipn_app, skipn_all, Nat.sub_diag.
  cbn [firstn skipn app]. rewrite app_nil_r. reflexivity.
Qed.

Lemma nth_error_app_here {A : Type} (l1 l2 : list A) (x : A) :
  nth_error (l1 ++ x :: l2) (length l1) = Some x.
Proof.
  rewrite nth_error_app2 by lia. rewrite Nat.sub_diag. reflexivity.
Qed.

Lemma hd_snoc_in {A : Type} (l : list A) (x : A) : In (hd x l) (l ++ [x]).
Proof. destruct l; cbn; auto. Qed.

Lemma NoDup_snoc {A : Type} (l : list A) (k : A) :
  NoDup l -> ~ In k l -> NoDup (l ++ [k]).
Proof.
  intros Hnd Hk. induction Hnd as [|x l Hx Hnd IH]; cbn [app].
  - constructor; [intros []|constructor].
  - constructor.
    + intros Hin. apply in_app_or in Hin as [Hin|[Heq|[]]]; [contradiction|].
      apply Hk. left. symmetry. exact Heq.
    + apply IH. intros Hin. apply Hk. right. exact Hin.
Qed.

End ListFacts.

(** ** Chains on disk *)

Module ChainFacts.
Import Chain.
Section WithImage.
Context {G : Geometry}.
Variable N : Z.
Hypothesis Hfit : image_fits N.

Local Abbreviation off i := (getOffsetOfFileBlock i N).

(** *** Where the blocks lie *)

Lemma off_exact (i : Z) : 0 <= i < N -> off i = HDR N + i * FILE_BLOCK_SIZE.
Proof. apply getOffsetOfFileBlock_exact. exact Hfit. Qed.

Lemma off_after_bitmap (i : Z) :
  0 <= i < N -> bitmapOffset + bitmapBytes N <= off i.
Proof.
  intros Hi. rewrite off_exact by exact Hi.
  destruct Hfit as [HN _].
  pose proof FILE_BLOCK_SIZE_range as HB.
  pose proof (HDR_covers_bitmap N HN). nia.
Qed.

Lemma off_addressable (i : Z) :
  0 <= i < N -> 0 <= off i /\ off i + FILE_BLOCK_SIZE <= 2 ^ 63.
Proof.
  intros Hi. pose proof (off_after_bitmap i Hi) as Hlow.
  rewrite off_exact in * by exact Hi.
  destruct Hfit as [HN Hsmall].
  pose proof FILE_BLOCK_SIZE_range as HB.
  assert (0 <= bitmapBytes N) by (unfold bitmapBytes; apply Z.div_pos; lia).
  unfold bitmapOffset in *. split; nia.
Qed.

Lemma index_small (i : Z) : 0 <= i < N -> 0 <= i < 2 ^ 64.
Proof.
  intros Hi. pose proof (off_addressable i Hi) as [_ Hhi].
  pose proof (off_after_bitmap i Hi) as Hlow.
  rewrite off_exact in * by exact Hi.
  destruct Hfit as [HN Hsmall].
  pose proof FILE_BLOCK_SIZE_range as HB.
  pose proof (HDR_covers_bitmap N HN) as Hh.
  assert (0 <= bitmapBytes N) by (unfold bitmapBytes; apply Z.div_pos; lia).
  unfold bitmapOffset in *. split; [lia|nia].
Qed.

Lemma off_disjoint (i j : Z) :
  0 <= i < N -> 0 <= j < N -> i <> j ->
  off i + FILE_BLOCK_SIZE <= off j \/ off j + FILE_BLOCK_SIZE <= off i.
Proof.
  intros Hi Hj Hne. rewrite !off_exact by assumption.
  pose proof FILE_BLOCK_SIZE_range as HB.
  destruct (Z.lt_ge_cases i j); [left|right]; nia.
Qed.

(** *** Images that agree outside a range *)

Lemma sameOutside_trans (lo hi : Z) (img1 img2 img3 : Host.image) :
  sameOutside lo hi img1 img2 -> sameOutside lo hi img2 img3 ->
  sameOutside lo hi img1 img3.
Proof. intros H12 H23 a Ha. rewrite H23, H12 by exact Ha. reflexivity. Qed.

Lemma sameOutside_pwrite (lo hi : Z) (img : Host.image) (pos : Z) (bs : list byte) :
  lo <= pos -> pos + Z.of_nat (length bs) <= hi ->
  sameOutside lo hi img (Host.pwrite img pos bs).
Proof. intros Hlo Hhi a Ha. apply HostFacts.pwrite_outside. lia. Qed.

Lemma sameOutside_pread (lo hi : Z) (img img' : Host.image) (pos : Z) (n : nat) :
  sameOutside lo hi img img' ->
  pos + Z.of_nat n <= lo \/ hi <= pos ->
  Host.pread img' pos n = Host.pread img pos n.
Proof.
  intros Hsame Hdisj. apply HostFacts.pread_ext. intros a Ha. apply Hsame. lia.
Qed.

(** *** Frames *)

Lemma blockOnDisk_frame (img img' : Host.image) (lo hi i : Z) (d : list byte) (nx : Z) :
  0 <= i < N -> Z.of_nat (length d) <= payloadCapacity ->
  sameOutside lo hi img img' ->
  hi <= off i \/ off i + FILE_BLOCK_SIZE <= lo ->
  blockOnDisk img N i d nx -> blockOnDisk img' N i d nx.
Proof.
  intros Hi Hd Hsame Hdisj (Hbw & Hnx & Hpay).
  unfold payloadCapacity, FILE_BLOCK_META in *.
  pose proof FILE_BLOCK_SIZE_range as HB.
  repeat split.
  - rewrite <- Hbw. apply FileBlockFacts.diskBytesWritten_ext.
    intros a Ha. apply Hsame. lia.
  - rewrite <- Hnx. apply FileBlockFacts.diskNext_ext.
    intros a Ha. apply Hsame. lia.
  - rewrite <- Hpay at 2. apply (sameOutside_pread lo hi); [exact Hsame|lia].
Qed.

Lemma segment_frame (img img' : Host.image) (lo hi : Z)
      (blocks : list Z) (to : Z) (d : list byte) :
  sameOutside lo hi img img' ->
  Forall (fun i => 0 <= i < N /\
                   (hi <= off i \/ off i + FILE_BLOCK_SIZE <= lo)) blocks ->
  segment img N blocks to d -> segment img' N blocks to d.
Proof.
  intros Hsame Hall Hseg.
  induction Hseg as [to|i rest to d1 d2 Hblk Hlen Hrest IH].
  - constructor.
  - inversion Hall as [|? ? [Hi Hdisj] Hall']; subst.
    constructor; [|exact Hlen|apply IH; exact Hall'].
    apply (blockOnDisk_frame img img' lo hi); try assumption. lia.
Qed.

Lemma inUse_frame (img img' : Host.image) (lo hi j : Z) :
  0 <= j < N -> sameOutside lo hi img img' ->
  bitmapOffset + bitmapBytes N <= lo ->
  Bitmap.isBlockInUse j N img' = Bitmap.isBlockInUse j N img.
Proof.
  intros Hj Hsame Hlo. apply BitmapFacts.isBlockInUse_ext.
  apply Hsame. pose proof (bitmapBytes_covers N j Hj). lia.
Qed.

Lemma segment_snoc (img : Host.image) (front : list Z) (l k : Z) (d1 d2 : list byte) :
  segment img N front l d1 ->
  blockOnDisk img N l d2 k -> Z.of_nat (length d2) = payloadCapacity ->
  segment img N (front ++ [l]) k (d1 ++ d2).
Proof.
  intros Hseg Hl Hlen.
  induction Hseg as [to|i rest to da db Hblk Hla Hrest IH].
  - cbn [app]. rewrite <- (app_nil_r d2). constructor; [exact Hl|exact Hlen|constructor].
  - cbn [app]. rewrite <- app_assoc. constructor; [|exact Hla|apply IH; exact Hl].
    destruct rest; exact Hblk.
Qed.

(** *** The block operations on the last block of a chain *)

Lemma write_at_tail (img : Host.image) (b : FileBlock.t) (l : Z) (d2 chunk : list byte) :
  0 <= l < N ->
  FileBlock.m_offset b = off l -> FileBlock.m_index b = l ->
  FileBlock.m_bytesWritten b = Z.of_nat (length d2) ->
  blockOnDisk img N l d2 l ->
  Z.of_nat (length d2) + Z.of_nat (length chunk) <= payloadCapacity ->
  exists b' img',
    FileBlock.write (FileBlock.setExtraOffset b (FileBlock.getDataBytesWritten b))
                    img chunk (Z.of_nat (length chunk))
    = (b', img', Z.of_nat (length chunk)) /\
    sameOutside (off l) (off l + FILE_BLOCK_SIZE) img img' /\
    blockOnDisk img' N l (d2 ++ chunk) l /\
    FileBlock.m_bytesWritten b' = Z.of_nat (length (d2 ++ chunk)) /\
    FileBlock.m_offset b' = off l /\ FileBlock.m_index b' = l /\
    FileBlock.m_totalBlocks b' = FileBlock.m_totalBlocks b.
Proof.
  intros Hl Hoff Hidx Hbw (Hdbw & Hdnx & Hpay) Hroom.
  pose proof FILE_BLOCK_SIZE_range as HB.
  pose proof payloadCapacity_range as HP.
  pose proof (off_addressable l Hl) as [Hoff0 Hoff63].
  unfold payloadCapacity, FILE_BLOCK_META in *.
  rewrite FileBlockFacts.write_eq.
  unfold FileBlock.setExtraOffset, FileBlock.getDataBytesWritten.
  cbn [FileBlock.m_totalBlocks FileBlock.m_index FileBlock.m_bytesWritten
       FileBlock.m_initialBytesWritten FileBlock.m_next FileBlock.m_offset
       FileBlock.m_extraOffset].
  cbv zeta. rewrite Hoff, Hidx, Hbw.
  rewrite Nat2Z.id, firstn_all.
  rewrite (FileBlockFacts.wrap32_small (Z.of_nat (length chunk))) by lia.
  rewrite (FileBlockFacts.wrap32_small (Z.of_nat (length d2) + Z.of_nat (length chunk)))
    by lia.
  unfold FILE_BLOCK_META.
  rewrite (FileBlockFacts.wrap64_small (off l + 12 + Z.of_nat (length d2))) by lia.
  set (bw := Z.of_nat (length d2) + Z.of_nat (length chunk)).
  set (img1 := Host.pwrite img (off l + 12 + Z.of_nat (length d2)) chunk).
  set (img2 := Host.pwrite img1 (off l) (Bytes.convertInt32ToInt4Array bw)).
  assert (Hs1 : sameOutside (off l) (off l + FILE_BLOCK_SIZE) img img1)
    by (apply sameOutside_pwrite; lia).
  assert (Hs2 : sameOutside (off l) (off l + FILE_BLOCK_SIZE) img img2).
  { apply (sameOutside_trans _ _ img img1 img2); [exact Hs1|].
    apply sameOutside_pwrite; rewrite ?FileBlockFacts.length_convertInt32; lia. }
  assert (Hbw2 : FileBlock.diskBytesWritten img2 (off l) = bw).
  { unfold img2. rewrite FileBlockFacts.diskBytesWritten_written.
    apply FileBlockFacts.wrap32_small. unfold bw. lia. }
  assert (Hpay2 : Host.pread img2 (off l + 12) (length (d2 ++ chunk)) = d2 ++ chunk).
  { rewrite length_app, HostFacts.pread_app. f_equal.
    - rewrite <- Hpay at 2. apply HostFacts.pread_ext. intros a Ha.
      unfold img2, img1.
      rewrite !HostFacts.pwrite_outside;
        rewrite ?FileBlockFacts.length_convertInt32; try reflexivity; lia.
    - unfold img2.
      rewrite HostFacts.pread_pwrite_disjoint
        by (rewrite FileBlockFacts.length_convertInt32; lia).
      apply HostFacts.pread_pwrite_same. }
  assert (Hlen : Z.of_nat (length (d2 ++ chunk)) = bw)
    by (rewrite length_app; unfold bw; lia).
  destruct ((Z.of_nat (length chunk) <? FILE_BLOCK_SIZE - 12)
            || (0 <? Z.of_nat (length d2))) eqn:Hc.
  - eexists. eexists. split; [reflexivity|].
    cbn [FileBlock.m_totalBlocks FileBlock.m_index FileBlock.m_bytesWritten
         FileBlock.m_offset].
    assert (Hs3 : sameOutside (off l + 4) (off l + 12) img2
                    (Host.pwrite img2 (off l + 4) (Bytes.convertUInt64ToInt8Array l)))
      by (apply sameOutside_pwrite; rewrite ?FileBlockFacts.length_convertUInt64; lia).
    repeat split; try reflexivity; try (symmetry; exact Hlen).
    + intros a Ha. rewrite Hs3 by lia. apply Hs2. exact Ha.
    + rewrite Hlen, <- Hbw2. apply FileBlockFacts.diskBytesWritten_ext.
      intros a Ha. apply Hs3. lia.
    + rewrite FileBlockFacts.diskNext_written. apply FileBlockFacts.wrap64_small.
      apply index_small. exact Hl.
    + unfold FILE_BLOCK_META. rewrite <- Hpay2 at 2.
      apply HostFacts.pread_ext. intros a Ha. apply Hs3. lia.
  - eexists. eexists. split; [reflexivity|].
    cbn [FileBlock.m_totalBlocks FileBlock.m_index FileBlock.m_bytesWritten
         FileBlock.m_offset].
    apply orb_false_iff in Hc as [Hc1 Hc2].
    apply Z.ltb_ge in Hc1, Hc2.
    repeat split; try reflexivity; try (symmetry; exact Hlen).
    + exact Hs2.
    + rewrite Hlen. exact Hbw2.
    + rewrite <- Hdnx at 2. apply FileBlockFacts.diskNext_ext. intros a Ha.
      unfold img2, img1.
      rewrite !HostFacts.pwrite_outside;
        rewrite ?FileBlockFacts.length_convertInt32; try reflexivity; lia.
    + unfold FILE_BLOCK_META. exact Hpay2.
Qed.

Lemma setNext_of_block (img : Host.image) (b : FileBlock.t) (l k : Z) (d : list byte) (nx : Z) :
  0 <= l < N -> 0 <= k < N ->
  FileBlock.m_offset b = off l ->
  Z.of_nat (length d) <= payloadCapacity ->
  blockOnDisk img N l d nx ->
  exists b' img',
    FileBlock.setNext b img k = (b', img') /\
    sameOutside (off l) (off l + FILE_BLOCK_SIZE) img img' /\
    blockOnDisk img' N l d k /\
    FileBlock.m_index b' = FileBlock.m_index b.
Proof.
  intros Hl Hk Hoff Hd (Hdbw & Hdnx & Hpay).
  pose proof FILE_BLOCK_SIZE_range as HB.
  pose proof (off_addressable l Hl) as [Hoff0 Hoff63].
  pose proof (off_addressable k Hk) as [Hk0 Hk63].
  destruct Hfit as [HN Hsmall].
  unfold payloadCapacity, FILE_BLOCK_META in *.
  rewrite FileBlockFacts.setNext_eq, Hoff.
  rewrite (FileBlockFacts.wrap64_small (off l + 4)) by lia.
  eexists. eexists. split; [reflexivity|].
  assert (Hs : sameOutside (off l + 4) (off l + 12) img
                 (Host.pwrite img (off l + 4) (Bytes.convertUInt64ToInt8Array k)))
    by (apply sameOutside_pwrite; rewrite ?FileBlockFacts.length_convertUInt64; lia).
  repeat split; try reflexivity.
  - intros a Ha. apply Hs. lia.
  - rewrite <- Hdbw. apply FileBlockFacts.diskBytesWritten_ext.
    intros a Ha. apply Hs. lia.
  - rewrite FileBlockFacts.diskNext_written. apply FileBlockFacts.wrap64_small.
    apply index_small. exact Hk.
  - rewrite <- Hpay at 2. apply HostFacts.pread_ext. intros a Ha. apply Hs. lia.
Qed.

(** *** Allocation *)

Lemma newWritableFileBlock_spec (img : Host.image) :
  (Bitmap.countFree img N = O /\
   FileEntry.newWritableFileBlock img N = inl FileEntry.NoSpace) \/
  (exists k nb img',
      FileEntry.newWritableFileBlock img N = inr (nb, img') /\
      0 <= k < N /\ Bitmap.isBlockInUse k N img = false /\
      FileBlock.m_index nb = k /\ FileBlock.m_offset nb = off k /\
      FileBlock.m_totalBlocks nb = N /\ FileBlock.m_bytesWritten nb = 0 /\
      blockOnDisk img' N k [] k /\
      Bitmap.isBlockInUse k N img' = true /\
      (forall j, 0 <= j < N -> j <> k ->
         Bitmap.isBlockInUse j N img' = Bitmap.isBlockInUse j N img) /\
      S (Bitmap.countFree img' N) = Bitmap.countFree img N /\
      (forall i d nx, 0 <= i < N -> i <> k -> Z.of_nat (length d) <= payloadCapacity ->
         blockOnDisk img N i d nx -> blockOnDisk img' N i d nx) /\
      (forall blocks to d, Forall (fun i => 0 <= i < N /\ i <> k) blocks ->
         segment img N blocks to d -> segment img' N blocks to d)).
Proof.
  unfold FileEntry.newWritableFileBlock.
  destruct (Bitmap.firstFree img N) as [k|] eqn:Hff.
  2:{ left. split; [apply BitmapFacts.firstFree_None; exact Hff|reflexivity]. }
  right. apply BitmapFacts.firstFree_Some in Hff as [Hk Hfree].
  rewrite FileBlockFacts.new_eq, FileBlockFacts.registerBlockWithVolumeBitmap_eq.
  cbn [FileBlock.m_index FileBlock.m_totalBlocks].
  set (img1 := Host.pwrite (Host.pwrite img (off k) (Bytes.convertInt32ToInt4Array 0))
                           (off k + 4) (Bytes.convertUInt64ToInt8Array k)).
  pose proof FILE_BLOCK_SIZE_range as HB.
  pose proof (off_addressable k Hk) as [Hk0 Hk63].
  pose proof (off_after_bitmap k Hk) as Hkb.
  pose proof (bitmapBytes_covers N k Hk) as Hkc.
  assert (Hs1 : sameOutside (off k) (off k + FILE_BLOCK_SIZE) img img1).
  { apply (sameOutside_trans _ _ img
             (Host.pwrite img (off k) (Bytes.convertInt32ToInt4Array 0)) img1);
      apply sameOutside_pwrite;
      rewrite ?FileBlockFacts.length_convertInt32, ?FileBlockFacts.length_convertUInt64;
      lia. }
  assert (Hs2 : sameOutside bitmapOffset (bitmapOffset + bitmapBytes N)
                            img1 (Bitmap.markUsed img1 k N)).
  { intros a Ha. apply BitmapFacts.markUsed_elsewhere. lia. }
  assert (Hfree1 : Bitmap.isBlockInUse k N img1 = false).
  { rewrite <- Hfree. apply (inUse_frame img img1 (off k) (off k + FILE_BLOCK_SIZE));
      assumption. }
  exists k. eexists. eexists. split; [reflexivity|].
  cbn [FileBlock.m_index FileBlock.m_offset FileBlock.m_totalBlocks FileBlock.m_bytesWritten].
  split_ands; try reflexivity; try lia; try exact Hfree.
  - unfold blockOnDisk. cbn [length Z.of_nat]. split_ands; [| |reflexivity].
    + rewrite (FileBlockFacts.diskBytesWritten_ext img1) by (intros a Ha; apply Hs2; lia).
      unfold img1.
      rewrite (FileBlockFacts.diskBytesWritten_ext
                 (Host.pwrite img (off k) (Bytes.convertInt32ToInt4Array 0))).
      * apply FileBlockFacts.diskBytesWritten_written.
      * intros a Ha. apply HostFacts.pwrite_outside. lia.
    + rewrite (FileBlockFacts.diskNext_ext img1) by (intros a Ha; apply Hs2; lia).
      unfold img1. rewrite FileBlockFacts.diskNext_written.
      apply FileBlockFacts.wrap64_small. apply index_small. exact Hk.
  - apply BitmapFacts.markUsed_same.
  - intros j Hj Hne. rewrite BitmapFacts.markUsed_other by congruence.
    apply (inUse_frame img img1 (off k) (off k + FILE_BLOCK_SIZE)); assumption.
  - rewrite (BitmapFacts.countFree_markUsed img1 N k Hk Hfree1).
    apply BitmapFacts.countFree_ext. intros j Hj.
    apply (inUse_frame img img1 (off k) (off k + FILE_BLOCK_SIZE)); assumption.
  - intros i d nx Hi Hne Hd Hblk.
    pose proof (off_after_bitmap i Hi).
    apply (blockOnDisk_frame img1 _ bitmapOffset (bitmapOffset + bitmapBytes N));
      try assumption; [left; lia|].
    apply (blockOnDisk_frame img _ (off k) (off k + FILE_BLOCK_SIZE)); try assumption.
    destruct (off_disjoint i k Hi Hk Hne); lia.
  - intros blocks to d Hall Hseg.
    apply (segment_frame img1 _ bitmapOffset (bitmapOffset + bitmapBytes N));
      [exact Hs2| |].
    + eapply Forall_impl; [|exact Hall]. intros i [Hi Hne]. cbv beta.
      pose proof (off_after_bitmap i Hi). split; [exact Hi|left; lia].
    + apply (segment_frame img _ (off k) (off k + FILE_BLOCK_SIZE)); [exact Hs1| |exact Hseg].
      eapply Forall_impl; [|exact Hall]. intros i [Hi Hne]. cbv beta.
      split; [exact Hi|]. destruct (off_disjoint i k Hi Hk Hne); lia.
Qed.

(** *** One round of the append loop *)

Lemma appendToCurrentBlock_spec (img : Host.image) (e : FileEntry.t)
      (front : list Z) (l : Z) (d1 d2 chunk : list byte) :
  appending img N e front l d1 d2 ->
  Z.of_nat (length d2) + Z.of_nat (length chunk) <= payloadCapacity ->
  (Z.of_nat (length d2) + Z.of_nat (length chunk) < payloadCapacity /\
   exists e' img',
     FileEntry.appendToCurrentBlock e img chunk = inr (e', img') /\
     appending img' N e' front l d1 (d2 ++ chunk) /\
     Bitmap.countFree img' N = Bitmap.countFree img N) \/
  (Z.of_nat (length d2) + Z.of_nat (length chunk) = payloadCapacity /\
   Bitmap.countFree img N = O /\
   FileEntry.appendToCurrentBlock e img chunk = inl FileEntry.NoSpace) \/
  (Z.of_nat (length d2) + Z.of_nat (length chunk) = payloadCapacity /\
   exists e' img' k,
     FileEntry.appendToCurrentBlock e img chunk = inr (e', img') /\
     appending img' N e' (front ++ [l]) k (d1 ++ d2 ++ chunk) [] /\
     S (Bitmap.countFree img' N) = Bitmap.countFree img N).
Proof.
  intros [[Hrange Hused Hnd Hseg Hlast Hfill] Htot Hidx Hcur
          (lb & Hnth & Hlboff & HlbN & Hlbbw) Hrm Hsize Hpos Hstart Hdisp] Hroom.
  pose proof payloadCapacity_range as HP.
  pose proof FILE_BLOCK_SIZE_range as HB.
  assert (Hl : 0 <= l < N).
  { apply Forall_app in Hrange as [_ Hr]. inversion Hr; subst. assumption. }
  assert (Hfrontrange : Forall (fun i => 0 <= i < N) front)
    by (apply Forall_app in Hrange; tauto).
  assert (Hnotin : ~ In l front).
  { intros Hin. apply NoDup_remove_2 in Hnd. rewrite app_nil_r in Hnd. contradiction. }
  assert (Hlbidx : FileBlock.m_index lb = l).
  { pose proof (map_nth_error FileBlock.m_index _ _ Hnth) as Hm.
    rewrite Hidx, ListFacts.nth_error_snoc in Hm. congruence. }
  assert (Hlen : length (FileEntry.m_fileBlocks e) = S (length front)).
  { rewrite <- (length_map FileBlock.m_index), Hidx, length_app. cbn [length]. lia. }
  destruct (write_at_tail img lb l d2 chunk Hl Hlboff Hlbidx Hlbbw Hlast Hroom)
    as (b' & img1 & Hw & Hs1 & Hblk1 & Hbw1 & Hoff1 & Hidx1 & HN1).
  pose proof (off_after_bitmap l Hl) as Hlb.
  assert (Hused1 : Forall (fun i => Bitmap.isBlockInUse i N img1 = true) (front ++ [l])).
  { rewrite Forall_forall in *. intros i Hi.
    rewrite (inUse_frame img img1 (off l) (off l + FILE_BLOCK_SIZE));
      [apply Hused; exact Hi|apply Hrange; exact Hi|exact Hs1|exact Hlb]. }
  assert (Hfrontfar : forall lo hi, lo = off l -> hi = off l + FILE_BLOCK_SIZE ->
            Forall (fun i => 0 <= i < N /\
                             (hi <= off i \/ off i + FILE_BLOCK_SIZE <= lo)) front).
  { intros lo hi -> ->. rewrite Forall_forall in *. intros i Hi.
    split; [apply Hfrontrange; exact Hi|].
    assert (i <> l) by (intros ->; contradiction).
    destruct (off_disjoint i l (Hfrontrange i Hi) Hl); [assumption|lia|lia]. }
  assert (Hseg1 : segment img1 N front l d1).
  { apply (segment_frame img img1 (off l) (off l + FILE_BLOCK_SIZE));
      [exact Hs1|apply Hfrontfar; reflexivity|exact Hseg]. }
  assert (Hblocks : map FileBlock.m_index
                        (FileEntry.replaceAt (FileEntry.m_fileBlocks e) (length front) b')
                    = front ++ [l]).
  { rewrite (ListFacts.map_replaceAt _ _ _ _ lb Hnth) by congruence. exact Hidx. }
  assert (Hlen2 : Z.of_nat (length (d2 ++ chunk))
                  = Z.of_nat (length d2) + Z.of_nat (length chunk))
    by (rewrite length_app; lia).
  unfold FileEntry.appendToCurrentBlock.
  rewrite Hcur, Hnth, Hw. unfold FileBlock.getDataBytesWritten. rewrite Hbw1.
  destruct (Z.eqb_spec (Z.of_nat (length (d2 ++ chunk))) payloadCapacity) as [Hfull|Hnot].
  - right.
    destruct (newWritableFileBlock_spec img1)
      as [[Hcf Hns]|(k & nb & img3 & Hnew & Hk & Hkfree & Hnbidx & Hnboff & HnbN & Hnbbw
                     & Hblkk & Hkused & Hothers & Hcount & Hframe & Hsegframe)].
    + left. rewrite Htot, Hns. cbn [FileEntry.bind].
      split; [lia|]. split; [|reflexivity].
      rewrite <- Hcf. symmetry. apply BitmapFacts.countFree_ext. intros j Hj.
      apply (inUse_frame img img1 (off l) (off l + FILE_BLOCK_SIZE)); assumption.
    + right. rewrite Htot, Hnew. cbn [FileEntry.bind].
      assert (Hkl : k <> l).
      { intros ->. rewrite Forall_forall in Hused1.
        rewrite (Hused1 l) in Hkfree; [discriminate|].
        apply in_or_app. right. left. reflexivity. }
      assert (Hkfront : ~ In k front).
      { intros Hin. rewrite Forall_forall in Hused1.
        rewrite (Hused1 k) in Hkfree; [discriminate|].
        apply in_or_app. left. exact Hin. }
      assert (Hblk3 : blockOnDisk img3 N l (d2 ++ chunk) l)
        by (apply Hframe; [exact Hl|congruence|lia|exact Hblk1]).
      destruct (setNext_of_block img3 b' l k (d2 ++ chunk) l Hl Hk Hoff1
                                 ltac:(lia) Hblk3)
        as (b'' & img4 & Hsn & Hs4 & Hblk4 & Hidx4).
      unfold FileBlock.getIndex. rewrite Hnbidx, Hsn. cbn [FileEntry.ret].
      split; [lia|].
      eexists. eexists. exists k. split; [reflexivity|].
      assert (Hblocks4 :
                map FileBlock.m_index
                    (FileEntry.replaceAt
                       (FileEntry.replaceAt (FileEntry.m_fileBlocks e) (length front) b')
                       (length front) b'' ++ [nb])
                = (front ++ [l]) ++ [k]).
      { rewrite map_app. cbn [map]. rewrite Hnbidx. f_equal.
        rewrite (ListFacts.map_replaceAt _ _ _ _ b'); [exact Hblocks| |congruence].
        apply (ListFacts.nth_error_replaceAt_same _ _ _ lb). exact Hnth. }
      assert (Hlen4 : length (FileEntry.replaceAt
                                (FileEntry.replaceAt (FileEntry.m_fileBlocks e)
                                                     (length front) b')
                                (length front) b'' ++ [nb])
                      = S (length (front ++ [l]))).
      { rewrite <- (length_map FileBlock.m_index), Hblocks4, !length_app.
        cbn [length]. lia. }
      split.
      * constructor; cbn [FileEntry.m_totalBlocks FileEntry.m_fileBlocks
                          FileEntry.m_blockIndex FileEntry.m_fileSize FileEntry.m_pos
                          FileEntry.m_startVolumeBlock FileEntry.m_openDisposition].
        -- constructor.
           ++ apply Forall_app. split; [exact Hrange|]. constructor; [exact Hk|constructor].
           ++ rewrite Forall_forall. intros i Hi.
              assert (Hir : 0 <= i < N).
              { apply in_app_or in Hi as [Hi|[<-|[]]]; [|exact Hk].
                rewrite Forall_forall in Hrange. apply Hrange. exact Hi. }
              rewrite (inUse_frame img3 img4 (off l) (off l + FILE_BLOCK_SIZE));
                [|exact Hir|exact Hs4|exact Hlb].
              apply in_app_or in Hi as [Hi|[<-|[]]]; [|exact Hkused].
              rewrite Hothers; [|exact Hir|intros ->; apply in_app_or in Hi as [?|[?|[]]];
                                           [contradiction|congruence]].
              rewrite Forall_forall in Hused1. apply Hused1. exact Hi.
           ++ apply ListFacts.NoDup_snoc; [exact Hnd|].
              intros Hin. apply in_app_or in Hin as [?|[?|[]]]; [contradiction|congruence].
           ++ apply segment_snoc; [| |lia].
              ** apply (segment_frame img3 img4 (off l) (off l + FILE_BLOCK_SIZE));
                   [exact Hs4|apply Hfrontfar; reflexivity|].
                 apply Hsegframe; [|exact Hseg1].
                 rewrite Forall_forall in *. intros i Hi.
                 split; [apply Hfrontrange; exact Hi|intros ->; contradiction].
              ** exact Hblk4.
           ++ apply (blockOnDisk_frame img3 img4 (off l) (off l + FILE_BLOCK_SIZE));
                [exact Hk|cbn [length]; lia|exact Hs4| |exact Hblkk].
              destruct (off_disjoint k l Hk Hl Hkl); lia.
           ++ cbn [length]. lia.
        -- reflexivity.
        -- exact Hblocks4.
        -- rewrite Hlen4. cbn [Nat.sub]. lia.
        -- exists nb. rewrite <- (app_assoc front [l] [k]) in Hblocks4.
           split; [|split; [exact Hnboff|split; [exact HnbN|exact Hnbbw]]].
           replace (length (front ++ [l]))
             with (length (FileEntry.replaceAt
                             (FileEntry.replaceAt (FileEntry.m_fileBlocks e)
                                                  (length front) b')
                             (length front) b'')).
           ++ apply ListFacts.nth_error_snoc.
           ++ rewrite !ListFacts.length_replaceAt, Hlen, length_app. cbn [length]. lia.
        -- cbn [length]. lia.
        -- rewrite Hsize. repeat rewrite length_app. cbn [length]. lia.
        -- rewrite Hpos. reflexivity.
        -- rewrite Hstart. destruct front; reflexivity.
        -- exact Hdisp.
      * assert (H43 : Bitmap.countFree img4 N = Bitmap.countFree img3 N).
        { apply BitmapFacts.countFree_ext. intros j Hj.
          apply (inUse_frame img3 img4 (off l) (off l + FILE_BLOCK_SIZE)); assumption. }
        assert (H10 : Bitmap.countFree img1 N = Bitmap.countFree img N).
        { apply BitmapFacts.countFree_ext. intros j Hj.
          apply (inUse_frame img img1 (off l) (off l + FILE_BLOCK_SIZE)); assumption. }
        congruence.
  - left. split; [lia|].
    eexists. eexists. split; [reflexivity|]. split.
    + constructor; cbn [FileEntry.m_totalBlocks FileEntry.m_fileBlocks
                        FileEntry.m_blockIndex FileEntry.m_fileSize FileEntry.m_pos
                        FileEntry.m_startVolumeBlock FileEntry.m_openDisposition].
      * constructor; try assumption. lia.
      * exact Htot.
      * exact Hblocks.
      * reflexivity.
      * exists b'.
        split; [apply (ListFacts.nth_error_replaceAt_same _ _ _ lb); exact Hnth|].
        split; [exact Hoff1|]. split; [congruence|exact Hbw1].
      * lia.
      * rewrite Hsize, !length_app. lia.
      * rewrite Hpos. reflexivity.
      * exact Hstart.
      * exact Hdisp.
    + apply BitmapFacts.countFree_ext. intros j Hj.
      apply (inUse_frame img img1 (off l) (off l + FILE_BLOCK_SIZE)); assumption.
Qed.

(** *** The append loop *)

Lemma appendLoop_nil (rounds : nat) (e : FileEntry.t) (img : Host.image) :
  FileEntry.appendLoop rounds e img [] = inr (e, img).
Proof. destruct rounds; reflexivity. Qed.

Lemma currentBlockRoom_appending (img : Host.image) (e : FileEntry.t)
      (front : list Z) (l : Z) (d1 d2 : list byte) :
  appending img N e front l d1 d2 ->
  FileEntry.currentBlockRoom e = payloadCapacity - Z.of_nat (length d2).
Proof.
  intros [_ _ _ Hcur (lb & Hnth & _ & _ & Hbw) _ _ _ _ _].
  unfold FileEntry.currentBlockRoom. rewrite Hcur, Hnth.
  unfold FileBlock.getDataBytesWritten. rewrite Hbw. reflexivity.
Qed.

(** The loop ends: with the chain extended by the data, or, when the bitmap
    has fewer free blocks than the data fills, with [NoSpace]. *)
Lemma appendLoop_spec (rounds : nat) :
  forall (s : list byte) (img : Host.image) (e : FileEntry.t)
         (front : list Z) (l : Z) (d1 d2 : list byte),
    appending img N e front l d1 d2 ->
    (length s < rounds)%nat ->
    (exists e' img' front' l' d1' d2',
        FileEntry.appendLoop rounds e img s = inr (e', img') /\
        appending img' N e' front' l' d1' d2' /\
        d1' ++ d2' = d1 ++ d2 ++ s /\
        hd l' front' = hd l front /\
        Z.of_nat (Bitmap.countFree img N)
        = Z.of_nat (Bitmap.countFree img' N)
          + (Z.of_nat (length d2) + Z.of_nat (length s)) / payloadCapacity) \/
    (FileEntry.appendLoop rounds e img s = inl FileEntry.NoSpace /\
     Z.of_nat (Bitmap.countFree img N)
     < (Z.of_nat (length d2) + Z.of_nat (length s)) / payloadCapacity).
Proof.
  pose proof payloadCapacity_range as HP.
  induction rounds as [|rounds IH]; intros s img e front l d1 d2 Happ Hlen; [lia|].
  pose proof (app_room _ _ _ _ _ _ _ Happ) as Hrm.
  destruct s as [|c s'].
  - left. exists e, img, front, l, d1, d2.
    split; [reflexivity|]. split; [exact Happ|].
    split; [rewrite !app_nil_r; reflexivity|]. split; [reflexivity|].
    cbn [length Z.of_nat]. rewrite Z.add_0_r, Z.div_small by lia. lia.
  - cbn [FileEntry.appendLoop].
    rewrite (currentBlockRoom_appending img e front l d1 d2 Happ).
    set (room := Z.to_nat (payloadCapacity - Z.of_nat (length d2))).
    set (s := c :: s') in *.
    assert (Hsplit : firstn room s ++ skipn room s = s) by apply firstn_skipn.
    assert (Hchunk : length (firstn room s) = Nat.min room (length s))
      by apply length_firstn.
    assert (Hrest : length (skipn room s) = (length s - room)%nat)
      by apply length_skipn.
    assert (Hs : (0 < length s)%nat) by (unfold s; cbn [length]; lia).
    assert (Hroom1 : (0 < room)%nat) by (unfold room; lia).
    assert (Hroom : Z.of_nat room = payloadCapacity - Z.of_nat (length d2))
      by (unfold room; lia).
    destruct (appendToCurrentBlock_spec img e front l d1 d2 (firstn room s) Happ
                                        ltac:(lia))
      as [(Hlt & e' & img' & Hstep & Happ' & Hcount)
         |[(Heq & Hcount & Hstep)
          |(Heq & e' & img' & k & Hstep & Happ' & Hcount)]];
      rewrite Hstep; cbn [FileEntry.bind].
    + assert (Hall : (length s < room)%nat) by lia.
      assert (Hfn : firstn room s = s) by (apply firstn_all2; lia).
      assert (Hsk : skipn room s = []) by (apply skipn_all2; lia).
      rewrite Hsk, appendLoop_nil. left.
      exists e', img', front, l, d1, (d2 ++ firstn room s).
      split; [reflexivity|]. split; [exact Happ'|].
      split; [rewrite Hfn; reflexivity|]. split; [reflexivity|].
      rewrite Hcount, Z.div_small by lia. lia.
    + right. split; [reflexivity|].
      rewrite Hcount. cbn [Z.of_nat].
      apply Z.div_str_pos. lia.
    + assert (Hdiv : (Z.of_nat (length d2) + Z.of_nat (length s)) / payloadCapacity
                     = 1 + (Z.of_nat (length (@nil byte))
                            + Z.of_nat (length (skipn room s))) / payloadCapacity).
      { cbn [length Z.of_nat]. rewrite Z.add_0_l.
        replace (Z.of_nat (length d2) + Z.of_nat (length s))
          with (1 * payloadCapacity + Z.of_nat (length (skipn room s))) by lia.
        apply Z.div_add_l. lia. }
      destruct (IH (skipn room s) img' e' (front ++ [l]) k (d1 ++ d2 ++ firstn room s) []
                   Happ' ltac:(lia))
        as [(e'' & img'' & front'' & l'' & d1'' & d2'' & Hloop & Happ'' & Hdata & Hhd & Hc'')
           |(Hloop & Hc'')]; rewrite Hloop.
      * left. exists e'', img'', front'', l'', d1'', d2''.
        split; [reflexivity|]. split; [exact Happ''|].
        split.
        -- rewrite Hdata. cbn [app]. rewrite <- !app_assoc, Hsplit. reflexivity.
        -- split; [rewrite Hhd; destruct front; reflexivity|].
           rewrite Hdiv. lia.
      * right. split; [reflexivity|]. rewrite Hdiv. lia.
Qed.

(** *** Creation and the entry's [write] *)

Lemma create_spec (img : Host.image) :
  (Bitmap.countFree img N = O /\ FileEntry.create img N = inl FileEntry.NoSpace) \/
  (exists e img' k,
      FileEntry.create img N = inr (e, img') /\
      appending img' N e [] k [] [] /\
      S (Bitmap.countFree img' N) = Bitmap.countFree img N).
Proof.
  pose proof payloadCapacity_range as HP.
  unfold FileEntry.create.
  destruct (newWritableFileBlock_spec img)
    as [[Hcf Hns]|(k & nb & img' & Hnew & Hk & Hkfree & Hnbidx & Hnboff & HnbN & Hnbbw
                   & Hblkk & Hkused & Hothers & Hcount & Hframe & Hsegframe)].
  - left. rewrite Hns. split; [exact Hcf|reflexivity].
  - right. rewrite Hnew. cbn [FileEntry.bind FileEntry.ret].
    eexists. eexists. exists k. split; [reflexivity|]. split; [|exact Hcount].
    unfold FileBlock.getIndex.
    constructor; cbn [FileEntry.m_totalBlocks FileEntry.m_fileBlocks
                      FileEntry.m_blockIndex FileEntry.m_fileSize FileEntry.m_pos
                      FileEntry.m_startVolumeBlock FileEntry.m_openDisposition
                      app length map hd].
    + constructor; cbn [app length].
      * constructor; [exact Hk|constructor].
      * constructor; [exact Hkused|constructor].
      * constructor; [intros []|constructor].
      * constructor.
      * exact Hblkk.
      * lia.
    + reflexivity.
    + rewrite Hnbidx. reflexivity.
    + reflexivity.
    + exists nb. split; [reflexivity|]. split; [exact Hnboff|]. split; assumption.
    + lia.
    + reflexivity.
    + reflexivity.
    + exact Hnbidx.
    + discriminate.
Qed.

Lemma write_spec (s : list byte) (img : Host.image) (e : FileEntry.t)
      (front : list Z) (l : Z) (d1 d2 : list byte) :
  appending img N e front l d1 d2 ->
  (exists e' img' front' l' d1' d2',
      FileEntry.write e img s = inr (e', img') /\
      appending img' N e' front' l' d1' d2' /\
      d1' ++ d2' = d1 ++ d2 ++ s /\
      hd l' front' = hd l front /\
      Z.of_nat (Bitmap.countFree img N)
      = Z.of_nat (Bitmap.countFree img' N)
        + (Z.of_nat (length d2) + Z.of_nat (length s)) / payloadCapacity) \/
  (FileEntry.write e img s = inl FileEntry.NoSpace /\
   Z.of_nat (Bitmap.countFree img N)
   < (Z.of_nat (length d2) + Z.of_nat (length s)) / payloadCapacity).
Proof.
  intros Happ.
  pose proof (app_pos _ _ _ _ _ _ _ Happ) as Hpos.
  pose proof (app_disposition _ _ _ _ _ _ _ Happ) as Hdisp.
  unfold FileEntry.write.
  rewrite Hpos, Z.eqb_refl.
  destruct (FileEntry.m_openDisposition e); try contradiction;
    apply (appendLoop_spec (S (S (length s))) s img e front l d1 d2 Happ); lia.
Qed.

(** *** Walking a chain *)

Lemma segment_next_differs (img : Host.image) (front : list Z) (l : Z) (d : list byte) :
  segment img N front l d -> NoDup (front ++ [l]) ->
  Forall (fun i => FileBlock.diskNext img (off i) <> i) front.
Proof.
  intros Hseg. induction Hseg as [to|i rest to d1 d2 (_ & Hnx & _) Hlen Hrest IH];
    intros Hnd; [constructor|].
  cbn [app] in Hnd. inversion Hnd as [|? ? Hnotin Hnd']; subst.
  constructor; [|apply IH; exact Hnd'].
  rewrite Hnx. intros Heq. apply Hnotin. rewrite <- Heq. apply ListFacts.hd_snoc_in.
Qed.

Lemma chain_lastAloneSelfLoops (img : Host.image) (front : list Z) (l : Z)
      (d1 d2 : list byte) :
  chain img N front l d1 d2 -> lastAloneSelfLoops img N (front ++ [l]).
Proof.
  intros [_ _ Hnd Hseg (_ & Hnx & _) _].
  exists front, l. split; [reflexivity|]. split; [exact Hnx|].
  apply (segment_next_differs img front l d1); assumption.
Qed.

Lemma setBlocks_spec (img : Host.image) (front : list Z) (l : Z) (d1 d2 : list byte) :
  segment img N front l d1 -> blockOnDisk img N l d2 l ->
  forall (hops : nat) (acc : list FileBlock.t),
    NoDup (front ++ [l]) ->
    (forall b, In b acc -> ~ In (FileBlock.m_index b) (front ++ [l])) ->
    (length front < hops)%nat ->
    FileEntry.setBlocks hops img N (hd l front) acc
    = inr (acc ++ map (FileBlock.open img N) (front ++ [l])).
Proof.
  intros Hseg (_ & Hlnx & _).
  induction Hseg as [to|i rest to da db (_ & Hnx & _) Hlen Hrest IH];
    intros hops acc Hnd Hacc Hhops; (destruct hops as [|hops]; [cbn [length] in Hhops; lia|]).
  - cbn [hd app map FileEntry.setBlocks].
    unfold FileBlock.getNextIndex. rewrite FileBlockFacts.open_eq.
    cbn [FileBlock.m_next]. rewrite Hlnx, Z.eqb_refl. reflexivity.
  - cbn [hd app map FileEntry.setBlocks].
    unfold FileBlock.getNextIndex, FileBlock.getIndex.
    rewrite (FileBlockFacts.open_eq img N i).
    cbn [FileBlock.m_next]. rewrite Hnx.
    cbn [app] in Hnd. inversion Hnd as [|? ? Hnotin Hnd']; subst.
    pose proof (ListFacts.hd_snoc_in rest to) as Hin.
    destruct (Z.eqb_spec (hd to rest) i) as [Heq|Hne];
      [rewrite Heq in Hin; contradiction|].
    match goal with
    | |- (if existsb ?f ?bs then _ else _) = _ =>
        assert (Hex : existsb f bs = false)
    end.
    { apply not_true_is_false. intros Hex.
      apply existsb_exists in Hex as (b & Hb & Hbeq).
      apply Z.eqb_eq in Hbeq.
      apply in_app_or in Hb as [Hb|[<-|[]]].
      - apply (Hacc b Hb). right. rewrite Hbeq. exact Hin.
      - cbn [FileBlock.m_index] in Hbeq. congruence. }
    rewrite Hex.
    rewrite IH;
      [rewrite <- app_assoc; reflexivity|exact Hlnx|exact Hnd'|
      |cbn [length] in Hhops; lia].
    intros b Hb. apply in_app_or in Hb as [Hb|[<-|[]]].
    + intros Hin'. apply (Hacc b Hb). right. exact Hin'.
    + cbn [FileBlock.m_index]. exact Hnotin.
Qed.

Lemma sumBytesWritten_chain (img : Host.image) (front : list Z) (l : Z) (d1 d2 : list byte) :
  segment img N front l d1 -> blockOnDisk img N l d2 l ->
  FileEntry.sumBytesWritten (map (FileBlock.open img N) (front ++ [l]))
  = Z.of_nat (length (d1 ++ d2)).
Proof.
  intros Hseg (Hlbw & _ & _).
  induction Hseg as [to|i rest to da db (Hbw & _ & _) Hlen Hrest IH].
  - cbn [app map FileEntry.sumBytesWritten fold_right].
    unfold FileBlock.getDataBytesWritten. rewrite FileBlockFacts.open_eq.
    cbn [FileBlock.m_bytesWritten]. rewrite Hlbw. lia.
  - cbn [app map FileEntry.sumBytesWritten fold_right].
    unfold FileBlock.getDataBytesWritten at 1. rewrite FileBlockFacts.open_eq.
    cbn [FileBlock.m_bytesWritten].
    change (fold_right _ 0 ?x) with (FileEntry.sumBytesWritten x).
    rewrite IH by exact Hlbw. rewrite Hbw, <- app_assoc, !length_app. lia.
Qed.

(** The blocks of a chain are at most as many as the image has. *)
Lemma chain_length (img : Host.image) (front : list Z) (l : Z) (d1 d2 : list byte) :
  chain img N front l d1 d2 -> (length front < Z.to_nat N)%nat.
Proof.
  intros [Hrange _ Hnd _ _ _].
  assert (Hincl : incl (front ++ [l]) (Bitmap.blockIndices N)).
  { intros i Hi. apply BitmapFacts.blockIndices_spec.
    rewrite Forall_forall in Hrange. apply Hrange. exact Hi. }
  pose proof (NoDup_incl_length Hnd Hincl) as Hle.
  rewrite length_app in Hle. cbn [length] in Hle.
  unfold Bitmap.blockIndices in Hle. rewrite length_map, length_seq in Hle. lia.
Qed.

Lemma open_read_spec (img : Host.image) (front : list Z) (l : Z) (d1 d2 : list byte) :
  chain img N front l d1 d2 ->
  FileEntry.open img N (hd l front) FileEntry.Read
  = inr (FileEntry.mk N (Z.of_nat (length (d1 ++ d2)))
                      (map (FileBlock.open img N) (front ++ [l]))
                      (hd l front) 0 FileEntry.Read 0).
Proof.
  intros Hchain. pose proof (chain_length img front l d1 d2 Hchain) as Hlen.
  destruct Hchain as [Hrange _ Hnd Hseg Hlast _].
  unfold FileEntry.open.
  rewrite (setBlocks_spec img front l d1 d2 Hseg Hlast (Z.to_nat N) [] Hnd);
    [|intros b []|exact Hlen].
  cbn [app FileEntry.bind FileEntry.ret].
  rewrite (sumBytesWritten_chain img front l d1 d2 Hseg Hlast). reflexivity.
Qed.

(** *** Reading a chain *)

Lemma readLoop_done (rounds : nat) (e : FileEntry.t) (img : Host.image)
      (remaining : Z) (acc : list byte) :
  remaining <= 0 -> FileEntry.readLoop rounds e img remaining acc = (e, acc).
Proof.
  intros H. destruct rounds; [reflexivity|]. cbn [FileEntry.readLoop].
  destruct (Z.leb_spec remaining 0); [reflexivity|lia].
Qed.

(** One block read from its start: the octets of its payload. *)
Lemma read_payload (img : Host.image) (b : FileBlock.t) (i : Z) (d : list byte) (nx : Z) :
  0 <= i < N -> FileBlock.m_offset b = off i -> FileBlock.m_extraOffset b = 0 ->
  blockOnDisk img N i d nx ->
  FileBlock.read b img (repeat x00 (Z.to_nat (Z.of_nat (length d)))) (Z.of_nat (length d))
  = (b, img, d, Z.of_nat (length d)).
Proof.
  intros Hi Hoff Heo (_ & _ & Hpay).
  pose proof FILE_BLOCK_SIZE_range as HB.
  pose proof (off_addressable i Hi) as [H0 H63].
  rewrite FileBlockFacts.read_eq, Hoff, Heo, Nat2Z.id.
  unfold FILE_BLOCK_META in *.
  rewrite FileBlockFacts.wrap64_small by lia.
  rewrite Z.add_0_r, Hpay.
  rewrite skipn_all2 by (rewrite repeat_length; lia).
  rewrite app_nil_r. reflexivity.
Qed.

Lemma readLoop_chain (img : Host.image) (front : list Z) (l : Z) (d1 d2 : list byte) :
  segment img N front l d1 -> blockOnDisk img N l d2 l ->
  Z.of_nat (length d2) <= payloadCapacity ->
  Forall (fun i => 0 <= i < N) (front ++ [l]) ->
  forall (rounds : nat) (e : FileEntry.t) (done : list FileBlock.t)
         (b : FileBlock.t) (blocks : list FileBlock.t) (acc : list byte),
    FileEntry.m_fileBlocks e = done ++ b :: blocks ->
    map FileBlock.m_offset (b :: blocks)
    = map (fun i => getOffsetOfFileBlock i N) (front ++ [l]) ->
    FileBlock.m_extraOffset b = 0 ->
    FileEntry.m_blockIndex e = length done ->
    (length front < rounds)%nat ->
    snd (FileEntry.readLoop rounds e img (Z.of_nat (length (d1 ++ d2))) acc)
    = acc ++ d1 ++ d2.
Proof.
  intros Hseg Hlast Hfill.
  pose proof payloadCapacity_range as HP.
  induction Hseg as [to|i rest to da db Hblk Hlen Hrest IH];
    intros Hrange rounds e done b blocks acc Hblocks Hoffs Heo Hcur Hrounds;
    (destruct rounds as [|rounds]; [cbn [length] in Hrounds; lia|]).
  - cbn [app] in *.
    destruct (Z.leb_spec (Z.of_nat (length d2)) 0) as [Hz|Hpos].
    + rewrite readLoop_done by exact Hz.
      destruct d2; [cbn [snd app]; rewrite app_nil_r; reflexivity|cbn [length] in Hz; lia].
    + inversion Hrange as [|? ? Hl _]; subst.
      cbn [map] in Hoffs. injection Hoffs as Hboff Hrestoffs.
      cbn [FileEntry.readLoop].
      destruct (Z.leb_spec (Z.of_nat (length d2)) 0) as [?|_]; [lia|].
      rewrite Hblocks, Hcur, nth_error_app2, Nat.sub_diag by lia.
      cbn [nth_error]. rewrite Heo, Z.sub_0_r, Z.min_l by lia.
      rewrite (read_payload img b to d2 to Hl Hboff Heo Hlast).
      rewrite Z.ltb_irrefl, Z.sub_diag.
      rewrite readLoop_done by lia. reflexivity.
  - cbn [app] in Hrange, Hoffs.
    inversion Hrange as [|? ? Hi Hrange']; subst.
    cbn [map] in Hoffs. injection Hoffs as Hboff Hrestoffs.
    assert (Hrem : Z.of_nat (length ((da ++ db) ++ d2))
                   = payloadCapacity + Z.of_nat (length (db ++ d2)))
      by (rewrite <- app_assoc, length_app; lia).
    rewrite Hrem.
    cbn [FileEntry.readLoop].
    destruct (Z.leb_spec (payloadCapacity + Z.of_nat (length (db ++ d2))) 0) as [?|_];
      [lia|].
    rewrite Hblocks, Hcur, nth_error_app2, Nat.sub_diag by lia.
    cbn [nth_error]. rewrite Heo, Z.sub_0_r, Z.min_r by lia.
    rewrite <- Hlen.
    rewrite (read_payload img b i da (hd to rest) Hi Hboff Heo Hblk).
    rewrite Hlen.
    replace (payloadCapacity + Z.of_nat (length (db ++ d2)) - payloadCapacity)
      with (Z.of_nat (length (db ++ d2))) by lia.
    destruct (Z.ltb_spec payloadCapacity
                         (payloadCapacity + Z.of_nat (length (db ++ d2)))) as [Hmore|Hnone].
    + destruct blocks as [|nxt blocks'];
        [destruct rest; discriminate Hrestoffs|].
      replace (done ++ b :: nxt :: blocks') with ((done ++ [b]) ++ nxt :: blocks')
        by (rewrite <- app_assoc; reflexivity).
      replace (S (length done)) with (length (done ++ [b]))
        by (rewrite length_app; cbn [length]; lia).
      rewrite ListFacts.nth_error_app_here, ListFacts.replaceAt_middle.
      rewrite (IH Hlast Hrange' rounds _ (done ++ [b]) (FileBlock.setExtraOffset nxt 0)
                  blocks' (acc ++ da)).
      * rewrite <- !app_assoc. reflexivity.
      * reflexivity.
      * cbn [map] in *. exact Hrestoffs.
      * reflexivity.
      * reflexivity.
      * cbn [length] in Hrounds. lia.
    + rewrite readLoop_done by lia. cbn [snd].
      assert (Hnil : db ++ d2 = [])
        by (destruct (db ++ d2); [reflexivity|cbn [length] in Hnone; lia]).
      apply app_eq_nil in Hnil as [-> ->]. rewrite !app_nil_r. reflexivity.
Qed.

Lemma open_append_spec (img : Host.image) (front : list Z) (l : Z) (d1 d2 : list byte) :
  chain img N front l d1 d2 -> Z.of_nat (length d2) < payloadCapacity ->
  exists e,
    FileEntry.open img N (hd l front) FileEntry.Append = inr e /\
    appending img N e front l d1 d2.
Proof.
  intros Hchain Hroom. pose proof (chain_length img front l d1 d2 Hchain) as Hlen.
  pose proof Hchain as [Hrange _ Hnd Hseg Hlast _].
  unfold FileEntry.open.
  rewrite (setBlocks_spec img front l d1 d2 Hseg Hlast (Z.to_nat N) [] Hnd);
    [|intros b []|exact Hlen].
  cbn [app FileEntry.bind FileEntry.ret].
  rewrite (sumBytesWritten_chain img front l d1 d2 Hseg Hlast).
  rewrite map_app. cbn [map].
  replace (length (map (FileBlock.open img N) front ++ [FileBlock.open img N l]) - 1)%nat
    with (length (map (FileBlock.open img N) front))
    by (rewrite length_app; cbn [length]; lia).
  rewrite ListFacts.nth_error_snoc, ListFacts.replaceAt_snoc.
  eexists. split; [reflexivity|].
  destruct Hlast as (Hbw & Hnx & Hpay).
  constructor; cbn [FileEntry.m_totalBlocks FileEntry.m_fileBlocks
                    FileEntry.m_blockIndex FileEntry.m_fileSize FileEntry.m_pos
                    FileEntry.m_startVolumeBlock FileEntry.m_openDisposition].
  - exact Hchain.
  - reflexivity.
  - rewrite map_app, map_map. cbn [map]. f_equal.
    rewrite <- (map_id front) at 2. apply map_ext. intros i.
    rewrite FileBlockFacts.open_eq. reflexivity.
  - apply length_map.
  - eexists. split.
    + rewrite <- (length_map (FileBlock.open img N) front).
      apply ListFacts.nth_error_snoc.
    + unfold FileBlock.setExtraOffset, FileBlock.getDataBytesWritten.
      rewrite FileBlockFacts.open_eq.
      cbn [FileBlock.m_offset FileBlock.m_totalBlocks FileBlock.m_bytesWritten].
      split; [reflexivity|]. split; [reflexivity|exact Hbw].
  - exact Hroom.
  - reflexivity.
  - reflexivity.
  - reflexivity.
  - discriminate.
Qed.

End WithImage.
End ChainFacts.

(** ** File entries *)

Module FileEntryFacts.
Import Chain.
Section WithGeometry.
Context {G : Geometry}.

Lemma writeAll_spec (N : Z) (Hfit : image_fits N) (ws : list (list byte)) :
  forall (img : Host.image) (e : FileEntry.t) (front : list Z) (l : Z)
         (d1 d2 : list byte) (e' : FileEntry.t) (img' : Host.image),
    appending img N e front l d1 d2 ->
    FileEntry.writeAll e img ws = inr (e', img') ->
    exists front' l' d1' d2',
      appending img' N e' front' l' d1' d2' /\
      d1' ++ d2' = d1 ++ d2 ++ concat ws /\
      hd l' front' = hd l front.
Proof.
  induction ws as [|s ws IH]; intros img e front l d1 d2 e' img' Happ Hrun.
  - cbn [FileEntry.writeAll FileEntry.ret] in Hrun. injection Hrun as <- <-.
    exists front, l, d1, d2. cbn [concat]. rewrite !app_nil_r. auto.
  - cbn [FileEntry.writeAll] in Hrun.
    destruct (ChainFacts.write_spec N Hfit s img e front l d1 d2 Happ)
      as [(e1 & img1 & front1 & l1 & da & db & Hw & Happ1 & Hdata & Hhd & _)|(Hw & _)];
      rewrite Hw in Hrun; cbn [FileEntry.bind] in Hrun; [|discriminate Hrun].
    destruct (IH img1 e1 front1 l1 da db e' img' Happ1 Hrun)
      as (front' & l' & d1' & d2' & Happ' & Hdata' & Hhd').
    exists front', l', d1', d2'. split; [exact Happ'|]. split; [|congruence].
    rewrite Hdata'. cbn [concat]. rewrite (app_assoc da), Hdata, <- !app_assoc.
    reflexivity.
Qed.

(** C1.  For every byte string [s] and every new file entry in an image with
    enough free blocks (at most the root's block in use and
    [N >= ceil(|s|/P) + 2]): writing [s] through the entry's [write],
    flushing, and reading [fileSize] bytes back from an entry re-opened on the
    same start block yields exactly [s]. *)
Theorem write_then_read_back (img : Host.image) (N : Z) (s : list byte) :
  image_fits N ->
  (Bitmap.countUsed img N <= 1)%nat ->
  (Z.of_nat (length s) + payloadCapacity - 1) / payloadCapacity + 2 <= N ->
  FileEntry.writeThenReadBack img N s = inr s.
Proof.
  intros Hfit Hused HN.
  pose proof payloadCapacity_range as HP.
  pose proof (BitmapFacts.count_total img N (proj1 Hfit)) as Htotal.
  assert (Hceil : Z.of_nat (length s) / payloadCapacity
                  <= (Z.of_nat (length s) + payloadCapacity - 1) / payloadCapacity)
    by (apply Z.div_le_mono; lia).
  assert (Hdiv0 : 0 <= Z.of_nat (length s) / payloadCapacity)
    by (apply Z.div_pos; lia).
  unfold FileEntry.writeThenReadBack.
  destruct (ChainFacts.create_spec N Hfit img)
    as [[Hcf _]|(e & img1 & k & Hcreate & Happ & Hcount)]; [lia|].
  rewrite Hcreate. cbn [FileEntry.bind].
  destruct (ChainFacts.write_spec N Hfit s img1 e [] k [] [] Happ)
    as [(e2 & img2 & front & l & d1 & d2 & Hw & Happ2 & Hdata & Hhd & _)|(_ & Hc)];
    [|cbn [length Z.of_nat] in Hc; rewrite Z.add_0_l in Hc; lia].
  rewrite Hw. cbn [FileEntry.bind FileEntry.flush].
  unfold FileEntry.getStartVolumeBlockIndex.
  rewrite (app_start _ _ _ _ _ _ _ Happ2).
  pose proof (app_chain _ _ _ _ _ _ _ Happ2) as Hchain.
  rewrite (ChainFacts.open_read_spec N img2 front l d1 d2 Hchain).
  cbn [FileEntry.bind]. unfold FileEntry.read, FileEntry.fileSize.
  cbn [FileEntry.m_fileSize FileEntry.m_pos FileEntry.m_fileBlocks].
  rewrite Z.sub_0_r, Z.min_id.
  destruct Hchain as [Hrange _ _ Hseg Hlast Hfill].
  destruct (map (FileBlock.open img2 N) (front ++ [l])) as [|b blocks] eqn:Hmap.
  { apply (f_equal (@length _)) in Hmap.
    rewrite length_map, length_app in Hmap. cbn [length] in Hmap. lia. }
  assert (Hoffs : map FileBlock.m_offset (b :: blocks)
                  = map (fun i => getOffsetOfFileBlock i N) (front ++ [l])).
  { rewrite <- Hmap, map_map. apply map_ext. intros i.
    rewrite FileBlockFacts.open_eq. reflexivity. }
  assert (Heo : FileBlock.m_extraOffset b = 0).
  { destruct front; cbn [app map] in Hmap; injection Hmap as <- _;
      rewrite FileBlockFacts.open_eq; reflexivity. }
  assert (Hrounds : (length front < length (b :: blocks))%nat).
  { rewrite <- Hmap, length_map, length_app. cbn [length]. lia. }
  pose proof (ChainFacts.readLoop_chain N Hfit img2 front l d1 d2 Hseg Hlast Hfill Hrange
                (length (b :: blocks))
                (FileEntry.mk N (Z.of_nat (length (d1 ++ d2))) (b :: blocks)
                              (hd l front) 0 FileEntry.Read 0)
                [] b blocks [] eq_refl Hoffs Heo eq_refl Hrounds) as Hread.
  destruct (FileEntry.readLoop _ _ _ _ _) as [e3 bytes].
  cbn [snd app] in Hread. rewrite Hread, Hdata. reflexivity.
Qed.

Lemma createWriteAllFlush_spec (N : Z) (Hfit : image_fits N) (img : Host.image)
      (ws : list (list byte)) (e : FileEntry.t) (img' : Host.image) :
  FileEntry.createWriteAllFlush img N ws = inr (e, img') ->
  exists front l d1 d2,
    appending img' N e front l d1 d2 /\ d1 ++ d2 = concat ws.
Proof.
  intros Hrun. unfold FileEntry.createWriteAllFlush in Hrun.
  destruct (ChainFacts.create_spec N Hfit img)
    as [[_ Hcreate]|(e0 & img0 & k & Hcreate & Happ & _)];
    rewrite Hcreate in Hrun; cbn [FileEntry.bind] in Hrun; [discriminate Hrun|].
  destruct (FileEntry.writeAll e0 img0 ws) as [err|[e1 img1]] eqn:Hall;
    cbn [FileEntry.bind FileEntry.ret FileEntry.flush] in Hrun; [discriminate Hrun|].
  injection Hrun as <- <-.
  destruct (writeAll_spec N Hfit ws img0 e0 [] k [] [] e1 img1 Happ Hall)
    as (front & l & d1 & d2 & Happ1 & Hdata & _).
  exists front, l, d1, d2. split; [exact Happ1|exact Hdata].
Qed.

Lemma reopenAndAppend_spec (N : Z) (Hfit : image_fits N) (runs : list (list (list byte))) :
  forall (img : Host.image) (e : FileEntry.t) (front : list Z) (l : Z)
         (d1 d2 : list byte) (e' : FileEntry.t) (img' : Host.image),
    appending img N e front l d1 d2 ->
    FileEntry.reopenAndAppend e img runs = inr (e', img') ->
    exists front' l' d1' d2',
      appending img' N e' front' l' d1' d2' /\
      d1' ++ d2' = d1 ++ d2 ++ concat (concat runs).
Proof.
  induction runs as [|ws runs IH]; intros img e front l d1 d2 e' img' Happ Hrun.
  - cbn [FileEntry.reopenAndAppend FileEntry.ret] in Hrun. injection Hrun as <- <-.
    exists front, l, d1, d2. cbn [concat]. rewrite !app_nil_r. auto.
  - cbn [FileEntry.reopenAndAppend] in Hrun.
    unfold FileEntry.getStartVolumeBlockIndex in Hrun.
    rewrite (app_total _ _ _ _ _ _ _ Happ), (app_start _ _ _ _ _ _ _ Happ) in Hrun.
    destruct (ChainFacts.open_append_spec N img front l d1 d2
                (app_chain _ _ _ _ _ _ _ Happ) (app_room _ _ _ _ _ _ _ Happ))
      as (e0 & Hopen & Happ0).
    rewrite Hopen in Hrun. cbn [FileEntry.bind] in Hrun.
    destruct (FileEntry.writeAll e0 img ws) as [err|[e1 img1]] eqn:Hall;
      cbn [FileEntry.bind FileEntry.flush] in Hrun; [discriminate Hrun|].
    destruct (writeAll_spec N Hfit ws img e0 front l d1 d2 e1 img1 Happ0 Hall)
      as (front1 & l1 & da & db & Happ1 & Hdata1 & _).
    destruct (IH img1 e1 front1 l1 da db e' img' Happ1 Hrun)
      as (front' & l' & d1' & d2' & Happ' & Hdata').
    exists front', l', d1', d2'. split; [exact Happ'|].
    rewrite Hdata'. cbn [concat]. rewrite concat_app.
    rewrite (app_assoc da), Hdata1, <- !app_assoc. reflexivity.
Qed.

(** C4, for the appends of the file entry.  After any sequence of appends
    through the file entry, on a new entry and then on the entry re-opened
    for appending any number of times, each run closed by a flush (every block
    write goes to the last block of the chain, and [setNext] is called on it
    only to link a newly allocated block), the chain of the file, walked on
    disk from its start block, is the list of blocks the entry holds; exactly
    one of its blocks has a [next] field equal to its own index, and that
    block is the last of the chain. *)
Theorem chain_ends_in_one_self_loop (img : Host.image) (N : Z) (ws : list (list byte))
        (runs : list (list (list byte))) (e : FileEntry.t) (img' : Host.image) :
  image_fits N ->
  FileEntry.appendRuns img N ws runs = inr (e, img') ->
  lastAloneSelfLoops img' N (map FileBlock.m_index (FileEntry.m_fileBlocks e)) /\
  exists e2,
    FileEntry.open img' N (FileEntry.getStartVolumeBlockIndex e) FileEntry.Read = inr e2 /\
    map FileBlock.m_index (FileEntry.m_fileBlocks e2)
    = map FileBlock.m_index (FileEntry.m_fileBlocks e).
Proof.
  intros Hfit Hrun. unfold FileEntry.appendRuns in Hrun.
  destruct (FileEntry.createWriteAllFlush img N ws) as [err|[e0 img0]] eqn:Hfirst;
    cbn [FileEntry.bind] in Hrun; [discriminate Hrun|].
  destruct (createWriteAllFlush_spec N Hfit img ws e0 img0 Hfirst)
    as (front0 & l0 & da & db & Happ0 & _).
  destruct (reopenAndAppend_spec N Hfit runs img0 e0 front0 l0 da db e img' Happ0 Hrun)
    as (front & l & d1 & d2 & Happ1 & _).
  pose proof (app_chain _ _ _ _ _ _ _ Happ1) as Hchain.
  rewrite (app_indices _ _ _ _ _ _ _ Happ1).
  split; [apply (ChainFacts.chain_lastAloneSelfLoops N img' front l d1 d2 Hchain)|].
  unfold FileEntry.getStartVolumeBlockIndex.
  rewrite (app_start _ _ _ _ _ _ _ Happ1).
  rewrite (ChainFacts.open_read_spec N img' front l d1 d2 Hchain).
  eexists. split; [reflexivity|].
  cbn [FileEntry.m_fileBlocks]. rewrite map_map.
  rewrite <- (map_id (front ++ [l])) at 2. apply map_ext.
  intros i. rewrite FileBlockFacts.open_eq. reflexivity.
Qed.

End WithGeometry.
End FileEntryFacts.

(** *** Instances on the scenarios of the spec ([B = 512]) *)

Module FileEntryExamples.
#[local] Existing Instance Geometry512.

Lemma image_fits_2048 : image_fits 2048.
Proof. split; [lia|vm_compute; reflexivity]. Qed.

(** Scenario 1: an image of 2048 blocks whose block 0 belongs to the root
    folder, and 1137 octets of data, which take three blocks. *)
Lemma write_then_read_back_witness :
  FileEntry.writeThenReadBack
    (Bitmap.markUsed Host.blank 0 2048) 2048
    (map (fun i => Bytes.byte_of_Z (7 * Z.of_nat i + 3)) (seq 0 1137))
  = inr (map (fun i => Bytes.byte_of_Z (7 * Z.of_nat i + 3)) (seq 0 1137)).
Proof.
  apply (FileEntryFacts.write_then_read_back
           (Bitmap.markUsed Host.blank 0 2048) 2048
           (map (fun i => Bytes.byte_of_Z (7 * Z.of_nat i + 3)) (seq 0 1137))).
  - exact image_fits_2048.
  - vm_compute. apply le_n.
  - vm_compute. discriminate.
Defined.

(** Two appends, of 600 and of 10 octets, on a new entry of a 16-block image,
    and 5 more octets after re-opening it for appending: the chain is blocks 1
    and 2, and only block 2 points to itself. *)
Lemma chain_ends_in_one_self_loop_witness :
  match FileEntry.appendRuns
          (Bitmap.markUsed Host.blank 0 16) 16
          [repeat "a"%byte 600; repeat "b"%byte 10] [[repeat "c"%byte 5]] with
  | inr (e, img') =>
      Chain.lastAloneSelfLoops img' 16
        (map FileBlock.m_index (FileEntry.m_fileBlocks e))
  | inl _ => False
  end.
Proof.
  destruct (FileEntry.appendRuns
              (Bitmap.markUsed Host.blank 0 16) 16
              [repeat "a"%byte 600; repeat "b"%byte 10] [[repeat "c"%byte 5]])
    as [err|[e img']] eqn:Hrun.
  - vm_compute in Hrun. discriminate Hrun.
  - apply (FileEntryFacts.chain_ends_in_one_self_loop
             (Bitmap.markUsed Host.blank 0 16) 16
             [repeat "a"%byte 600; repeat "b"%byte 10] [[repeat "c"%byte 5]] e img'
             FileBlockExamples.image_fits_16 Hrun).
Defined.

(** C4 as stated fails for block calls outside the append discipline.  Blocks
    1 and 2 form the chain of a file of 505 octets (block 1 full, block 2
    last).  A block write of 3 octets at intra-block offset 10 of block 1 makes
    block 1 point to itself: two blocks of the file now have [next] equal to
    their own index. *)
Lemma block_write_adds_a_self_loop :
  let '(b1, img) := FileBlock.new Host.blank 16 1 2 in
  let '(b1, img, _) := FileBlock.write b1 img (repeat "a"%byte 500) 500 in
  let '(b2, img) := FileBlock.new img 16 2 2 in
  let '(b2, img, _) := FileBlock.write b2 img (repeat "b"%byte 5) 5 in
  let '(_, img', _) :=
    FileBlock.write (FileBlock.setExtraOffset b1 10) img ["x"; "y"; "z"]%byte 3 in
  Chain.lastAloneSelfLoops img 16 [1; 2] /\
  ~ Chain.lastAloneSelfLoops img' 16 [1; 2] /\
  FileBlock.diskNext img' (getOffsetOfFileBlock 1 16) = 1 /\
  FileBlock.diskNext img' (getOffsetOfFileBlock 2 16) = 2.
Proof.
  cbn -[Host.pwrite Chain.lastAloneSelfLoops FileBlock.diskNext getOffsetOfFileBlock
        Bytes.convertInt32ToInt4Array Bytes.convertUInt64ToInt8Array Bytes.wrap32
        Bytes.wrap64 repeat firstn].
  split; [|split; [|split]].
  - exists [1], 2. split; [reflexivity|]. split; [vm_compute; reflexivity|].
    constructor; [|constructor]. vm_compute. discriminate.
  - intros (front & l & Heq & _ & Hall).
    change [1; 2] with ([1] ++ [2]) in Heq.
    apply app_inj_tail in Heq as [<- <-].
    inversion Hall as [|? ? Hne _]; subst. apply Hne. vm_compute. reflexivity.
  - vm_compute. reflexivity.
  - vm_compute. reflexivity.
Qed.

End FileEntryExamples.

(* ------------------------------------------------------------------------- *)
(** * Further properties of the code *)

(** ** File blocks: what the header and the payload keep *)

Module FileBlockMore.
Import FileBlock.
Section WithGeometry.
Context {G : Geometry}.

(** Outside its header, the block after a write is the image with the
    payload octets stored. *)
Lemma write_outside_header (b : t) (img : Host.image) (buf : list byte) (n : Z) :
  placed b -> m_extraOffset b <= payloadCapacity ->
  forall a,
    a < m_offset b \/ m_offset b + 12 <= a ->
    snd (fst (write b img buf n)) a =
    Host.pwrite img (m_offset b + 12 + m_extraOffset b) (firstn (Z.to_nat n) buf) a.
Proof.
  intros (Hidx & Heo & Hoff0 & Hoff) Heo' a Ha.
  pose proof FILE_BLOCK_SIZE_range as HB.
  unfold payloadCapacity, FILE_BLOCK_META in *.
  rewrite FileBlockFacts.write_eq. cbv zeta. unfold FILE_BLOCK_META.
  rewrite (FileBlockFacts.wrap64_small (m_offset b + 12 + m_extraOffset b)) by lia.
  destruct ((n <? FILE_BLOCK_SIZE - 12) || (0 <? m_extraOffset b)); cbn [fst snd].
  - rewrite HostFacts.pwrite_outside
      by (rewrite FileBlockFacts.length_convertUInt64; lia).
    apply HostFacts.pwrite_outside. rewrite FileBlockFacts.length_convertInt32. lia.
  - apply HostFacts.pwrite_outside. rewrite FileBlockFacts.length_convertInt32. lia.
Qed.

Lemma write_fields (b : t) (img : Host.image) (buf : list byte) (n : Z) :
  m_offset (fst (fst (write b img buf n))) = m_offset b /\
  m_extraOffset (fst (fst (write b img buf n))) = m_extraOffset b /\
  m_index (fst (fst (write b img buf n))) = m_index b /\
  m_totalBlocks (fst (fst (write b img buf n))) = m_totalBlocks b /\
  m_bytesWritten (fst (fst (write b img buf n)))
  = Bytes.wrap32 (m_bytesWritten b + Bytes.wrap32 n) /\
  snd (write b img buf n) = n.
Proof.
  rewrite FileBlockFacts.write_eq. cbv zeta.
  destruct ((n <? FILE_BLOCK_SIZE - FILE_BLOCK_META) || (0 <? m_extraOffset b));
    cbn; repeat split; reflexivity.
Qed.

Lemma pread_inside_pwrite (img : Host.image) (pos : Z) (bs : list byte) (k m : nat) :
  (k + m <= length bs)%nat ->
  Host.pread (Host.pwrite img pos bs) (pos + Z.of_nat k) m = firstn m (skipn k bs).
Proof.
  intros Hlen. apply nth_ext with (d := x00) (d' := x00).
  - rewrite HostFacts.length_pread, length_firstn, length_skipn. lia.
  - intros i Hi. rewrite HostFacts.length_pread in Hi.
    rewrite HostFacts.nth_pread by exact Hi.
    rewrite HostFacts.pwrite_inside by lia.
    rewrite nth_firstn.
    destruct (Nat.ltb_spec i m) as [_|?]; [|lia].
    rewrite nth_skipn. f_equal. lia.
Qed.

(** X1.  What [write] stores is what [read] returns: after [write(buf, n)]
    on a block, [read] of [n] octets on the same block, at the same
    intra-block offset, fills the buffer with the first [n] octets of [buf]
    and returns [n]; the header that [write] updates after the payload does
    not reach into it. *)
Theorem write_then_read (b : t) (img : Host.image) (buf : list byte) (n : Z) :
  placed b -> m_extraOffset b <= payloadCapacity ->
  0 <= n <= Z.of_nat (length buf) ->
  let '(b', img', _) := write b img buf n in
  let '(_, _, out, r) := read b' img' (repeat x00 (Z.to_nat n)) n in
  out = firstn (Z.to_nat n) buf /\ r = n.
Proof.
  intros Hplaced Heo Hn.
  pose proof (write_outside_header b img buf n Hplaced Heo) as Himg.
  pose proof (write_fields b img buf n) as (Hoff & Heo' & _).
  destruct (write b img buf n) as [[b' img'] r']. cbn [fst snd] in *.
  rewrite FileBlockFacts.read_eq, Hoff, Heo'.
  destruct Hplaced as (_ & Heo0 & Hoff0 & Hoff63).
  pose proof FILE_BLOCK_SIZE_range as HB.
  unfold payloadCapacity, FILE_BLOCK_META in *.
  rewrite FileBlockFacts.wrap64_small by lia.
  rewrite skipn_all2 by (rewrite repeat_length; lia).
  rewrite app_nil_r. split; [|reflexivity].
  rewrite (HostFacts.pread_ext
             (Host.pwrite img (m_offset b + 12 + m_extraOffset b)
                          (firstn (Z.to_nat n) buf)))
    by (intros a Ha; apply Himg; lia).
  pose proof (HostFacts.pread_pwrite_same img (m_offset b + 12 + m_extraOffset b)
                (firstn (Z.to_nat n) buf)) as Hsame.
  rewrite length_firstn, Nat.min_l in Hsame by lia. exact Hsame.
Qed.

(** X2.  [write] touches the header of its block and the [n] octets at the
    intra-block offset, nothing else: the payload in front of the offset and
    everything behind the written octets stay as they were, and when the
    write ends inside the payload ([extraOffset + n <= P]) no octet outside
    the [B] octets of the block changes. *)
Theorem write_touches_header_and_window (b : t) (img : Host.image)
        (buf : list byte) (n : Z) :
  placed b -> m_extraOffset b <= payloadCapacity -> 0 <= n ->
  let img' := snd (fst (write b img buf n)) in
  (forall a, m_offset b + 12 <= a < m_offset b + 12 + m_extraOffset b -> img' a = img a) /\
  (forall a, a < m_offset b \/ m_offset b + 12 + m_extraOffset b + n <= a ->
             img' a = img a) /\
  (m_extraOffset b + n <= payloadCapacity ->
   forall a, a < m_offset b \/ m_offset b + FILE_BLOCK_SIZE <= a -> img' a = img a).
Proof.
  intros Hplaced Heo Hn. cbv zeta.
  pose proof (write_outside_header b img buf n Hplaced Heo) as Himg.
  destruct Hplaced as (_ & Heo0 & Hoff0 & Hoff63).
  pose proof FILE_BLOCK_SIZE_range as HB.
  assert (Hlen : Z.of_nat (length (firstn (Z.to_nat n) buf)) <= n)
    by (rewrite length_firstn; lia).
  unfold payloadCapacity, FILE_BLOCK_META in *.
  split; [|split].
  - intros a Ha. rewrite Himg by lia. apply HostFacts.pwrite_outside. lia.
  - intros a Ha. rewrite Himg by lia. apply HostFacts.pwrite_outside. lia.
  - intros Hin a Ha. rewrite Himg by lia. apply HostFacts.pwrite_outside. lia.
Qed.

(** X3.  [write] does not bound [n] by the room left in the payload: when
    [extraOffset + n] exceeds [P], the octets of [buf] from index
    [P - extraOffset] on land behind the block, and with four or more of them
    the [bytesWritten] field of the block that follows in the image is
    replaced by payload octets. *)
Theorem write_overflows_into_next_block (b : t) (img : Host.image)
        (buf : list byte) (n N i : Z) :
  image_fits N -> 0 <= i -> i + 1 < N ->
  placed b -> m_offset b = getOffsetOfFileBlock i N ->
  m_extraOffset b <= payloadCapacity ->
  payloadCapacity - m_extraOffset b + 4 <= n <= Z.of_nat (length buf) ->
  let img' := snd (fst (write b img buf n)) in
  img' (getOffsetOfFileBlock (i + 1) N)
  = nth (Z.to_nat (payloadCapacity - m_extraOffset b)) buf x00 /\
  diskBytesWritten img' (getOffsetOfFileBlock (i + 1) N)
  = Bytes.convertInt4ArrayToInt32
      (firstn 4 (skipn (Z.to_nat (payloadCapacity - m_extraOffset b)) buf)).
Proof.
  intros Hfit Hi HiN Hplaced Hoffi Heo Hn. cbv zeta.
  pose proof (write_outside_header b img buf n Hplaced Heo) as Himg.
  destruct Hplaced as (_ & Heo0 & Hoff0 & Hoff63).
  pose proof FILE_BLOCK_SIZE_range as HB.
  assert (Hnext : getOffsetOfFileBlock (i + 1) N = m_offset b + FILE_BLOCK_SIZE).
  { rewrite Hoffi, !getOffsetOfFileBlock_exact by (assumption || lia). lia. }
  rewrite Hnext.
  unfold payloadCapacity, FILE_BLOCK_META in *.
  set (k := Z.to_nat (FILE_BLOCK_SIZE - 12 - m_extraOffset b)).
  assert (Hk : m_offset b + FILE_BLOCK_SIZE
               = m_offset b + 12 + m_extraOffset b + Z.of_nat k) by (unfold k; lia).
  assert (Hchunk : length (firstn (Z.to_nat n) buf) = Z.to_nat n)
    by (rewrite length_firstn; lia).
  assert (Hread : Host.pread (snd (fst (write b img buf n)))
                             (m_offset b + FILE_BLOCK_SIZE) 4
                  = firstn 4 (skipn k buf)).
  { rewrite (HostFacts.pread_ext
               (Host.pwrite img (m_offset b + 12 + m_extraOffset b)
                            (firstn (Z.to_nat n) buf)))
      by (intros a Ha; apply Himg; lia).
    rewrite Hk, pread_inside_pwrite by (rewrite Hchunk; unfold k; lia).
    rewrite skipn_firstn_comm, firstn_firstn.
    f_equal. unfold k. lia. }
  split.
  - pose proof (f_equal (fun l => nth 0 l x00) Hread) as H0. cbv beta in H0.
    rewrite HostFacts.nth_pread in H0 by lia.
    rewrite Z.add_0_r in H0. rewrite H0.
    rewrite nth_firstn. cbn [Nat.ltb Nat.leb].
    rewrite nth_skipn. f_equal. lia.
  - unfold diskBytesWritten. rewrite Hread. reflexivity.
Qed.

(** X4.  The header on disk is the state of the block: after [write] of
    [n >= 0] octets on a block whose [next] agrees with its header, the
    reading constructor on the same index yields the block that [write] left,
    with [bytesWritten] as its initial count and the intra-block offset back
    at 0. *)
Theorem write_then_open (b : t) (img : Host.image) (buf : list byte) (n : Z) :
  placed b -> m_extraOffset b <= payloadCapacity -> 0 <= n ->
  m_offset b = getOffsetOfFileBlock (m_index b) (m_totalBlocks b) ->
  diskNext img (m_offset b) = m_next b ->
  let '(b', img', _) := write b img buf n in
  open img' (m_totalBlocks b) (m_index b)
  = mk (m_totalBlocks b') (m_index b') (m_bytesWritten b') (m_bytesWritten b')
       (m_next b') (m_offset b') 0.
Proof.
  intros (Hidx & Heo0 & Hoff0 & Hoff63) Heo Hn Hoff Hsync.
  pose proof FILE_BLOCK_SIZE_range as HB.
  unfold payloadCapacity, FILE_BLOCK_META in *.
  rewrite FileBlockFacts.write_eq. cbv zeta. unfold FILE_BLOCK_META.
  rewrite (FileBlockFacts.wrap64_small (m_offset b + 12 + m_extraOffset b)) by lia.
  set (bw := Bytes.wrap32 (m_bytesWritten b + Bytes.wrap32 n)).
  assert (Hbw : Bytes.wrap32 bw = bw)
    by (unfold bw, Bytes.wrap32; apply Z.mod_mod; lia).
  destruct ((n <? FILE_BLOCK_SIZE - 12) || (0 <? m_extraOffset b)) eqn:Hc;
    rewrite FileBlockFacts.open_eq, <- Hoff;
    cbn [m_totalBlocks m_index m_bytesWritten m_next m_offset].
  - rewrite FileBlockFacts.diskNext_written, (FileBlockFacts.wrap64_small (m_index b))
      by exact Hidx.
    rewrite (FileBlockFacts.diskBytesWritten_ext
               (Host.pwrite
                  (Host.pwrite img (m_offset b + 12 + m_extraOffset b)
                               (firstn (Z.to_nat n) buf))
                  (m_offset b) (Bytes.convertInt32ToInt4Array bw)))
      by (intros a Ha; apply HostFacts.pwrite_outside;
          rewrite FileBlockFacts.length_convertUInt64; lia).
    rewrite FileBlockFacts.diskBytesWritten_written, Hbw. reflexivity.
  - apply orb_false_iff in Hc as [_ Hc2]. apply Z.ltb_ge in Hc2.
    rewrite FileBlockFacts.diskBytesWritten_written, Hbw.
    rewrite (FileBlockFacts.diskNext_ext img), Hsync; [reflexivity|].
    intros a Ha.
    rewrite HostFacts.pwrite_outside
      by (rewrite FileBlockFacts.length_convertInt32; lia).
    apply HostFacts.pwrite_outside. lia.
Qed.

(** X5.  The reading constructor recovers what the writing constructor
    stored: on the image that [FileBlock(imagePath, totalBlocks, index, next)]
    leaves, [FileBlock(imagePath, totalBlocks, index)] is the same block, with
    no octets written and the given [next]. *)
Theorem new_then_open (img : Host.image) (N index next : Z) :
  0 <= next < 2 ^ 64 ->
  open (snd (new img N index next)) N index = fst (new img N index next).
Proof.
  intros Hnext. rewrite FileBlockFacts.new_eq. cbn [fst snd].
  rewrite FileBlockFacts.open_eq.
  rewrite FileBlockFacts.diskNext_written, (FileBlockFacts.wrap64_small next) by exact Hnext.
  rewrite (FileBlockFacts.diskBytesWritten_ext
             (Host.pwrite img (getOffsetOfFileBlock index N)
                          (Bytes.convertInt32ToInt4Array 0)))
    by (intros a Ha; apply HostFacts.pwrite_outside;
        rewrite FileBlockFacts.length_convertUInt64; lia).
  rewrite FileBlockFacts.diskBytesWritten_written. reflexivity.
Qed.

(** X6.  [setNext] overwrites the eight octets of the [next] field and
    nothing else: the field reads back as the index given, in memory and on
    disk, [bytesWritten] and every octet outside the field are as before, and
    a later [setNext] leaves the image that it alone would have left. *)
Theorem setNext_overwrites_next_only (b : t) (img : Host.image) (k k' : Z) :
  placed b -> 0 <= k < 2 ^ 64 ->
  let '(b1, img1) := setNext b img k in
  m_next b1 = k /\ diskNext img1 (m_offset b) = k /\
  diskBytesWritten img1 (m_offset b) = diskBytesWritten img (m_offset b) /\
  (forall a, a < m_offset b + 4 \/ m_offset b + 12 <= a -> img1 a = img a) /\
  (forall a, snd (setNext b1 img1 k') a = snd (setNext b img k') a).
Proof.
  intros (Hidx & Heo0 & Hoff0 & Hoff63) Hk.
  pose proof FILE_BLOCK_SIZE_range as HB.
  rewrite FileBlockFacts.setNext_eq.
  rewrite (FileBlockFacts.wrap64_small (m_offset b + 4)) by lia.
  assert (Hout : forall a, a < m_offset b + 4 \/ m_offset b + 12 <= a ->
            Host.pwrite img (m_offset b + 4) (Bytes.convertUInt64ToInt8Array k) a = img a).
  { intros a Ha. apply HostFacts.pwrite_outside.
    rewrite FileBlockFacts.length_convertUInt64. lia. }
  split; [reflexivity|]. split.
  { rewrite FileBlockFacts.diskNext_written. apply FileBlockFacts.wrap64_small. exact Hk. }
  split.
  { apply FileBlockFacts.diskBytesWritten_ext. intros a Ha. apply Hout. lia. }
  split; [exact Hout|].
  intros a. rewrite !FileBlockFacts.setNext_eq. cbn [m_offset fst snd].
  rewrite (FileBlockFacts.wrap64_small (m_offset b + 4)) by lia.
  destruct (Z.leb_spec (m_offset b + 4) a); destruct (Z.ltb_spec a (m_offset b + 12)).
  - rewrite !HostFacts.pwrite_inside
      by (rewrite FileBlockFacts.length_convertUInt64; lia). reflexivity.
  - rewrite !HostFacts.pwrite_outside
      by (rewrite FileBlockFacts.length_convertUInt64; lia). reflexivity.
  - rewrite !HostFacts.pwrite_outside
      by (rewrite FileBlockFacts.length_convertUInt64; lia). reflexivity.
  - lia.
Qed.

(** X7.  Reads are local: [read] of [n] octets at intra-block offset [o]
    returns the octets that a [read] of [o + n] octets from the start of the
    payload returns behind its first [o]. *)
Theorem read_is_local (b : t) (img : Host.image) (o n : Z) :
  0 <= m_offset b -> m_offset b + FILE_BLOCK_SIZE <= 2 ^ 63 ->
  0 <= o -> 0 <= n -> o + n <= payloadCapacity ->
  let '(_, _, out, _) :=
    read (setExtraOffset b o) img (repeat x00 (Z.to_nat n)) n in
  let '(_, _, whole, _) :=
    read (setExtraOffset b 0) img (repeat x00 (Z.to_nat (o + n))) (o + n) in
  out = skipn (Z.to_nat o) whole.
Proof.
  intros Hoff0 Hoff63 Ho Hn Hin.
  pose proof FILE_BLOCK_SIZE_range as HB.
  unfold payloadCapacity, FILE_BLOCK_META in *.
  rewrite !FileBlockFacts.read_eq. unfold setExtraOffset. cbn [m_offset m_extraOffset].
  unfold FILE_BLOCK_META.
  rewrite !FileBlockFacts.wrap64_small by lia.
  rewrite (skipn_all2 (repeat x00 (Z.to_nat n))) by (rewrite repeat_length; lia).
  rewrite (skipn_all2 (repeat x00 (Z.to_nat (o + n)))) by (rewrite repeat_length; lia).
  rewrite !app_nil_r, Z.add_0_r.
  replace (Z.to_nat (o + n)) with (Z.to_nat o + Z.to_nat n)%nat by lia.
  rewrite HostFacts.pread_app, skipn_app, HostFacts.length_pread, Nat.sub_diag.
  rewrite skipn_all2 by (rewrite HostFacts.length_pread; lia).
  cbn [skipn app]. f_equal. lia.
Qed.

End WithGeometry.
End FileBlockMore.

Module FileBlockMoreExamples.
Import FileBlock.
#[local] Existing Instance Geometry512.

Ltac by_computation := repeat split; vm_compute; (reflexivity || discriminate).

Lemma image_fits_sixteen : image_fits 16.
Proof. split; [lia|vm_compute; reflexivity]. Qed.

(** Block 1 of a 16-block image, holding 10 octets, written at their end. *)
Lemma write_then_read_witness :
  let b := mk 16 1 10 10 1 (getOffsetOfFileBlock 1 16) 10 in
  let '(b', img', _) := write b Host.blank ["x"; "y"; "z"]%byte 3 in
  let '(_, _, out, r) := read b' img' (repeat x00 (Z.to_nat 3)) 3 in
  out = firstn (Z.to_nat 3) ["x"; "y"; "z"]%byte /\ r = 3.
Proof.
  apply (FileBlockMore.write_then_read
           (mk 16 1 10 10 1 (getOffsetOfFileBlock 1 16) 10) Host.blank
           ["x"; "y"; "z"]%byte 3); by_computation.
Defined.

Lemma write_touches_header_and_window_witness :
  let b := mk 16 1 10 10 1 (getOffsetOfFileBlock 1 16) 10 in
  let img' := snd (fst (write b Host.blank ["x"; "y"; "z"]%byte 3)) in
  (forall a, m_offset b + 12 <= a < m_offset b + 12 + m_extraOffset b ->
             img' a = Host.blank a) /\
  (forall a, a < m_offset b \/ m_offset b + 12 + m_extraOffset b + 3 <= a ->
             img' a = Host.blank a) /\
  (m_extraOffset b + 3 <= payloadCapacity ->
   forall a, a < m_offset b \/ m_offset b + FILE_BLOCK_SIZE <= a ->
             img' a = Host.blank a).
Proof.
  apply (FileBlockMore.write_touches_header_and_window
           (mk 16 1 10 10 1 (getOffsetOfFileBlock 1 16) 10) Host.blank
           ["x"; "y"; "z"]%byte 3); by_computation.
Defined.

(** Six octets written two octets before the end of the payload of block 1:
    the last four are the [bytesWritten] field of block 2 afterwards. *)
Lemma write_overflows_into_next_block_witness :
  let b := mk 16 1 498 498 1 (getOffsetOfFileBlock 1 16) 498 in
  let buf := ["a"; "b"; "c"; "d"; "e"; "f"]%byte in
  let img' := snd (fst (write b Host.blank buf 6)) in
  img' (getOffsetOfFileBlock (1 + 1) 16)
  = nth (Z.to_nat (payloadCapacity - m_extraOffset b)) buf x00 /\
  diskBytesWritten img' (getOffsetOfFileBlock (1 + 1) 16)
  = Bytes.convertInt4ArrayToInt32
      (firstn 4 (skipn (Z.to_nat (payloadCapacity - m_extraOffset b)) buf)).
Proof.
  apply (FileBlockMore.write_overflows_into_next_block
           (mk 16 1 498 498 1 (getOffsetOfFileBlock 1 16) 498) Host.blank
           ["a"; "b"; "c"; "d"; "e"; "f"]%byte 6 16 1);
    [exact image_fits_sixteen|by_computation..].
Defined.

(** Block 1 as the writing constructor left it, then 3 octets written. *)
Lemma write_then_open_witness :
  let b := fst (new Host.blank 16 1 1) in
  let img := snd (new Host.blank 16 1 1) in
  let '(b', img', _) := write b img ["x"; "y"; "z"]%byte 3 in
  open img' (m_totalBlocks b) (m_index b)
  = mk (m_totalBlocks b') (m_index b') (m_bytesWritten b') (m_bytesWritten b')
       (m_next b') (m_offset b') 0.
Proof.
  apply (FileBlockMore.write_then_open
           (fst (new Host.blank 16 1 1)) (snd (new Host.blank 16 1 1))
           ["x"; "y"; "z"]%byte 3); by_computation.
Defined.

Lemma new_then_open_witness :
  open (snd (new Host.blank 16 1 2)) 16 1 = fst (new Host.blank 16 1 2).
Proof. apply (FileBlockMore.new_then_open Host.blank 16 1 2). lia. Defined.

Lemma setNext_overwrites_next_only_witness :
  let b := mk 16 1 10 10 1 (getOffsetOfFileBlock 1 16) 0 in
  let '(b1, img1) := setNext b Host.blank 2 in
  m_next b1 = 2 /\ diskNext img1 (m_offset b) = 2 /\
  diskBytesWritten img1 (m_offset b) = diskBytesWritten Host.blank (m_offset b) /\
  (forall a, a < m_offset b + 4 \/ m_offset b + 12 <= a -> img1 a = Host.blank a) /\
  (forall a, snd (setNext b1 img1 3) a = snd (setNext b Host.blank 3) a).
Proof.
  apply (FileBlockMore.setNext_overwrites_next_only
           (mk 16 1 10 10 1 (getOffsetOfFileBlock 1 16) 0) Host.blank 2 3);
    by_computation.
Defined.

Lemma read_is_local_witness :
  let b := mk 16 1 10 10 1 (getOffsetOfFileBlock 1 16) 0 in
  let '(_, _, out, _) :=
    read (setExtraOffset b 4) Host.blank (repeat x00 (Z.to_nat 6)) 6 in
  let '(_, _, whole, _) :=
    read (setExtraOffset b 0) Host.blank (repeat x00 (Z.to_nat (4 + 6))) (4 + 6) in
  out = skipn (Z.to_nat 4) whole.
Proof.
  apply (FileBlockMore.read_is_local
           (mk 16 1 10 10 1 (getOffsetOfFileBlock 1 16) 0) Host.blank 4 6);
    by_computation.
Defined.

End FileBlockMoreExamples.

(** ** The container stream over sequences of calls *)

Module ContainerImageStreamMore.
Import ContainerImageStream StreamRequests.
Section WithTransformer.
Context {T : Cipher.IByteTransformer}.

Lemma step_bad (s : Host.fstream) (ok : Host.image -> Z -> Host.image * Z) :
  Host.badbit s = true -> Host.step s ok = s.
Proof. intros H. unfold Host.step. rewrite H. reflexivity. Qed.


Lemma read_bad (s : t) (buf : list byte) (n : Z) :
  bad s = true ->
  bad (fst (read s buf n)) = true /\ onDisk (fst (read s buf n)) = onDisk s /\
  snd (read s buf n) = buf.
Proof.
  unfold bad, onDisk, Host.bad. intros Hb.
  unfold read, Host.read. rewrite step_bad by exact Hb.
  rewrite Hb. unfold Host.bad. rewrite Hb. cbn. auto.
Qed.

Lemma write_bad (s : t) (buf : list byte) (n : Z) :
  bad s = true ->
  bad (write s buf n) = true /\ onDisk (write s buf n) = onDisk s.
Proof.
  unfold bad, onDisk, Host.bad. intros Hb.
  unfold write, Host.write. rewrite step_bad by exact Hb.
  unfold Host.bad. rewrite Hb. cbn. auto.
Qed.

Lemma serve_bad (s : t) (r : request) :
  bad s = true -> bad (serve s r) = true /\ onDisk (serve s r) = onDisk s.
Proof.
  intros Hb. destruct r as [buf n|buf n|pos|pos|]; cbn [serve].
  - destruct (read_bad s buf n Hb) as (H1 & H2 & _). auto.
  - apply write_bad. exact Hb.
  - unfold bad, onDisk, Host.bad in *. unfold seekg, Host.seekg.
    rewrite step_bad by exact Hb. unfold Host.bad. rewrite Hb. cbn. auto.
  - unfold bad, onDisk, Host.bad in *. unfold seekp, Host.seekp.
    rewrite step_bad by exact Hb. unfold Host.bad. rewrite Hb. cbn. auto.
  - unfold bad, onDisk, flush, Host.flush in *. cbn. auto.
Qed.

(** X8.  Failure is sticky.  Once the host stream is bad, every sequence of
    [read], [write], [seekg], [seekp] and [flush] calls leaves it bad and
    leaves the image as it is, and a [read] hands the caller's buffer back
    untouched; none of the calls clears the state. *)
Theorem bad_is_sticky (s : t) (rs : list request) :
  bad s = true ->
  bad (serveAll s rs) = true /\ onDisk (serveAll s rs) = onDisk s /\
  forall buf n, snd (read (serveAll s rs) buf n) = buf.
Proof.
  intros Hb.
  assert (H : bad (serveAll s rs) = true /\ onDisk (serveAll s rs) = onDisk s).
  { revert s Hb. induction rs as [|r rs IH]; intros s Hb; [split; [exact Hb|reflexivity]|].
    cbn [serveAll fold_left]. destruct (serve_bad s r Hb) as [Hb' Hd'].
    destruct (IH (serve s r) Hb') as [H1 H2]. unfold serveAll in *.
    split; [exact H1|congruence]. }
  destruct H as [H1 H2]. split; [exact H1|]. split; [exact H2|].
  intros buf n. apply read_bad. exact H1.
Qed.






(** X12.  [clear] repairs the host stream, not the positions: after a
    failed [write] and [clear] the stream is good again and the get position
    is as before the write, but [tellp] still answers [-1]; a [write] that
    follows without a [seekp] encrypts for position [-1] and, on success,
    reports [n - 1]. *)
Theorem clear_keeps_positions (s : t) (x y : list byte) (n m : Z) :
  bad (write s x n) = true ->
  let s1 := clear (write s x n) in
  bad s1 = false /\ tellp s1 = -1 /\ tellg s1 = tellg s /\
  m_stream (write s1 y m)
  = Host.write (m_stream s1)
               (Cipher.encrypt (firstn (Z.to_nat m) y) (Cipher.zeros m) (-1) m) m /\
  (bad (write s1 y m) = false -> tellp (write s1 y m) = -1 + m).
Proof.
  intros Hbad. cbv zeta.
  assert (Hp : m_ppos (clear (write s x n)) = -1).
  { unfold bad in Hbad. unfold clear, write in *. cbn [m_ppos].
    destruct (Host.bad (Host.write _ _ _)) eqn:E; cbn [m_stream m_ppos] in *;
      [reflexivity|congruence]. }
  split; [reflexivity|]. split; [exact Hp|]. split.
  { unfold tellg, clear, write. cbn [m_gpos].
    destruct (Host.bad (Host.write _ _ _)); reflexivity. }
  split.
  { rewrite ContainerImageStreamFacts.m_stream_write, Hp. reflexivity. }
  intros Hgood.
  apply ContainerImageStreamFacts.write_good in Hgood as (_ & _ & _ & Hpp & _).
  unfold tellp. rewrite Hpp, Hp. reflexivity.
Qed.

End WithTransformer.

#[local] Existing Instance Cipher.NullByteTransformer.


Lemma bad_is_sticky_witness :
  let s := write (T := Cipher.NullByteTransformer)
                 (new Host.blank [true]) ["b"; "f"; "s"]%byte 3 in
  let rs := [Seekp 0; Write ["b"; "f"; "s"]%byte 3; Flush; Seekg 0; Read [] 3] in
  bad (serveAll (T := Cipher.NullByteTransformer) s rs) = true /\
  onDisk (serveAll (T := Cipher.NullByteTransformer) s rs) = onDisk s /\
  forall buf n,
    snd (read (T := Cipher.NullByteTransformer)
              (serveAll (T := Cipher.NullByteTransformer) s rs) buf n) = buf.
Proof.
  apply (bad_is_sticky (T := Cipher.NullByteTransformer)). reflexivity.
Defined.



Lemma clear_keeps_positions_witness :
  let s := seekp (new Host.blank [false; true]) 5 in
  let s1 := clear (write (T := Cipher.NullByteTransformer) s ["b"; "f"; "s"]%byte 3) in
  bad s1 = false /\ tellp s1 = -1 /\ tellg s1 = tellg s /\
  m_stream (write (T := Cipher.NullByteTransformer) s1 ["x"; "y"]%byte 2)
  = Host.write (m_stream s1)
               (Cipher.encrypt (T := Cipher.NullByteTransformer)
                               (firstn (Z.to_nat 2) ["x"; "y"]%byte)
                               (Cipher.zeros 2) (-1) 2) 2 /\
  (bad (write (T := Cipher.NullByteTransformer) s1 ["x"; "y"]%byte 2) = false ->
   tellp (write (T := Cipher.NullByteTransformer) s1 ["x"; "y"]%byte 2) = -1 + 2).
Proof.
  apply (clear_keeps_positions (T := Cipher.NullByteTransformer)
           (seekp (new Host.blank [false; true]) 5)
           ["b"; "f"; "s"]%byte ["x"; "y"]%byte 3 2).
  reflexivity.
Defined.

End ContainerImageStreamMore.

(** ** The null transformer as a copy *)

Module NullByteTransformerFacts.
Import Cipher.

(** X13.  The null transformer stores the plaintext itself: [doEncrypt] and
    [doDecrypt] put the first [length] octets of [in] over those of [out],
    keep what [out] holds behind them, and take no account of
    [startPosition]; with [length <= 0] the loop body never runs. *)
Theorem null_transformer_copies_prefix (inb out : list byte) (startPosition len : Z) :
  (Z.to_nat len <= length inb)%nat -> (Z.to_nat len <= length out)%nat ->
  NullByteTransformer_doEncrypt inb out startPosition len
  = firstn (Z.to_nat len) inb ++ skipn (Z.to_nat len) out /\
  NullByteTransformer_doDecrypt inb out startPosition len
  = firstn (Z.to_nat len) inb ++ skipn (Z.to_nat len) out /\
  (len <= 0 -> NullByteTransformer_doEncrypt inb out startPosition len = out).
Proof.
  intros Hin Hout.
  assert (H : copyLoop (Z.to_nat len) 0 inb out
              = firstn (Z.to_nat len) inb ++ skipn (Z.to_nat len) out).
  { pose proof (CipherFacts.copyLoop_window (Z.to_nat len) []
                  (firstn (Z.to_nat len) out) (skipn (Z.to_nat len) out) inb) as Hw.
    cbn [length app Nat.add skipn] in Hw.
    rewrite firstn_skipn in Hw. apply Hw; [|exact Hin].
    rewrite length_firstn. lia. }
  unfold NullByteTransformer_doEncrypt, NullByteTransformer_doDecrypt.
  split; [exact H|]. split; [exact H|].
  intros Hle. replace (Z.to_nat len) with 0%nat by lia. reflexivity.
Qed.

Lemma null_transformer_copies_prefix_witness :
  NullByteTransformer_doEncrypt ["T"; "e"; "a"]%byte ["1"; "2"; "3"; "4"]%byte 77 2
  = firstn (Z.to_nat 2) ["T"; "e"; "a"]%byte ++ skipn (Z.to_nat 2) ["1"; "2"; "3"; "4"]%byte /\
  NullByteTransformer_doDecrypt ["T"; "e"; "a"]%byte ["1"; "2"; "3"; "4"]%byte 77 2
  = firstn (Z.to_nat 2) ["T"; "e"; "a"]%byte ++ skipn (Z.to_nat 2) ["1"; "2"; "3"; "4"]%byte /\
  (2 <= 0 ->
   NullByteTransformer_doEncrypt ["T"; "e"; "a"]%byte ["1"; "2"; "3"; "4"]%byte 77 2
   = ["1"; "2"; "3"; "4"]%byte).
Proof.
  apply (null_transformer_copies_prefix
           ["T"; "e"; "a"]%byte ["1"; "2"; "3"; "4"]%byte 77 2); cbn; lia.
Defined.

End NullByteTransformerFacts.

(** ** The walks of the tests over the blocks of a file *)

Module FileEntryTestFacts.
Import FileEntryTest.
Section WithGeometry.
Context {G : Geometry}.

Lemma next_of_open (img : Host.image) (N i : Z) :
  FileBlock.getNextIndex (FileBlock.open img N i) = nextOnDisk img N i.
Proof.
  unfold FileBlock.getNextIndex, nextOnDisk.
  rewrite FileBlockFacts.open_eq. reflexivity.
Qed.

Lemma hd_tl_snoc (front : list Z) (l : Z) :
  hd l front :: tl (front ++ [l]) = front ++ [l].
Proof. destruct front; reflexivity. Qed.

Lemma linked_step (img : Host.image) (N i : Z) (front : list Z) (l : Z) :
  map (nextOnDisk img N) ((i :: front) ++ [l]) = tl ((i :: front) ++ [l]) ++ [l] ->
  nextOnDisk img N i = hd l front /\
  map (nextOnDisk img N) (front ++ [l]) = tl (front ++ [l]) ++ [l].
Proof.
  cbn [app map tl]. intros H.
  rewrite <- (hd_tl_snoc front l) in H at 2. cbn [app] in H.
  injection H as H1 H2. split; assumption.
Qed.

Lemma blockIndicesLoop_linked (img : Host.image) (N : Z) (l : Z) (front : list Z) :
  forall (rounds : nat) (acc : list Z),
    (length front <= rounds)%nat ->
    map (nextOnDisk img N) (front ++ [l]) = tl (front ++ [l]) ++ [l] ->
    Forall (fun i => nextOnDisk img N i <> i) front ->
    blockIndicesLoop rounds img N (hd l front) (nextOnDisk img N (hd l front)) acc
    = Some (acc ++ tl (front ++ [l])).
Proof.
  induction front as [|i front IH]; intros rounds acc Hrounds Hlink Hne.
  - cbn [app map tl] in Hlink. injection Hlink as Hl.
    cbn [hd app tl]. rewrite Hl, app_nil_r.
    destruct rounds; cbn [blockIndicesLoop]; rewrite Z.eqb_refl; reflexivity.
  - apply linked_step in Hlink as [Hi Hlink].
    inversion Hne as [|? ? Hii Hne']; subst.
    destruct rounds as [|rounds]; [cbn [length] in Hrounds; lia|].
    cbn [hd blockIndicesLoop].
    destruct (Z.eqb_spec (nextOnDisk img N i) i) as [Heq|_]; [contradiction|].
    rewrite next_of_open, Hi.
    rewrite IH by (cbn [length] in Hrounds; lia || assumption).
    rewrite <- app_assoc. cbn [app tl]. rewrite hd_tl_snoc. reflexivity.
Qed.

Lemma blocksAllocatedLoop_linked (img : Host.image) (N : Z) (l : Z) (front : list Z) :
  forall (rounds : nat) (passed : bool),
    (length front <= rounds)%nat ->
    map (nextOnDisk img N) (front ++ [l]) = tl (front ++ [l]) ++ [l] ->
    Forall (fun i => nextOnDisk img N i <> i) front ->
    blocksAllocatedLoop rounds img N (hd l front) (nextOnDisk img N (hd l front)) passed
    = Some (passed && forallb (fun i => Bitmap.isBlockInUse i N img) (tl (front ++ [l]))).
Proof.
  induction front as [|i front IH]; intros rounds passed Hrounds Hlink Hne.
  - cbn [app map tl] in Hlink. injection Hlink as Hl.
    cbn [hd app tl forallb]. rewrite Hl, andb_true_r.
    destruct rounds; cbn [blocksAllocatedLoop]; rewrite Z.eqb_refl; reflexivity.
  - apply linked_step in Hlink as [Hi Hlink].
    inversion Hne as [|? ? Hii Hne']; subst.
    destruct rounds as [|rounds]; [cbn [length] in Hrounds; lia|].
    cbn [hd blocksAllocatedLoop].
    destruct (Z.eqb_spec (nextOnDisk img N i) i) as [Heq|_]; [contradiction|].
    rewrite next_of_open, Hi.
    rewrite IH by (cbn [length] in Hrounds; lia || assumption).
    cbn [app tl]. rewrite <- (hd_tl_snoc front l) at 2. cbn [forallb].
    rewrite andb_assoc. reflexivity.
Qed.

(** X14.  The walks of [testBlocksAllocated] and [testFileUnlink] follow the
    [next] fields from the start block and stop at the first block that
    points to itself: on blocks [front ++ [l]] linked in this order, with [l]
    the only one pointing to itself, the loop ends within [|front|] rounds;
    [blockIndices] is then the list of the blocks in chain order, and the
    in-use assertions all compare equal exactly when every block of the list
    has its bit set. *)
Theorem walk_follows_chain (img : Host.image) (N : Z) (front : list Z) (l : Z)
        (rounds : nat) :
  (length front <= rounds)%nat ->
  map (nextOnDisk img N) (front ++ [l]) = tl (front ++ [l]) ++ [l] ->
  Forall (fun i => nextOnDisk img N i <> i) front ->
  blockIndicesWalk rounds img N (hd l front) = Some (front ++ [l]) /\
  blocksAllocatedWalk rounds img N (hd l front)
  = Some (forallb (fun i => Bitmap.isBlockInUse i N img) (front ++ [l])).
Proof.
  intros Hrounds Hlink Hne. unfold blockIndicesWalk, blocksAllocatedWalk.
  rewrite next_of_open. split.
  - rewrite (blockIndicesLoop_linked img N l front) by assumption.
    cbn [app]. rewrite hd_tl_snoc. reflexivity.
  - rewrite (blocksAllocatedLoop_linked img N l front) by assumption.
    rewrite <- (hd_tl_snoc front l) at 2. reflexivity.
Qed.

(** X15.  The loop condition [nextBlock != startBlock] compares a block with
    its own successor only, so the walks end nowhere but at a block that
    points to itself: started inside a set of blocks closed under [next] of
    which none points to itself (a chain that leads back to an earlier
    block), neither walk ends, whatever the number of rounds. *)
Theorem walk_needs_self_loop (img : Host.image) (N : Z) (cycle : list Z)
        (startBlock : Z) (rounds : nat) :
  Forall (fun i => nextOnDisk img N i <> i /\ In (nextOnDisk img N i) cycle) cycle ->
  In startBlock cycle ->
  blockIndicesWalk rounds img N startBlock = None /\
  blocksAllocatedWalk rounds img N startBlock = None.
Proof.
  intros Hcycle Hstart. rewrite Forall_forall in Hcycle.
  unfold blockIndicesWalk, blocksAllocatedWalk. rewrite next_of_open.
  split.
  - generalize [startBlock] as acc. revert startBlock Hstart.
    induction rounds as [|rounds IH]; intros i Hi acc;
      destruct (Hcycle i Hi) as [Hne Hin]; cbn [blockIndicesLoop];
      destruct (Z.eqb_spec (nextOnDisk img N i) i) as [Heq|_];
      try contradiction; [reflexivity|].
    rewrite next_of_open. apply IH. exact Hin.
  - generalize (Bitmap.isBlockInUse startBlock N img) as passed.
    revert startBlock Hstart.
    induction rounds as [|rounds IH]; intros i Hi passed;
      destruct (Hcycle i Hi) as [Hne Hin]; cbn [blocksAllocatedLoop];
      destruct (Z.eqb_spec (nextOnDisk img N i) i) as [Heq|_];
      try contradiction; [reflexivity|].
    rewrite next_of_open. apply IH. exact Hin.
Qed.

End WithGeometry.
End FileEntryTestFacts.

(** ** The scenarios of the tests on the file entry *)

Module FileEntryTestScenarios.
Import Chain FileEntryTest.
Section WithGeometry.
Context {G : Geometry}.

Lemma segment_links (img : Host.image) (N : Z) (front : list Z) (to : Z) (d : list byte) :
  segment img N front to d ->
  map (nextOnDisk img N) front = tl (front ++ [to]) /\
  Z.of_nat (length d) = Z.of_nat (length front) * payloadCapacity.
Proof.
  intros Hseg.
  induction Hseg as [to|i rest to d1 d2 (_ & Hnx & _) Hlen Hrest [IH1 IH2]].
  - split; reflexivity.
  - split.
    + cbn [map app tl]. unfold nextOnDisk at 1. rewrite Hnx, IH1.
      apply FileEntryTestFacts.hd_tl_snoc.
    + rewrite length_app. cbn [length]. lia.
Qed.

Lemma chain_links (img : Host.image) (N : Z) (front : list Z) (l : Z)
      (d1 d2 : list byte) :
  chain img N front l d1 d2 ->
  map (nextOnDisk img N) (front ++ [l]) = tl (front ++ [l]) ++ [l] /\
  Forall (fun i => nextOnDisk img N i <> i) front /\
  Z.of_nat (length d1) = Z.of_nat (length front) * payloadCapacity.
Proof.
  intros Hchain.
  pose proof (ChainFacts.chain_lastAloneSelfLoops N img front l d1 d2 Hchain)
    as (front' & l' & Heq & _ & Hne).
  apply app_inj_tail in Heq as [<- <-].
  destruct Hchain as [_ _ _ Hseg (_ & Hlnx & _) _].
  destruct (segment_links img N front l d1 Hseg) as [Hmap Hlen].
  split; [|split; [exact Hne|exact Hlen]].
  rewrite map_app, Hmap. cbn [map]. unfold nextOnDisk at 1. rewrite Hlnx.
  destruct front; reflexivity.
Qed.

(** Re-opening the file on its start block and reading [fileSize] octets
    gives the payload of the chain. *)
Lemma open_and_read_all (N : Z) (Hfit : image_fits N) (img : Host.image)
      (front : list Z) (l : Z) (d1 d2 : list byte) :
  chain img N front l d1 d2 ->
  exists e,
    FileEntry.open img N (hd l front) FileEntry.Read = inr e /\
    FileEntry.fileSize e = Z.of_nat (length (d1 ++ d2)) /\
    snd (FileEntry.read e img (FileEntry.fileSize e)) = d1 ++ d2.
Proof.
  intros Hchain.
  rewrite (ChainFacts.open_read_spec N img front l d1 d2 Hchain).
  eexists. split; [reflexivity|]. split; [reflexivity|].
  unfold FileEntry.read, FileEntry.fileSize.
  cbn [FileEntry.m_fileSize FileEntry.m_pos FileEntry.m_fileBlocks].
  rewrite Z.sub_0_r, Z.min_id.
  destruct Hchain as [Hrange _ _ Hseg Hlast Hfill].
  destruct (map (FileBlock.open img N) (front ++ [l])) as [|b blocks] eqn:Hmap.
  { apply (f_equal (@length _)) in Hmap.
    rewrite length_map, length_app in Hmap. cbn [length] in Hmap. lia. }
  assert (Hoffs : map FileBlock.m_offset (b :: blocks)
                  = map (fun i => getOffsetOfFileBlock i N) (front ++ [l])).
  { rewrite <- Hmap, map_map. apply map_ext. intros i.
    rewrite FileBlockFacts.open_eq. reflexivity. }
  assert (Heo : FileBlock.m_extraOffset b = 0).
  { destruct front; cbn [app map] in Hmap; injection Hmap as <- _;
      rewrite FileBlockFacts.open_eq; reflexivity. }
  assert (Hrounds : (length front < length (b :: blocks))%nat).
  { rewrite <- Hmap, length_map, length_app. cbn [length]. lia. }
  pose proof (ChainFacts.readLoop_chain N Hfit img front l d1 d2 Hseg Hlast Hfill Hrange
                (length (b :: blocks))
                (FileEntry.mk N (Z.of_nat (length (d1 ++ d2))) (b :: blocks)
                              (hd l front) 0 FileEntry.Read 0)
                [] b blocks [] eq_refl Hoffs Heo eq_refl Hrounds) as Hread.
  exact Hread.
Qed.

Lemma free_after_create (img : Host.image) (N : Z) :
  image_fits N -> (Bitmap.countUsed img N <= 1)%nat ->
  (Z.to_nat N - 1 <= Bitmap.countFree img N)%nat.
Proof.
  intros Hfit Hused.
  pose proof (BitmapFacts.count_total img N (proj1 Hfit)). lia.
Qed.

(** X16.  [testFileSizeReportedCorrectly], [testBlocksAllocated] and the walk
    of [testFileUnlink], for every data and image size, on the file entry as
    modelled from the spec: after [write] of [s] to a new entry and [flush],
    the entry and an entry re-opened on its start block both report
    [fileSize = |s|]; the walk over the blocks ends with every in-use
    assertion holding, and collects [|s| / P + 1] distinct blocks. *)
Theorem written_file_passes_inspection (img : Host.image) (N : Z) (s : list byte) :
  image_fits N ->
  (Bitmap.countUsed img N <= 1)%nat ->
  Z.of_nat (length s) / payloadCapacity + 2 <= N ->
  exists blockIndices,
    writeAndInspect img N s
    = inr (Z.of_nat (length s), Z.of_nat (length s), Some true, Some blockIndices) /\
    Z.of_nat (length blockIndices) = Z.of_nat (length s) / payloadCapacity + 1 /\
    NoDup blockIndices.
Proof.
  intros Hfit Hused HN.
  pose proof payloadCapacity_range as HP.
  pose proof (free_after_create img N Hfit Hused) as Hfree.
  assert (Hdiv0 : 0 <= Z.of_nat (length s) / payloadCapacity)
    by (apply Z.div_pos; lia).
  unfold writeAndInspect.
  destruct (ChainFacts.create_spec N Hfit img)
    as [[Hcf _]|(e & img1 & k & Hcreate & Happ & Hcount)]; [lia|].
  rewrite Hcreate. cbn [FileEntry.bind].
  destruct (ChainFacts.write_spec N Hfit s img1 e [] k [] [] Happ)
    as [(e2 & img2 & front & l & d1 & d2 & Hw & Happ2 & Hdata & Hhd & _)|(_ & Hc)];
    [|cbn [length Z.of_nat] in Hc; rewrite Z.add_0_l in Hc; lia].
  rewrite Hw. cbn [FileEntry.bind FileEntry.flush].
  unfold FileEntry.getStartVolumeBlockIndex.
  rewrite (app_start _ _ _ _ _ _ _ Happ2).
  pose proof (app_chain _ _ _ _ _ _ _ Happ2) as Hchain.
  pose proof (app_room _ _ _ _ _ _ _ Happ2) as Hroom.
  pose proof (app_size _ _ _ _ _ _ _ Happ2) as Hsize.
  cbn [app] in Hdata. rewrite Hdata in Hsize.
  rewrite (ChainFacts.open_read_spec N img2 front l d1 d2 Hchain).
  cbn [FileEntry.bind FileEntry.ret]. unfold FileEntry.fileSize.
  cbn [FileEntry.m_fileSize]. rewrite Hdata, Hsize.
  destruct (chain_links img2 N front l d1 d2 Hchain) as (Hlink & Hne & Hlen).
  pose proof (ChainFacts.chain_length N img2 front l d1 d2 Hchain) as Hshort.
  assert (Hrounds : (length front <= Z.to_nat N)%nat) by lia.
  unfold blockIndicesWalk, blocksAllocatedWalk.
  rewrite FileEntryTestFacts.next_of_open.
  rewrite (FileEntryTestFacts.blockIndicesLoop_linked img2 N l front) by assumption.
  rewrite (FileEntryTestFacts.blocksAllocatedLoop_linked img2 N l front) by assumption.
  cbn [app]. rewrite FileEntryTestFacts.hd_tl_snoc.
  change (Bitmap.isBlockInUse (hd l front) N img2
          && forallb (fun i => Bitmap.isBlockInUse i N img2) (tl (front ++ [l])))
    with (forallb (fun i => Bitmap.isBlockInUse i N img2)
                  (hd l front :: tl (front ++ [l]))).
  rewrite FileEntryTestFacts.hd_tl_snoc.
  replace (forallb _ (front ++ [l])) with true.
  2:{ symmetry. apply forallb_forall. intros i Hi.
      pose proof (chain_used _ _ _ _ _ _ Hchain) as Hu.
      rewrite Forall_forall in Hu. apply Hu. exact Hi. }
  exists (front ++ [l]). split; [reflexivity|].
  split; [|exact (chain_nodup _ _ _ _ _ _ Hchain)].
  rewrite length_app. cbn [length].
  apply (f_equal (@length _)) in Hdata. rewrite length_app in Hdata.
  assert (Hq : Z.of_nat (length s) / payloadCapacity = Z.of_nat (length front)).
  { replace (Z.of_nat (length s))
      with (Z.of_nat (length front) * payloadCapacity + Z.of_nat (length d2)) by lia.
    rewrite Z.div_add_l by lia. rewrite Z.div_small by lia. lia. }
  lia.
Qed.

(** X17.  [testBigWriteFollowedBySmallAppend] and
    [testSmallWriteFollowedByBigAppend], for every pair of data and every
    image size, on the file entry as modelled from the spec: after [write] of
    [s1] to a new entry, [flush], [write] of [s2] through an entry re-opened
    for appending and [flush], an entry re-opened for reading reports
    [fileSize = |s1| + |s2|] and reads back [s1 ++ s2]. *)
Theorem append_then_read_back (img : Host.image) (N : Z) (s1 s2 : list byte) :
  image_fits N ->
  (Bitmap.countUsed img N <= 1)%nat ->
  (Z.of_nat (length s1) + Z.of_nat (length s2)) / payloadCapacity + 2 <= N ->
  writeAppendReadBack img N s1 s2
  = inr (Z.of_nat (length s1) + Z.of_nat (length s2), s1 ++ s2).
Proof.
  intros Hfit Hused HN.
  pose proof payloadCapacity_range as HP.
  pose proof (free_after_create img N Hfit Hused) as Hfree.
  assert (Hmono : Z.of_nat (length s1) / payloadCapacity
                  <= (Z.of_nat (length s1) + Z.of_nat (length s2)) / payloadCapacity)
    by (apply Z.div_le_mono; lia).
  assert (Hdiv0 : 0 <= Z.of_nat (length s1) / payloadCapacity)
    by (apply Z.div_pos; lia).
  unfold writeAppendReadBack.
  destruct (ChainFacts.create_spec N Hfit img)
    as [[Hcf _]|(e & img1 & k & Hcreate & Happ & Hcount)]; [lia|].
  rewrite Hcreate. cbn [FileEntry.bind].
  destruct (ChainFacts.write_spec N Hfit s1 img1 e [] k [] [] Happ)
    as [(e2 & img2 & front & l & d1 & d2 & Hw & Happ2 & Hdata & Hhd & Hfree2)|(_ & Hc)];
    [|cbn [length Z.of_nat] in Hc; rewrite Z.add_0_l in Hc; lia].
  rewrite Hw. cbn [FileEntry.bind FileEntry.flush].
  unfold FileEntry.getStartVolumeBlockIndex.
  rewrite (app_start _ _ _ _ _ _ _ Happ2).
  pose proof (app_chain _ _ _ _ _ _ _ Happ2) as Hchain.
  pose proof (app_room _ _ _ _ _ _ _ Happ2) as Hroom.
  cbn [app length Z.of_nat] in Hdata, Hfree2. rewrite Z.add_0_l in Hfree2.
  destruct (chain_links img2 N front l d1 d2 Hchain) as (_ & _ & Hlen).
  assert (Hlens : Z.of_nat (length s1)
                  = Z.of_nat (length front) * payloadCapacity + Z.of_nat (length d2)).
  { rewrite <- Hdata, length_app. lia. }
  assert (Hq : (Z.of_nat (length s1) + Z.of_nat (length s2)) / payloadCapacity
               = Z.of_nat (length s1) / payloadCapacity
                 + (Z.of_nat (length d2) + Z.of_nat (length s2)) / payloadCapacity).
  { rewrite Hlens.
    replace (Z.of_nat (length front) * payloadCapacity + Z.of_nat (length d2)
             + Z.of_nat (length s2))
      with (Z.of_nat (length front) * payloadCapacity
            + (Z.of_nat (length d2) + Z.of_nat (length s2))) by lia.
    rewrite !Z.div_add_l by lia.
    rewrite (Z.div_small (Z.of_nat (length d2))) by lia. lia. }
  destruct (ChainFacts.open_append_spec N img2 front l d1 d2 Hchain Hroom)
    as (e3 & Hopen & Happ3).
  rewrite Hopen. cbn [FileEntry.bind].
  destruct (ChainFacts.write_spec N Hfit s2 img2 e3 front l d1 d2 Happ3)
    as [(e4 & img4 & front4 & l4 & d3 & d4 & Hw4 & Happ4 & Hdata4 & Hhd4 & _)|(_ & Hc)];
    [|lia].
  rewrite Hw4. cbn [FileEntry.bind FileEntry.flush].
  pose proof (app_chain _ _ _ _ _ _ _ Happ4) as Hchain4.
  rewrite <- Hhd4.
  destruct (open_and_read_all N Hfit img4 front4 l4 d3 d4 Hchain4)
    as (e5 & Hopen5 & Hsize5 & Hread5).
  rewrite Hopen5. cbn [FileEntry.bind].
  destruct (FileEntry.read e5 img4 (FileEntry.fileSize e5)) as [e6 bytes].
  cbn [snd] in Hread5. cbn [FileEntry.ret].
  rewrite Hsize5, Hread5, Hdata4, app_assoc, Hdata, length_app, Nat2Z.inj_add.
  reflexivity.
Qed.

End WithGeometry.
End FileEntryTestScenarios.

(** *** Instances on images of [B = 512] *)

Module FileEntryTestExamples.
Import FileEntryTest.
#[local] Existing Instance Geometry512.

Lemma image_fits_tests : image_fits 2048.
Proof. split; [lia|vm_compute; reflexivity]. Qed.

(** Blocks 1, 2 and 3 of a 16-block image linked in this order. *)
Lemma walk_follows_chain_witness :
  let img := snd (FileBlock.new
                    (snd (FileBlock.new (snd (FileBlock.new Host.blank 16 1 2)) 16 2 3))
                    16 3 3) in
  blockIndicesWalk 5 img 16 (hd 3 [1; 2]) = Some ([1; 2] ++ [3]) /\
  blocksAllocatedWalk 5 img 16 (hd 3 [1; 2])
  = Some (forallb (fun i => Bitmap.isBlockInUse i 16 img) ([1; 2] ++ [3])).
Proof.
  apply (FileEntryTestFacts.walk_follows_chain
           (snd (FileBlock.new
                   (snd (FileBlock.new (snd (FileBlock.new Host.blank 16 1 2)) 16 2 3))
                   16 3 3))
           16 [1; 2] 3 5).
  - cbn [length]. lia.
  - vm_compute. reflexivity.
  - constructor; [vm_compute; discriminate|].
    constructor; [vm_compute; discriminate|constructor].
Defined.

(** Blocks 1 and 2 of a 16-block image pointing to each other. *)
Lemma walk_needs_self_loop_witness :
  let img := snd (FileBlock.new (snd (FileBlock.new Host.blank 16 1 2)) 16 2 1) in
  blockIndicesWalk 100 img 16 1 = None /\
  blocksAllocatedWalk 100 img 16 1 = None.
Proof.
  apply (FileEntryTestFacts.walk_needs_self_loop
           (snd (FileBlock.new (snd (FileBlock.new Host.blank 16 1 2)) 16 2 1))
           16 [1; 2] 1 100).
  - constructor; [split; [vm_compute; discriminate|right; left; vm_compute; reflexivity]|].
    constructor; [split; [vm_compute; discriminate|left; vm_compute; reflexivity]|].
    constructor.
  - left. reflexivity.
Defined.

(** An image of 2048 blocks whose block 0 belongs to the root folder, and
    1137 octets of data. *)
Lemma written_file_passes_inspection_witness :
  exists blockIndices,
    writeAndInspect (Bitmap.markUsed Host.blank 0 2048) 2048
                    (map (fun i => Bytes.byte_of_Z (7 * Z.of_nat i + 3)) (seq 0 1137))
    = inr (Z.of_nat (length (map (fun i => Bytes.byte_of_Z (7 * Z.of_nat i + 3))
                                 (seq 0 1137))),
           Z.of_nat (length (map (fun i => Bytes.byte_of_Z (7 * Z.of_nat i + 3))
                                 (seq 0 1137))),
           Some true, Some blockIndices) /\
    Z.of_nat (length blockIndices)
    = Z.of_nat (length (map (fun i => Bytes.byte_of_Z (7 * Z.of_nat i + 3))
                            (seq 0 1137))) / payloadCapacity + 1 /\
    NoDup blockIndices.
Proof.
  apply (FileEntryTestScenarios.written_file_passes_inspection
           (Bitmap.markUsed Host.blank 0 2048) 2048
           (map (fun i => Bytes.byte_of_Z (7 * Z.of_nat i + 3)) (seq 0 1137))).
  - exact image_fits_tests.
  - vm_compute. apply le_n.
  - vm_compute. discriminate.
Defined.

(** 1137 octets written, 9 octets appended after re-opening. *)
Lemma append_then_read_back_witness :
  writeAppendReadBack (Bitmap.markUsed Host.blank 0 2048) 2048
                      (map (fun i => Bytes.byte_of_Z (7 * Z.of_nat i + 3)) (seq 0 1137))
                      (repeat "z"%byte 9)
  = inr (Z.of_nat (length (map (fun i => Bytes.byte_of_Z (7 * Z.of_nat i + 3))
                               (seq 0 1137)))
         + Z.of_nat (length (repeat "z"%byte 9)),
         map (fun i => Bytes.byte_of_Z (7 * Z.of_nat i + 3)) (seq 0 1137)
         ++ repeat "z"%byte 9).
Proof.
  apply (FileEntryTestScenarios.append_then_read_back
           (Bitmap.markUsed Host.blank 0 2048) 2048
           (map (fun i => Bytes.byte_of_Z (7 * Z.of_nat i + 3)) (seq 0 1137))
           (repeat "z"%byte 9)).
  - exact image_fits_tests.
  - vm_compute. apply le_n.
  - vm_compute. discriminate.
Defined.

End FileEntryTestExamples.

(** ** Two writes on one block *)

Module FileBlockSequences.
Import FileBlock.
Section WithGeometry.
Context {G : Geometry}.

Lemma write_size_on_disk (b : t) (img : Host.image) (buf : list byte) (n : Z) :
  placed b -> m_extraOffset b <= payloadCapacity ->
  diskBytesWritten (snd (fst (write b img buf n))) (m_offset b)
  = Bytes.wrap32 (m_bytesWritten b + Bytes.wrap32 n).
Proof.
  intros (Hidx & Heo0 & Hoff0 & Hoff63) Heo.
  pose proof FILE_BLOCK_SIZE_range as HB.
  unfold payloadCapacity, FILE_BLOCK_META in *.
  rewrite FileBlockFacts.write_eq. cbv zeta.
  set (bw := Bytes.wrap32 (m_bytesWritten b + Bytes.wrap32 n)).
  assert (Hbw : Bytes.wrap32 bw = bw)
    by (unfold bw, Bytes.wrap32; apply Z.mod_mod; lia).
  destruct ((n <? FILE_BLOCK_SIZE - FILE_BLOCK_META) || (0 <? m_extraOffset b));
    cbn [fst snd].
  - rewrite (FileBlockFacts.diskBytesWritten_ext
               (Host.pwrite
                  (Host.pwrite img
                     (Bytes.wrap64 (m_offset b + FILE_BLOCK_META + m_extraOffset b))
                     (firstn (Z.to_nat n) buf))
                  (m_offset b) (Bytes.convertInt32ToInt4Array bw)))
      by (intros a Ha; apply HostFacts.pwrite_outside;
          rewrite FileBlockFacts.length_convertUInt64; lia).
    rewrite FileBlockFacts.diskBytesWritten_written. exact Hbw.
  - rewrite FileBlockFacts.diskBytesWritten_written. exact Hbw.
Qed.

(** X18.  Writes compose inside a block: a write of [buf1] at intra-block
    offset [o], followed by a write of [buf2] on the resulting block moved to
    offset [o + |buf1|], leaves [buf1 ++ buf2] in the payload from [o] on, as
    one [read] at [o] shows, and [bytesWritten] increased by [|buf1| + |buf2|]
    in memory and in the header. *)
Theorem consecutive_writes_append (b : t) (img : Host.image) (buf1 buf2 : list byte)
        (n1 n2 : Z) :
  placed b ->
  n1 = Z.of_nat (length buf1) -> n2 = Z.of_nat (length buf2) ->
  m_extraOffset b + n1 + n2 <= payloadCapacity ->
  0 <= m_bytesWritten b -> m_bytesWritten b + n1 + n2 < 2 ^ 32 ->
  let '(b1, img1, _) := write b img buf1 n1 in
  let '(b2, img2, _) := write (setExtraOffset b1 (m_extraOffset b + n1)) img1 buf2 n2 in
  let '(_, _, out, _) :=
    read (setExtraOffset b2 (m_extraOffset b)) img2
         (repeat x00 (Z.to_nat (n1 + n2))) (n1 + n2) in
  out = buf1 ++ buf2 /\
  m_bytesWritten b2 = m_bytesWritten b + n1 + n2 /\
  diskBytesWritten img2 (m_offset b) = m_bytesWritten b + n1 + n2.
Proof.
  intros Hplaced Hn1 Hn2 Hroom Hbw0 Hbw32.
  pose proof FILE_BLOCK_SIZE_range as HB.
  pose proof Hplaced as (Hidx & Heo0 & Hoff0 & Hoff63).
  unfold payloadCapacity, FILE_BLOCK_META in Hroom.
  assert (Hpow : 2 ^ 32 < 2 ^ 64) by (vm_compute; reflexivity).
  assert (Heo : m_extraOffset b <= payloadCapacity)
    by (unfold payloadCapacity, FILE_BLOCK_META; lia).
  pose proof (FileBlockMore.write_outside_header b img buf1 n1 Hplaced Heo) as Himg1.
  pose proof (FileBlockMore.write_fields b img buf1 n1)
    as (Hoff1 & Heo1 & Hidx1 & _ & Hbw1 & _).
  destruct (write b img buf1 n1) as [[b1 img1] r1]. cbn [fst snd] in *.
  set (b1' := setExtraOffset b1 (m_extraOffset b + n1)).
  assert (Hplaced1 : placed b1').
  { unfold placed, b1', setExtraOffset. cbn [m_index m_extraOffset m_offset].
    rewrite Hidx1, Hoff1. lia. }
  assert (Heo1' : m_extraOffset b1' <= payloadCapacity).
  { unfold b1', setExtraOffset, payloadCapacity, FILE_BLOCK_META.
    cbn [m_extraOffset]. lia. }
  pose proof (FileBlockMore.write_outside_header b1' img1 buf2 n2 Hplaced1 Heo1') as Himg2.
  pose proof (FileBlockMore.write_fields b1' img1 buf2 n2)
    as (Hoff2 & _ & _ & _ & Hbw2 & _).
  pose proof (write_size_on_disk b1' img1 buf2 n2 Hplaced1 Heo1') as Hdisk.
  destruct (write b1' img1 buf2 n2) as [[b2 img2] r2]. cbn [fst snd] in *.
  unfold b1', setExtraOffset in Hoff2, Hbw2, Himg2, Hdisk.
  cbn [m_offset m_extraOffset m_bytesWritten] in Hoff2, Hbw2, Himg2, Hdisk.
  rewrite Hoff1 in Hoff2, Himg2, Hdisk.
  rewrite FileBlockFacts.read_eq. unfold setExtraOffset.
  cbn [m_offset m_extraOffset]. rewrite Hoff2. unfold FILE_BLOCK_META.
  rewrite FileBlockFacts.wrap64_small by lia.
  rewrite skipn_all2 by (rewrite repeat_length; lia). rewrite app_nil_r.
  rewrite (firstn_all2 (n := Z.to_nat n1)) in Himg1 by lia.
  rewrite (firstn_all2 (n := Z.to_nat n2)) in Himg2 by lia.
  assert (Hbw : m_bytesWritten b2 = m_bytesWritten b + n1 + n2).
  { rewrite Hbw2, Hbw1.
    rewrite (FileBlockFacts.wrap32_small n1), (FileBlockFacts.wrap32_small n2) by lia.
    rewrite (FileBlockFacts.wrap32_small (m_bytesWritten b + n1)) by lia.
    rewrite FileBlockFacts.wrap32_small by lia. reflexivity. }
  split; [|split; [exact Hbw|rewrite <- Hbw, Hbw2; exact Hdisk]].
  replace (Z.to_nat (n1 + n2)) with (length buf1 + length buf2)%nat by lia.
  rewrite HostFacts.pread_app. f_equal.
  - rewrite (HostFacts.pread_ext
               (Host.pwrite img (m_offset b + 12 + m_extraOffset b) buf1)).
    + apply HostFacts.pread_pwrite_same.
    + intros a Ha. rewrite Himg2 by lia.
      rewrite HostFacts.pwrite_outside by lia. apply Himg1. lia.
  - rewrite (HostFacts.pread_ext
               (Host.pwrite img1 (m_offset b + 12 + (m_extraOffset b + n1)) buf2)).
    + replace (m_offset b + 12 + m_extraOffset b + Z.of_nat (length buf1))
        with (m_offset b + 12 + (m_extraOffset b + n1)) by lia.
      apply HostFacts.pread_pwrite_same.
    + intros a Ha. apply Himg2. lia.
Qed.

End WithGeometry.
End FileBlockSequences.

Module FileBlockSequencesExamples.
Import FileBlock.
#[local] Existing Instance Geometry512.

(** Block 1 of a 16-block image holding 10 octets: 3 octets written at their
    end, then 2 more behind those. *)
Lemma consecutive_writes_append_witness :
  let b := mk 16 1 10 10 1 (getOffsetOfFileBlock 1 16) 10 in
  let '(b1, img1, _) := write b Host.blank ["x"; "y"; "z"]%byte 3 in
  let '(b2, img2, _) :=
    write (setExtraOffset b1 (m_extraOffset b + 3)) img1 ["u"; "v"]%byte 2 in
  let '(_, _, out, _) :=
    read (setExtraOffset b2 (m_extraOffset b)) img2
         (repeat x00 (Z.to_nat (3 + 2))) (3 + 2) in
  out = ["x"; "y"; "z"]%byte ++ ["u"; "v"]%byte /\
  m_bytesWritten b2 = m_bytesWritten b + 3 + 2 /\
  diskBytesWritten img2 (m_offset b) = m_bytesWritten b + 3 + 2.
Proof.
  apply (FileBlockSequences.consecutive_writes_append
           (mk 16 1 10 10 1 (getOffsetOfFileBlock 1 16) 10) Host.blank
           ["x"; "y"; "z"]%byte ["u"; "v"]%byte 3 2);
    repeat split; vm_compute; (reflexivity || discriminate).
Defined.

End FileBlockSequencesExamples.
